(** * xray-archiver, pipeline/util: a shallow embedding and its properties

  The development follows [pipeline/util/util.go] and the host-to-company
  mapper's [main]. First the program:

  - [Go]      : how a call ends (return, panic, process exit), slices;
  - [SetOps]  : [UniqAppend] and [Dedup];
  - [path]    : Go's [path.Clean], [Join], [Split], [Dir] and [Base];
  - the structs of [util.go], one module each for their field names;
  - [World]   : errors, the events of a run, the answers of the outside
                (operating system, network, storage) and the monad of
                calls that have effects;
  - [util]    : [NewApp], [AppByPath], [AppDir], [ApkPath], [OutDir],
                [Unpack], [Cleanup], [GetJSON], [GetHostGeoIP];
  - [mapper]  : [main];
  - [maps], [jsonio], [checkdir]: [Combine], [StrMap], [WriteJSON],
                [WriteDEAN], [CheckDir];
  - [config]  : [Load];
  - [url]     : the scheme that Go's [net/url] reads in a URL.

  Then the notions of the statements, and the properties, module by
  module.

  Go's [int] is modelled by [Z]: every integer below is an index or a
  length of a slice, bounded by the slice length, so the 64-bit
  wrap-around is never reached. *)

From Stdlib Require Import ZArith Lia Ascii String.
From stdpp Require Import base tactics option list sets strings pretty gmap.

Local Open Scope string_scope.
Local Open Scope Z_scope.
Local Open Scope list_scope.

(* ===================================================================== *)
(** * Go run-time behaviour shared by all functions                       *)
(* ===================================================================== *)

Module Go.

(** How a call can end. [Panic] is a run-time panic (index out of range,
    nil dereference); [Exit] is [os.Exit] as reached through [log.Fatal];
    [OutOfFuel] does not exist in Go: it is the answer of a loop of the
    embedding that was given too small an iteration budget. *)
Inductive outcome (A : Type) : Type :=
| Ret (x : A)
| Panic
| Exit (code : Z)
| OutOfFuel.
Arguments Ret {A} x.
Arguments Panic {A}.
Arguments Exit {A} code.
Arguments OutOfFuel {A}.

Definition bind {A B} (m : outcome A) (k : A -> outcome B) : outcome B :=
  match m with
  | Ret x => k x
  | Panic => Panic
  | Exit c => Exit c
  | OutOfFuel => OutOfFuel
  end.

#[global] Instance outcome_ret : MRet outcome := fun _ x => Ret x.
#[global] Instance outcome_bind : MBind outcome := fun _ _ k m => bind m k.

(** [len(a)] *)
Definition len {A} (a : list A) : Z := Z.of_nat (length a).

(** [a[i]]: panics when [i] is out of range. *)
Definition index {A} (a : list A) (i : Z) : outcome A :=
  if decide (0 <= i < len a)
  then match a !! Z.to_nat i with Some x => Ret x | None => Panic end
  else Panic.

(** [a[i] = v]: panics when [i] is out of range. *)
Definition store {A} (a : list A) (i : Z) (v : A) : outcome (list A) :=
  if decide (0 <= i < len a) then Ret (<[Z.to_nat i := v]> a) else Panic.

(** [a[:n]]. Go allows [n] up to the capacity of [a]; the embedding has
    no capacity and panics beyond the length, which is stricter. *)
Definition slice_to {A} (a : list A) (n : Z) : outcome (list A) :=
  if decide (0 <= n <= len a) then Ret (take (Z.to_nat n) a) else Panic.

(** [append(a, e)] *)
Definition append {A} (a : list A) (e : A) : list A := a ++ [e].

(** The string ["\n"] *)
Definition newline : string := String "010"%char "".

End Go.
Import Go.

(* ===================================================================== *)
(** * SetOps: UniqAppend and Dedup                                        *)
(* ===================================================================== *)

Module SetOps.

(** The inner loop of [UniqAppend]:
<<
    add := true
    for _, ae := range a { if ae == be { add = false; break } }
>>
    returning the final value of [add]. *)
Fixpoint UniqAppend_add (a : list string) (be : string) : bool :=
  match a with
  | [] => true
  | ae :: a' => if decide (ae = be) then false else UniqAppend_add a' be
  end.

(** [func UniqAppend(a []string, b []string) []string] *)
Definition UniqAppend (a b : list string) : list string :=
  let ret := [] in
  let ret := fold_left (fun ret e => append ret e) a ret in
  fold_left
    (fun ret be => if UniqAppend_add a be then append ret be else ret)
    b ret.

(** The inner loop of [Dedup], entered with [j] already initialised:
<<
    for ; j <= length; j++ {
      if a[i] == a[j] { a[j] = a[length]; a = a[:length]; length--; j-- }
    }
>>
    It returns the slice and [length] as the loop leaves them. *)
Fixpoint Dedup_inner (fuel : nat) (i : Z) (a : list string) (length j : Z)
  : outcome (list string * Z) :=
  if decide (j <= length) then
    match fuel with
    | O => OutOfFuel
    | S fuel =>
        ai ← index a i;
        aj ← index a j;
        if decide (ai = aj) then
          al ← index a length;
          a ← store a j al;
          a ← slice_to a length;
          let length := length - 1 in
          let j := j - 1 in
          Dedup_inner fuel i a length (j + 1)
        else Dedup_inner fuel i a length (j + 1)
    end
  else Ret (a, length).

(** The outer loop of [Dedup], entered with [i] already initialised:
<<
    for ; i < length; i++ { for j := i + 1; ... }
>>
    An inner loop over a slice of [n] elements makes fewer than [n]
    iterations, so it is given [n] as its budget. *)
Fixpoint Dedup_outer (fuel : nat) (a : list string) (length i : Z)
  : outcome (list string) :=
  if decide (i < length) then
    match fuel with
    | O => OutOfFuel
    | S fuel =>
        '(a, length) ← Dedup_inner (List.length a) i a length (i + 1);
        Dedup_outer fuel a length (i + 1)
    end
  else Ret a.

(** [func Dedup(a []string) []string]. The outer loop makes fewer than
    [len(a)] iterations. *)
Definition Dedup (a : list string) : outcome (list string) :=
  let length := len a - 1 in
  Dedup_outer (List.length a) a length 0.

End SetOps.

(* ===================================================================== *)
(** * Go's [path] package                                                 *)
(* ===================================================================== *)

(** [path.Clean], [path.Join], [path.Split], [path.Dir] and [path.Base]
    belong to Go's standard library. They are written here after the
    library's algorithms, on strings as lists of bytes. *)
Module path.

Definition slash : ascii := "/"%char.
Definition dot : ascii := "."%char.

Definition is_slash (c : ascii) : bool := Ascii.eqb c slash.
Definition is_dot (c : ascii) : bool := Ascii.eqb c dot.

(** [r == n || path[r] == '/'] for the rest of the input at [r]. *)
Definition at_end_or_slash (rest : list ascii) : bool :=
  match rest with
  | [] => true
  | c :: _ => is_slash c
  end.

(** The [..] case of [Clean] when it can backtrack: the output, kept in
    reverse, loses its last element:
<<
    out.w--
    for out.w > dotdot && out.index(out.w) != '/' { out.w-- }
>> *)
Fixpoint backtrack (rout : list ascii) (dotdot : nat) : list ascii :=
  match rout with
  | [] => []
  | c :: rout' =>
      if (dotdot <? length rout')%nat && negb (is_slash c)
      then backtrack rout' dotdot
      else rout'
  end.

(** The main loop of [Clean] over the unread input. [rout] is the output
    buffer in reverse and [copying] says that the loop is inside the copy
    of a real path element (the inner [for] of the default case). *)
Fixpoint Clean_loop (rooted copying : bool) (input rout : list ascii)
    (dotdot : nat) : list ascii :=
  match input with
  | [] => rout
  | c :: rest =>
      if copying then
        if is_slash c
        then Clean_loop rooted false rest rout dotdot
        else Clean_loop rooted true rest (c :: rout) dotdot
      else if is_slash c then
        (* empty path element *)
        Clean_loop rooted false rest rout dotdot
      else if is_dot c && at_end_or_slash rest then
        (* . element *)
        Clean_loop rooted false rest rout dotdot
      else
        match rest with
        | c' :: rest' =>
            if is_dot c && is_dot c' && at_end_or_slash rest' then
              (* .. element: remove to last / *)
              if (dotdot <? length rout)%nat then
                Clean_loop rooted false rest' (backtrack rout dotdot) dotdot
              else if negb rooted then
                let rout := if (0 <? length rout)%nat
                            then slash :: rout else rout in
                let rout := dot :: dot :: rout in
                Clean_loop rooted false rest' rout (length rout)
              else Clean_loop rooted false rest' rout dotdot
            else
              (* real path element: add slash if needed, copy element *)
              let rout :=
                if (rooted && negb (length rout =? 1)%nat)
                   || (negb rooted && negb (length rout =? 0)%nat)
                then slash :: rout else rout in
              Clean_loop rooted true rest (c :: rout) dotdot
        | [] =>
            let rout :=
              if (rooted && negb (length rout =? 1)%nat)
                 || (negb rooted && negb (length rout =? 0)%nat)
              then slash :: rout else rout in
            Clean_loop rooted true rest (c :: rout) dotdot
        end
  end.

(** [func Clean(path string) string] *)
Definition Clean (p : string) : string :=
  match list_ascii_of_string p with
  | [] => "."
  | (c :: _) as input =>
      let rooted := is_slash c in
      let rout := if rooted then [slash] else [] in
      let dotdot := if rooted then 1%nat else 0%nat in
      let rout := Clean_loop rooted false input rout dotdot in
      match rout with
      | [] => "."
      | _ => string_of_list_ascii (rev rout)
      end
  end.

(** [func Join(elem ...string) string]: the non-empty elements, separated
    by slashes, then cleaned; the empty string when there is none. *)
Fixpoint Join_buf (elem : list string) (buf : string) : string :=
  match elem with
  | [] => buf
  | e :: elem' =>
      if decide (buf <> "" \/ e <> "")
      then Join_buf elem' ((if decide (buf <> "") then buf +:+ "/" else buf) +:+ e)
      else Join_buf elem' buf
  end.

Definition Join (elem : list string) : string :=
  let buf := Join_buf elem "" in
  if decide (buf = "") then "" else Clean buf.

(** [strings.LastIndex(s, "/")]: [-1] when there is no slash. *)
Fixpoint LastIndexSlash (s : list ascii) : Z :=
  match s with
  | [] => -1
  | c :: s' =>
      let i := LastIndexSlash s' in
      if 0 <=? i then i + 1 else if is_slash c then 0 else -1
  end.

(** [func Split(path string) (dir, file string)] *)
Definition Split (p : string) : string * string :=
  let s := list_ascii_of_string p in
  let i := LastIndexSlash s in
  (string_of_list_ascii (take (Z.to_nat (i + 1)) s),
   string_of_list_ascii (drop (Z.to_nat (i + 1)) s)).

(** [func Dir(path string) string] *)
Definition Dir (p : string) : string := Clean (fst (Split p)).

(** The loop of [Base] that strips trailing slashes, on the reversed
    string. *)
Fixpoint strip_slashes (rs : list ascii) : list ascii :=
  match rs with
  | c :: rs' => if is_slash c then strip_slashes rs' else rs
  | [] => []
  end.

(** [func Base(path string) string] *)
Definition Base (p : string) : string :=
  if decide (p = "") then "."
  else
    let s := rev (strip_slashes (rev (list_ascii_of_string p))) in
    let i := LastIndexSlash s in
    let s := if 0 <=? i then drop (Z.to_nat (i + 1)) s else s in
    match s with
    | [] => "/"
    | _ => string_of_list_ascii s
    end.

End path.


(* ===================================================================== *)
(** * Data of [util.go]                                                   *)
(* ===================================================================== *)

(** [AppHostRecord] holds app_host data from the xray DB. *)
Module AppHostRecord.
Record t := { ID : Z; HostNames : list string }.
End AppHostRecord.

(** [TrackerMapperRequest]: the body of a request to the TrackerMapper
    API. *)
Module TrackerMapperRequest.
Record t := { HostNames : list string }.
End TrackerMapperRequest.

(** [TrackerMapperCompany]: the data requested from the TrackerMapper
    API. *)
Module TrackerMapperCompany.
Record t := {
  HostName : string;
  HostID : Z;
  CompanyName : string;
  CompanyID : Z;
  Locale : string;
  Categories : list string
}.
(** The zero value, as [var tmCompany util.TrackerMapperCompany] gives. *)
Definition zero : t :=
  {| HostName := ""; HostID := 0; CompanyName := ""; CompanyID := 0;
     Locale := ""; Categories := [] |}.
End TrackerMapperCompany.

Module Permission.
Record t := { ID : string; MaxSdkVer : string }.
End Permission.

(** A [float64], by its IEEE-754 bit pattern; no arithmetic is done on it. *)
Definition float64 : Type := Z.

Module GeoIPInfo.
Record t := {
  IP : string;
  CountryCode : string;
  CountryName : string;
  RegionCode : string;
  RegionName : string;
  City : string;
  ZipCode : string;
  TimeZone : string;
  Latitude : float64;
  Longitude : float64;
  MetroCode : Z
}.
(** The zero value, as [var inf GeoIPInfo] gives. *)
Definition zero : t :=
  {| IP := ""; CountryCode := ""; CountryName := ""; RegionCode := "";
     RegionName := ""; City := ""; ZipCode := ""; TimeZone := "";
     Latitude := 0; Longitude := 0; MetroCode := 0 |}.
End GeoIPInfo.

(** The fields of the process-wide [Cfg] that [util.go] reads, with the
    other path fields of the configuration. *)
Module Cfg.
Record t := {
  DataDir : string;
  AppDir : string;
  UnpackDir : string;
  SockPath : string
}.
End Cfg.

(** [App]: the information extracted from an APK. *)
Module App.
Record t := {
  DBID : Z;
  ID : string;
  Store : string;
  Region : string;
  Ver : string;
  Path : string;
  UnpackDir : string;
  Perms : list Permission.t;
  Hosts : list string;
  Packages : list string;
  Icon : string;
  UsesReflect : bool
}.

(** [app.UnpackDir = dir] *)
Definition set_UnpackDir (app : t) (dir : string) : t :=
  {| DBID := DBID app; ID := ID app; Store := Store app;
     Region := Region app; Ver := Ver app; Path := Path app;
     UnpackDir := dir;
     Perms := Perms app; Hosts := Hosts app; Packages := Packages app;
     Icon := Icon app; UsesReflect := UsesReflect app |}.
End App.

(* ===================================================================== *)
(** * The world outside the program                                       *)
(* ===================================================================== *)

Module World.

Inductive Errno := ENOENT | EACCES | ENOTDIR | EEXIST | EIO.

(** Go [error] values. [PathError] is [*os.PathError] around a system
    error; [ErrorString] is an error known by its message only
    ([fmt.Errorf], and the errors of the network and JSON libraries);
    [ExitError] is [*exec.ExitError]. *)
Inductive error :=
| PathError (op name : string) (errno : Errno)
| ErrPermission
| ErrorString (msg : string)
| ExitError (code : Z).

Definition Errno_string (e : Errno) : string :=
  match e with
  | ENOENT => "no such file or directory"
  | EACCES => "permission denied"
  | ENOTDIR => "not a directory"
  | EEXIST => "file exists"
  | EIO => "input/output error"
  end.

(** [err.Error()] *)
Definition Error (err : error) : string :=
  match err with
  | PathError op name errno => op +:+ " " +:+ name +:+ ": " +:+ Errno_string errno
  | ErrPermission => "permission denied"
  | ErrorString msg => msg
  | ExitError code => "exit status " +:+ pretty code
  end.

(** [os.IsNotExist(err)] *)
Definition IsNotExist (err : error) : bool :=
  match err with
  | PathError _ _ ENOENT => true
  | _ => false
  end.

(** [*http.Request], as far as [main] builds it; the body is kept as the
    value that was JSON-encoded into it. *)
Record Request := {
  Method : string;
  URL : string;
  Header : list (string * string);
  ReqBody : TrackerMapperRequest.t
}.

(** [req.Header.Set(key, value)] *)
Definition Header_Set (req : Request) (key value : string) : Request :=
  {| Method := Method req; URL := URL req;
     Header := (key, value) :: filter (fun kv => kv.1 <> key) (Header req);
     ReqBody := ReqBody req |}.

(** [*http.Response]: the status and the body, [None] for a nil [Body].
    A body is given by the bytes that reading it yields. *)
Record Response := { StatusCode : Z; Body : option string }.

(** What the program does to the outside, in the order it does it.
    [EvClose h] closes the body of the response to the request that is
    event number [h]. *)
Inductive Event :=
| EvStat (name : string)
| EvMkdirAll (name : string)
| EvChtimes (name : string)
| EvTempDir (dir prefix : string)
| EvRemoveAll (name : string)
| EvExec (argv : list string)
| EvLookupHost (host : string)
| EvGet (url : string)
| EvDo (req : Request)
| EvClose (h : nat)
| EvPrint (msg : string)
| EvLogErr (msg : string)
| EvLogDebug (msg : string)
| EvLogFatal (msg : string)
| EvGetAppHostIDs
| EvGetAppHostsByID (id : Z).

(** The answers of the operating system, the network, the storage layer
    and the libraries. An answer may depend on everything that happened
    before, so each takes the events so far. Results are Go's result
    tuples: a pointer or error that is [nil] is [None].

    The storage layer (package [db]) is not among the sources at hand.
    Its two functions are taken as [main] calls them and as the
    specification lists them, [listAppHostIDs() -> [ID]] and
    [getAppHosts(id) -> {id, hostNames}], each with an error as second
    result; what they answer is left open. [NewRequest_ans] is the
    error, if any, that [http.NewRequest] finds in a method and a URL;
    [PathEscape] is [url.PathEscape]; the two decoders are
    [json.Decoder.Decode] at the two target types, from the bytes of a
    body and the target as it is to the target as it becomes. *)
Record Env := {
  Stat_ans : list Event -> string -> option error;
  MkdirAll_ans : list Event -> string -> option error;
  Chtimes_ans : list Event -> string -> option error;
  TempDir_ans : list Event -> string -> string -> string * option error;
  RemoveAll_ans : list Event -> string -> option error;
  CombinedOutput_ans : list Event -> list string -> string * option error;
  LookupHost_ans : list Event -> string -> list string * option error;
  Get_ans : list Event -> string -> option Response * option error;
  Do_ans : list Event -> Request -> option Response * option error;
  NewRequest_ans : string -> string -> option error;
  PathEscape : string -> string;
  DecodeGeoIP : string -> GeoIPInfo.t -> GeoIPInfo.t * option error;
  DecodeCompany :
    string -> TrackerMapperCompany.t -> TrackerMapperCompany.t * option error;
  GetAppHostIDs_ans : list Event -> list Z * option error;
  GetAppHostsByID_ans : list Event -> Z -> AppHostRecord.t * option error
}.

(** The state a call runs in: the events so far and the deferred calls of
    the current function, last deferred first. Only [Body.Close] is ever
    deferred, so a deferred call is the handle of the body to close. *)
Record State := { trace : list Event; deferred : list nat }.

Definition IO (A : Type) : Type := State -> outcome A * State.

#[global] Instance IO_ret : MRet IO := fun _ x st => (Ret x, st).
#[global] Instance IO_bind : MBind IO := fun _ _ k m st =>
  match m st with
  | (Ret x, st') => k x st'
  | (Panic, st') => (Panic, st')
  | (Exit c, st') => (Exit c, st')
  | (OutOfFuel, st') => (OutOfFuel, st')
  end.

Definition emit (e : Event) : IO unit := fun st =>
  (Ret tt, {| trace := trace st ++ [e]; deferred := deferred st |}).

(** A call to the outside: the answer for the events so far, then the
    event of the call. *)
Definition call {A} (ans : list Event -> A) (e : Event) : IO A := fun st =>
  (Ret (ans (trace st)),
   {| trace := trace st ++ [e]; deferred := deferred st |}).

Definition panic {A} : IO A := fun st => (Panic, st).

(** [os.Exit(code)]: deferred calls do not run. *)
Definition os_Exit {A} (code : Z) : IO A := fun st => (Exit code, st).

(** [defer body.Close()] for the body with handle [h]. *)
Definition defer_Close (h : nat) : IO unit := fun st =>
  (Ret tt, {| trace := trace st; deferred := h :: deferred st |}).

(** The deferred calls of a function run when it returns or panics. *)
Definition run_deferred (st : State) : State :=
  {| trace := trace st ++ map EvClose (deferred st); deferred := [] |}.

(** A function body that may [defer]: it starts without deferred calls,
    runs them at its end unless the process exits, and gives the caller
    its own deferred calls back. *)
Definition func {A} (body : IO A) : IO A := fun st =>
  let '(r, st') := body {| trace := trace st; deferred := [] |} in
  let st' := match r with
             | Ret _ | Panic => run_deferred st'
             | Exit _ | OutOfFuel => st'
             end in
  (r, {| trace := trace st'; deferred := deferred st |}).

(** A program started on an empty history. *)
Definition start : State := {| trace := []; deferred := [] |}.

End World.
Import World.

(* ===================================================================== *)
(** * [util.go]: apps, their paths and their unpacking                    *)
(* ===================================================================== *)

Module util.

(** [func NewApp(dbID int64, id, store, region, ver string) *App] *)
Definition NewApp (dbID : Z) (id store region ver : string) : App.t :=
  {| App.DBID := dbID; App.ID := id; App.Store := store;
     App.Region := region; App.Ver := ver; App.Path := "";
     App.UnpackDir := ""; App.Perms := []; App.Hosts := [];
     App.Packages := []; App.Icon := ""; App.UsesReflect := false |}.

(** [func AppByPath(path string) *App] *)
Definition AppByPath (p : string) : App.t :=
  {| App.DBID := 0; App.ID := ""; App.Store := ""; App.Region := "";
     App.Ver := ""; App.Path := p; App.UnpackDir := ""; App.Perms := [];
     App.Hosts := []; App.Packages := []; App.Icon := "";
     App.UsesReflect := false |}.

(** [func (app *App) AppDir() string] *)
Definition AppDir (cfg : Cfg.t) (app : App.t) : string :=
  if decide (App.Path app <> "") then path.Dir (App.Path app)
  else path.Join [Cfg.AppDir cfg; App.ID app; App.Store app;
                  App.Region app; App.Ver app].

(** [func (app *App) ApkPath() string] *)
Definition ApkPath (cfg : Cfg.t) (app : App.t) : string :=
  if decide (App.Path app <> "") then App.Path app
  else path.Join [AppDir cfg app; App.ID app +:+ ".apk"].

(** [log.Fatal] and [log.Fatalf]: the message, then [os.Exit(1)]. *)
Definition log_Fatal {A} (msg : string) : IO A :=
  emit (EvLogFatal msg);; os_Exit 1.

(** [func (app *App) OutDir() string]. The receiver is a pointer: the
    call returns the directory together with the app as it leaves it. *)
Definition OutDir (env : Env) (cfg : Cfg.t) (app : App.t)
  : IO (string * App.t) :=
  if decide (App.UnpackDir app = "") then
    if decide (App.Path app <> "") then
      '(dir, err) ← call (fun tr => TempDir_ans env tr (Cfg.UnpackDir cfg)
                                      (path.Base (App.Path app)))
                         (EvTempDir (Cfg.UnpackDir cfg)
                                    (path.Base (App.Path app)));
      let app := App.set_UnpackDir app dir in
      match err with
      | Some err =>
          log_Fatal ("Failed to create temp dir in " +:+ Cfg.UnpackDir cfg
                     +:+ ": " +:+ Error err)
      | None => mret (App.UnpackDir app, app)
      end
    else
      let app :=
        App.set_UnpackDir app
          (path.Join [Cfg.UnpackDir cfg; App.ID app; App.Store app;
                      App.Region app; App.Ver app]) in
      err ← call (fun tr => MkdirAll_ans env tr (App.UnpackDir app))
                 (EvMkdirAll (App.UnpackDir app));
      match err with
      | Some err =>
          log_Fatal ("Failed to create temp dir in " +:+ App.UnpackDir app
                     +:+ ": " +:+ Error err)
      | None => mret (App.UnpackDir app, app)
      end
  else mret (App.UnpackDir app, app).

(** [func (app *App) Unpack() error], with the app as the call leaves
    it. [time.Now()] only gives the time that [os.Chtimes] writes and is
    not modelled. *)
Definition Unpack (env : Env) (cfg : Cfg.t) (app : App.t)
  : IO (option error * App.t) :=
  let apkPath := ApkPath cfg app in
  '(outDir, app) ← OutDir env cfg app;
  err ← call (fun tr => Stat_ans env tr apkPath) (EvStat apkPath);
  match err with
  | Some err =>
      if IsNotExist err then mret (Some err, app)
      else mret (Some (ErrorString ("couldn't open apk " +:+ apkPath +:+ ": "
                                    +:+ Error err)), app)
  | None =>
      err ← call (fun tr => MkdirAll_ans env tr (path.Dir outDir))
                 (EvMkdirAll (path.Dir outDir));
      match err with
      | Some _ => mret (Some ErrPermission, app)
      | None =>
          err ← call (fun tr => Chtimes_ans env tr (path.Dir outDir))
                     (EvChtimes (path.Dir outDir));
          match err with
          | Some _ => mret (Some ErrPermission, app)
          | None =>
              let cmd := ["apktool"; "d"; "-s"; apkPath; "-o"; outDir; "-f"] in
              '(out, err) ← call (fun tr => CombinedOutput_ans env tr cmd)
                                 (EvExec cmd);
              match err with
              | Some err =>
                  mret (Some (ErrorString
                                (Error err +:+ " unpacking apk; output below:"
                                 +:+ newline +:+ out)), app)
              | None => mret (None, app)
              end
          end
      end
  end.

(** [func (app *App) Cleanup() error] *)
Definition Cleanup (env : Env) (cfg : Cfg.t) (app : App.t)
  : IO (option error * App.t) :=
  '(outDir, app) ← OutDir env cfg app;
  err ← call (fun tr => RemoveAll_ans env tr outDir) (EvRemoveAll outDir);
  mret (err, app).

(** [http.StatusOK] *)
Definition StatusOK : Z := 200.

(** [func GetJSON(url string, target interface{}) error]. The decoder for
    the type of [target] is [dec]; the call returns [target] as the
    decoder leaves it. The handle of a response is the number of its
    request among the events. *)
Definition GetJSON {T} (env : Env) (dec : string -> T -> T * option error)
    (url : string) (target : T) : IO (T * option error) :=
  func (
    h ← (fun st => (Ret (length (trace st)), st));
    '(r, err) ← call (fun tr => Get_ans env tr url) (EvGet url);
    match err with
    | Some err => mret (target, Some err)
    | None =>
        match r with
        | None => panic
        | Some r =>
            if decide (StatusCode r <> StatusOK) then
              mret (target,
                    Some (ErrorString
                            ("Got status " +:+ pretty (StatusCode r) +:+
                             " while attempting to get GeoIP data")))
            else
              match Body r with
              | None => panic
              | Some body =>
                  defer_Close h;;
                  mret (dec body target)
              end
        end
    end).

(** The loop of [GetHostGeoIP] over the resolved addresses. *)
Fixpoint GetHostGeoIP_loop (env : Env) (geoipHost : string)
    (hosts : list string) (ret : list GeoIPInfo.t) : IO (list GeoIPInfo.t) :=
  match hosts with
  | [] => mret ret
  | host :: hosts =>
      let inf := GeoIPInfo.zero in
      '(inf, err) ← GetJSON env (DecodeGeoIP env)
                      (geoipHost +:+ "/" +:+ PathEscape env host) inf;
      match err with
      | Some err =>
          emit (EvPrint ("Couldn't lookup geoip info for " +:+ host +:+ ": "
                         +:+ Error err +:+ " " +:+ newline));;
          GetHostGeoIP_loop env geoipHost hosts ret
      | None => GetHostGeoIP_loop env geoipHost hosts (append ret inf)
      end
  end.

(** [func GetHostGeoIP(geoipHost, host string) ([]GeoIPInfo, error)];
    a nil slice is [None]. *)
Definition GetHostGeoIP (env : Env) (geoipHost host : string)
  : IO (option (list GeoIPInfo.t) * option error) :=
  '(hosts, err) ← call (fun tr => LookupHost_ans env tr host)
                       (EvLookupHost host);
  match err with
  | Some err => mret (None, Some err)
  | None =>
      let ret := [] in
      ret ← GetHostGeoIP_loop env geoipHost hosts ret;
      mret (Some ret, None)
  end.

End util.

(* ===================================================================== *)
(** * The host-to-company mapper: [main]                                  *)
(* ===================================================================== *)

Module mapper.

Definition hosts_url : string := "localhost:8080/hosts".

(** [http.NewRequest(method, url, body)]: the request, or nil and the
    error of the method or URL check. *)
Definition NewRequest (env : Env) (method url : string)
    (body : TrackerMapperRequest.t) : option Request * option error :=
  match NewRequest_ans env method url with
  | Some err => (None, Some err)
  | None => (Some {| Method := method; URL := url; Header := [];
                     ReqBody := body |}, None)
  end.

(** The body of the loop over [j] in [main]: one request. *)
Definition main_request (env : Env) (tmReqData : TrackerMapperRequest.t)
  : IO unit :=
  let url := hosts_url in
  (* Encode Object *)
  let ioBuffer := tmReqData in
  (* Form Request and set headers. *)
  let '(req, err) := NewRequest env "POST" url ioBuffer in
  req ← match req with
        | Some req => mret (Header_Set req "Content-Type" "application/json")
        | None => panic
        end;
  (* Check for errors forming request. *)
  match err with
  | Some _ => emit (EvLogErr "Error forming TrackerMapper API Request.")
  | None => mret tt
  end;;
  (* carry out the request. *)
  h ← (fun st => (Ret (length (trace st)), st));
  '(resp, err) ← call (fun tr => Do_ans env tr req) (EvDo req);
  (* check for errors carrying out the request *)
  match err with
  | Some _ =>
      emit (EvLogErr "Client Error issueing Tracker Mapper API request..")
  | None => mret tt
  end;;
  (* Check there is a response body. *)
  resp ← match resp with Some resp => mret resp | None => panic end;
  match Body resp with
  | Some _ => defer_Close h
  | None => mret tt
  end;;
  (* Decode the response and check for error. *)
  let tmCompany := TrackerMapperCompany.zero in
  body ← match Body resp with Some body => mret body | None => panic end;
  let '(tmCompany, err) := DecodeCompany env body tmCompany in
  match err with
  | Some _ =>
      emit (EvLogErr "Error Decoding Response Body from TrackerMapper API.")
  | None => mret tt
  end;;
  (* Log the decoded responsee *)
  emit (EvLogDebug ("Company Name: "
                    +:+ TrackerMapperCompany.CompanyName tmCompany
                    +:+ ". Host Name: "
                    +:+ TrackerMapperCompany.HostName tmCompany)).

(** [for j := 0; j < len(appHostRecord.HostNames); j++ { ... }]; the body
    does not read [j], and [todo] counts the iterations left. *)
Fixpoint main_hosts (env : Env) (tmReqData : TrackerMapperRequest.t)
    (todo : nat) : IO unit :=
  match todo with
  | O => mret tt
  | S todo => main_request env tmReqData;; main_hosts env tmReqData todo
  end.

(** [for i := 0; i < len(appIDs); i++ { ... }] over [appIDs[i:]]. *)
Fixpoint main_apps (env : Env) (appIDs : list Z) : IO unit :=
  match appIDs with
  | [] => mret tt
  | id :: appIDs =>
      '(appHostRecord, _) ← call (fun tr => GetAppHostsByID_ans env tr id)
                                 (EvGetAppHostsByID id);
      let tmReqData :=
        {| TrackerMapperRequest.HostNames :=
             AppHostRecord.HostNames appHostRecord |} in
      main_hosts env tmReqData
        (length (AppHostRecord.HostNames appHostRecord));;
      main_apps env appIDs
  end.

(** [func main()] *)
Definition main (env : Env) : IO unit :=
  func (
    '(appIDs, _) ← call (fun tr => GetAppHostIDs_ans env tr) EvGetAppHostIDs;
    main_apps env appIDs).

End mapper.

(* ===================================================================== *)
(** * [util.go]: maps of strings                                          *)
(* ===================================================================== *)

(** A Go map is a reference: [nil], or the address of a table that
    everyone who holds the reference shares. The tables live in a heap.
    Go does not fix the order in which [range] visits the keys of a map;
    a loop over a map takes that order as an argument. *)
Module maps.

(** [type Unit struct{}] and [var unit Unit] *)
Inductive Unit : Type := unit.

Abbreviation table := (gmap string Unit).
Abbreviation heap := (gmap nat (gmap string Unit)).

(** A value of type [map[string]Unit]: [None] is the nil map. *)
Definition mapref : Type := option nat.

(** [m[key] = unit]: panics on the nil map. An address without a table
    does not exist in Go; the embedding panics there too. *)
Definition assign (h : heap) (m : mapref) (key : string) : outcome heap :=
  match m with
  | None => Panic
  | Some l =>
      match h !! l with
      | Some t => Ret (<[l := <[key := unit]> t]> h)
      | None => Panic
      end
  end.

(** [make(map[string]Unit)]: a new, empty table at an unused address. *)
Definition make (h : heap) : mapref * heap :=
  let l := fresh (dom h) in (Some l, <[l := ∅]> h).

(** The keys of a map, for [range]: none for the nil map. *)
Definition keys (h : heap) (m : mapref) : gset string :=
  match m with
  | Some l => match h !! l with Some t => dom t | None => ∅ end
  | None => ∅
  end.

(** [for _, e := range order { ret[e] = unit }] *)
Fixpoint assign_all (h : heap) (ret : mapref) (order : list string)
  : outcome heap :=
  match order with
  | [] => Ret h
  | e :: order => h ← assign h ret e; assign_all h ret order
  end.

(** [func Combine(a, b map[string]Unit) map[string]Unit], where [range b]
    visits the keys of [b] in the order [order]. *)
Definition Combine (order : list string) (h : heap) (a b : mapref)
  : outcome (mapref * heap) :=
  let ret := a in
  h ← assign_all h ret order;
  Ret (ret, h).

(** [func StrMap(args ...string) map[string]Unit] *)
Definition StrMap (h : heap) (args : list string) : outcome (mapref * heap) :=
  let '(ret, h) := make h in
  h ← assign_all h ret args;
  Ret (ret, h).

End maps.

(* ===================================================================== *)
(** * [util.go]: writing JSON                                             *)
(* ===================================================================== *)

Module jsonio.

(** An [io.Writer]: its states, and [Write], which gives the writer as
    it becomes, the number of bytes written and an error. *)
Record Writer := {
  state : Type;
  Write : state -> string -> state * (Z * option error)
}.

(** [func WriteJSON(w io.Writer, data interface{}) error]. [marshal] is
    the encoding of [data] without HTML escaping; with an empty prefix
    and an empty indent the encoder leaves it as it is. [Encode] adds a
    newline and writes the whole in one [Write]; when the encoding
    fails it writes nothing. *)
Definition WriteJSON (wr : Writer) {T} (marshal : T -> string * option error)
    (w : state wr) (data : T) : state wr * option error :=
  match marshal data with
  | (_, Some err) => (w, Some err)
  | (b, None) =>
      let '(w, (_, err)) := Write wr w (b +:+ newline) in
      (w, err)
  end.

(** [func WriteDEAN(w io.Writer, data interface{}) error] *)
Definition WriteDEAN (wr : Writer) {T} (marshal : T -> string * option error)
    (w : state wr) (data : T) : state wr * option error :=
  let '(w, _) := Write wr w ("Nah" +:+ newline) in
  let '(w, _) := WriteJSON wr marshal w data in
  let '(w, _) := Write wr w "mate." in
  (w, None).

End jsonio.

(* ===================================================================== *)
(** * [util.go]: CheckDir                                                 *)
(* ===================================================================== *)

Module checkdir.

(** [func CheckDir(dir, name string)]. [os.Stat] returns a [FileInfo]
    beside its error; [IsDir_ans] answers [fif.IsDir()] for it. A panic
    carries a message in Go, which the embedding drops. *)
Definition CheckDir (env : Env) (IsDir_ans : list Event -> string -> bool)
    (dir name : string) : IO unit :=
  '(fif_IsDir, err) ← call (fun tr => (IsDir_ans tr dir, Stat_ans env tr dir))
                           (EvStat dir);
  match err with
  | Some err =>
      if IsNotExist err then
        err ← call (fun tr => MkdirAll_ans env tr dir) (EvMkdirAll dir);
        match err with
        | Some _ => panic
        | None => mret tt
        end
      else panic
  | None => if negb fif_IsDir then panic else mret tt
  end.

End checkdir.

(* ===================================================================== *)
(** * Package [config]: Load                                              *)
(* ===================================================================== *)

Module DbCfg.
Record t := {
  Database : string;
  User : string;
  Password : string;
  Host : string;
  Port : Z
}.
Definition zero : t :=
  {| Database := ""; User := ""; Password := ""; Host := ""; Port := 0 |}.
End DbCfg.

Module AnalyzerCfg.
Record t := { Db : DbCfg.t }.
Definition zero : t := {| Db := DbCfg.zero |}.
End AnalyzerCfg.

Module Config.
Record t := {
  DataDir : string;
  AppDir : string;
  UnpackDir : string;
  SockPath : string;
  Analyzer : AnalyzerCfg.t;
  Db : DbCfg.t
}.
(** [var cfg Config] *)
Definition zero : t :=
  {| DataDir := ""; AppDir := ""; UnpackDir := ""; SockPath := "";
     Analyzer := AnalyzerCfg.zero; Db := DbCfg.zero |}.

Definition set_DataDir (cfg : t) (v : string) : t :=
  {| DataDir := v; AppDir := AppDir cfg; UnpackDir := UnpackDir cfg;
     SockPath := SockPath cfg; Analyzer := Analyzer cfg; Db := Db cfg |}.
Definition set_AppDir (cfg : t) (v : string) : t :=
  {| DataDir := DataDir cfg; AppDir := v; UnpackDir := UnpackDir cfg;
     SockPath := SockPath cfg; Analyzer := Analyzer cfg; Db := Db cfg |}.
Definition set_UnpackDir (cfg : t) (v : string) : t :=
  {| DataDir := DataDir cfg; AppDir := AppDir cfg; UnpackDir := v;
     SockPath := SockPath cfg; Analyzer := Analyzer cfg; Db := Db cfg |}.
Definition set_SockPath (cfg : t) (v : string) : t :=
  {| DataDir := DataDir cfg; AppDir := AppDir cfg; UnpackDir := UnpackDir cfg;
     SockPath := v; Analyzer := Analyzer cfg; Db := Db cfg |}.
End Config.

Module config.

(** What [Load] reads: [os.Open] gives a file or nil, and an error;
    [ioutil.ReadAll] gives the bytes of that file, and an error;
    [json.Unmarshal] fills a configuration from the bytes. The file is
    opened and read once, so the answers do not depend on a history. *)
Record Files := {
  Open_ans : string -> option nat * option error;
  ReadAll_ans : option nat -> string * option error;
  Unmarshal : string -> Config.t -> Config.t * option error
}.

(** The string ["\t"] *)
Definition tab : string := String "009"%char "".

(** [fmt.Println(label, value)]: the operands with a space between
    them, and a newline. *)
Definition Println2 (label value : string) : string :=
  label +:+ " " +:+ value +:+ newline.

(** [func Load(cfgFile string) Config], with the lines it prints. The
    error of [os.Open] is overwritten by that of [ioutil.ReadAll]. *)
Definition Load (fs : Files) (cfgFile : string)
  : outcome (Config.t * list string) :=
  let '(file, err) := Open_ans fs cfgFile in
  let '(bytes, err) := ReadAll_ans fs file in
  match err with
  | Some _ => Panic
  | None =>
      let '(cfg, err) := Unmarshal fs bytes Config.zero in
      match err with
      | Some _ => Panic
      | None =>
          let cfg := if decide (Config.DataDir cfg = "")
                     then Config.set_DataDir cfg "/usr/local/var/xray"
                     else cfg in
          let cfg := Config.set_AppDir cfg
                       (path.Join [Config.DataDir cfg; "apps"]) in
          let cfg := if decide (Config.UnpackDir cfg = "")
                     then Config.set_UnpackDir cfg "/tmp/unpacked_apks"
                     else cfg in
          let cfg := if decide (Config.SockPath cfg = "")
                     then Config.set_SockPath cfg "/var/run/apkScraper"
                     else cfg in
          let cfg := Config.set_AppDir cfg (path.Clean (Config.AppDir cfg)) in
          let cfg := Config.set_UnpackDir cfg
                       (path.Clean (Config.UnpackDir cfg)) in
          let cfg := Config.set_SockPath cfg
                       (path.Clean (Config.SockPath cfg)) in
          Ret (cfg,
               ["Config:" +:+ newline;
                Println2 (tab +:+ "App directory:") (Config.AppDir cfg);
                Println2 (tab +:+ "Unpacked app directory:")
                         (Config.UnpackDir cfg);
                Println2 (tab +:+ "Message socket path:")
                         (Config.SockPath cfg)])
      end
  end.

End config.

(* ===================================================================== *)
(** * Go's [net/url]: the scheme of a URL                                 *)
(* ===================================================================== *)

(** [getScheme] and the [Scheme] field that [url.Parse] fills belong to
    Go's standard library. They are written here after the library's
    algorithm, on strings as lists of bytes. [http.NewRequest] parses
    its URL with [url.Parse], and the transport of [net/http] chooses by
    the scheme that was found. *)
Module url.

Definition between (lo hi c : ascii) : bool := Ascii.leb lo c && Ascii.leb c hi.

(** ['a' <= c && c <= 'z' || 'A' <= c && c <= 'Z'] *)
Definition is_letter (c : ascii) : bool :=
  between "a" "z" c || between "A" "Z" c.

(** ['0' <= c && c <= '9' || c == '+' || c == '-' || c == '.'] *)
Definition is_scheme_mark (c : ascii) : bool :=
  between "0" "9" c || Ascii.eqb c "+" || Ascii.eqb c "-" || Ascii.eqb c ".".

(** The loop of [getScheme] at index [i], with [pre = rawURL[:i]] and
    [rest = rawURL[i:]]; [i == 0] is [pre = []]. *)
Fixpoint getScheme_loop (rawURL : string) (pre rest : list ascii)
  : (string * string) * option error :=
  match rest with
  | [] => (("", rawURL), None)
  | c :: rest' =>
      if is_letter c then getScheme_loop rawURL (pre ++ [c]) rest'
      else if is_scheme_mark c then
        match pre with
        | [] => (("", rawURL), None)
        | _ => getScheme_loop rawURL (pre ++ [c]) rest'
        end
      else if Ascii.eqb c ":" then
        match pre with
        | [] => (("", ""), Some (ErrorString "missing protocol scheme"))
        | _ => ((string_of_list_ascii pre, string_of_list_ascii rest'), None)
        end
      else (("", rawURL), None)
  end.

(** [func getScheme(rawURL string) (scheme, path string, err error)]:
    [rawURL] as [scheme:path] when it has that form, and else as a path
    without a scheme. *)
Definition getScheme (rawURL : string) : (string * string) * option error :=
  getScheme_loop rawURL [] (list_ascii_of_string rawURL).

(** [strings.ToLower] on the bytes of a scheme, which are ASCII. *)
Definition ToLower (s : string) : string :=
  string_of_list_ascii
    (map (fun c => if between "A" "Z" c
                   then ascii_of_nat (nat_of_ascii c + 32) else c)
         (list_ascii_of_string s)).

(** The field [Scheme] of the URL that [url.Parse(rawURL)] returns:
    [url.Scheme = strings.ToLower(url.Scheme)] behind [getScheme]. *)
Definition Scheme (rawURL : string) : string :=
  ToLower (getScheme rawURL).1.1.

End url.

(* ===================================================================== *)
(** * Concrete worlds, for examples                                       *)
(* ===================================================================== *)

Module TestWorld.

Definition rec_of (hostnames : list string) (id : Z) : AppHostRecord.t :=
  {| AppHostRecord.ID := id; AppHostRecord.HostNames := hostnames |}.

(** A world where every call succeeds: files exist, directories can be
    made (except the one with the empty name), [apktool] prints nothing,
    every host resolves to one address, every HTTP request is answered
    with [status] and [body], and the decoders read the body as the host
    name or address. The storage holds the apps [ids], each with the
    host names [hostnames]. *)
Definition env_ok (status : Z) (body : string) (ids : list Z)
    (hostnames : list string) : Env :=
  {| Stat_ans := fun _ _ => None;
     MkdirAll_ans := fun _ name =>
       if decide (name = "") then Some (PathError "mkdir" "" ENOENT)
       else None;
     Chtimes_ans := fun _ _ => None;
     TempDir_ans := fun tr dir prefix =>
       ("/" +:+ dir +:+ "/" +:+ prefix +:+ pretty (length tr), None);
     RemoveAll_ans := fun _ _ => None;
     CombinedOutput_ans := fun _ _ => ("", None);
     LookupHost_ans := fun _ _ => (["192.0.2.1"], None);
     Get_ans := fun _ _ =>
       (Some {| StatusCode := status; Body := Some body |}, None);
     Do_ans := fun _ _ =>
       (Some {| StatusCode := status; Body := Some body |}, None);
     NewRequest_ans := fun _ _ => None;
     PathEscape := fun s => s;
     DecodeGeoIP := fun body inf =>
       if decide (body = "") then (inf, Some (ErrorString "EOF"))
       else ({| GeoIPInfo.IP := body;
                GeoIPInfo.CountryCode := GeoIPInfo.CountryCode inf;
                GeoIPInfo.CountryName := GeoIPInfo.CountryName inf;
                GeoIPInfo.RegionCode := GeoIPInfo.RegionCode inf;
                GeoIPInfo.RegionName := GeoIPInfo.RegionName inf;
                GeoIPInfo.City := GeoIPInfo.City inf;
                GeoIPInfo.ZipCode := GeoIPInfo.ZipCode inf;
                GeoIPInfo.TimeZone := GeoIPInfo.TimeZone inf;
                GeoIPInfo.Latitude := GeoIPInfo.Latitude inf;
                GeoIPInfo.Longitude := GeoIPInfo.Longitude inf;
                GeoIPInfo.MetroCode := GeoIPInfo.MetroCode inf |}, None);
     DecodeCompany := fun body c =>
       if decide (body = "") then (c, Some (ErrorString "EOF"))
       else ({| TrackerMapperCompany.HostName := body;
                TrackerMapperCompany.HostID := TrackerMapperCompany.HostID c;
                TrackerMapperCompany.CompanyName := "ACME";
                TrackerMapperCompany.CompanyID :=
                  TrackerMapperCompany.CompanyID c;
                TrackerMapperCompany.Locale := TrackerMapperCompany.Locale c;
                TrackerMapperCompany.Categories :=
                  TrackerMapperCompany.Categories c |}, None);
     GetAppHostIDs_ans := fun _ => (ids, None);
     GetAppHostsByID_ans := fun _ id => (rec_of hostnames id, None) |}.

(** [env] with other answers of the operating system. *)
Definition with_os (env : Env)
    (stat : list Event -> string -> option error)
    (exec : list Event -> list string -> string * option error) : Env :=
  {| Stat_ans := stat;
     MkdirAll_ans := MkdirAll_ans env;
     Chtimes_ans := Chtimes_ans env;
     TempDir_ans := TempDir_ans env;
     RemoveAll_ans := RemoveAll_ans env;
     CombinedOutput_ans := exec;
     LookupHost_ans := LookupHost_ans env;
     Get_ans := Get_ans env;
     Do_ans := Do_ans env;
     NewRequest_ans := NewRequest_ans env;
     PathEscape := PathEscape env;
     DecodeGeoIP := DecodeGeoIP env;
     DecodeCompany := DecodeCompany env;
     GetAppHostIDs_ans := GetAppHostIDs_ans env;
     GetAppHostsByID_ans := GetAppHostsByID_ans env |}.

(** [env] with other answers of the network. *)
Definition with_net (env : Env)
    (lookup : list Event -> string -> list string * option error)
    (get : list Event -> string -> option Response * option error)
    (do : list Event -> Request -> option Response * option error) : Env :=
  {| Stat_ans := Stat_ans env;
     MkdirAll_ans := MkdirAll_ans env;
     Chtimes_ans := Chtimes_ans env;
     TempDir_ans := TempDir_ans env;
     RemoveAll_ans := RemoveAll_ans env;
     CombinedOutput_ans := CombinedOutput_ans env;
     LookupHost_ans := lookup;
     Get_ans := get;
     Do_ans := do;
     NewRequest_ans := NewRequest_ans env;
     PathEscape := PathEscape env;
     DecodeGeoIP := DecodeGeoIP env;
     DecodeCompany := DecodeCompany env;
     GetAppHostIDs_ans := GetAppHostIDs_ans env;
     GetAppHostsByID_ans := GetAppHostsByID_ans env |}.

(** A network where [nx.invalid] does not resolve, every other host has
    the two addresses [192.0.2.1] and [192.0.2.2], and the geolocation
    service answers for the first and refuses the connection for the
    second. *)
Definition env_geo : Env :=
  with_net (env_ok 200 "192.0.2.1" [] [])
    (fun _ host =>
       if decide (host = "nx.invalid")
       then ([], Some (ErrorString "lookup nx.invalid: no such host"))
       else (["192.0.2.1"; "192.0.2.2"], None))
    (fun _ url =>
       if decide (url = "http://geoip/192.0.2.2")
       then (None, Some (ErrorString "connection refused"))
       else (Some {| StatusCode := 200; Body := Some "192.0.2.1" |}, None))
    (fun _ _ => (None, Some (ErrorString "connection refused"))).

(** Worlds where the package file is missing, where it cannot be
    examined, and where [apktool] fails. *)
Definition env_missing : Env :=
  with_os (env_ok 200 "" [] [])
    (fun _ name => Some (PathError "stat" name ENOENT))
    (fun _ _ => ("", None)).

Definition env_denied : Env :=
  with_os (env_ok 200 "" [] [])
    (fun _ name => Some (PathError "stat" name EACCES))
    (fun _ _ => ("", None)).

Definition env_apktool_fails : Env :=
  with_os (env_ok 200 "" [] [])
    (fun _ _ => None)
    (fun _ _ => ("brut.androlib.AndrolibException", Some (ExitError 1))).

(** A world where the attribution service cannot be reached: [client.Do]
    returns no response and an error. *)
Definition env_refused (ids : list Z) (hostnames : list string) : Env :=
  with_net (env_ok 200 "" ids hostnames)
    (fun _ _ => ([], None))
    (fun _ _ => (None, Some (ErrorString "connection refused")))
    (fun _ _ => (None, Some (ErrorString "connection refused"))).

Definition cfg : Cfg.t :=
  {| Cfg.DataDir := "/usr/local/var/xray";
     Cfg.AppDir := "/usr/local/var/xray/apps";
     Cfg.UnpackDir := "/tmp/unpacked_apks";
     Cfg.SockPath := "/var/run/apkScraper" |}.

End TestWorld.

(* ===================================================================== *)
(** * Notions used in the statements                                      *)
(* ===================================================================== *)

(** Tidy paths *)
Module pathSpec.
Import path.

(** A plain path element: not empty, without a slash, and neither [.]
    nor [..]. *)
Definition is_plain (s : list ascii) : bool :=
  forallb (fun c => negb (is_slash c)) s
  && match s with
     | [] => false
     | [c] => negb (is_dot c)
     | [c; c'] => negb (is_dot c && is_dot c')
     | _ => true
     end.

(** A tidy path: plain elements separated by single slashes, after an
    optional leading slash. *)
Inductive tidy : list ascii -> Prop :=
| tidy_root (s : list ascii) : is_plain s = true -> tidy (slash :: s)
| tidy_rel (s : list ascii) : is_plain s = true -> tidy s
| tidy_snoc (p s : list ascii) :
    tidy p -> is_plain s = true -> tidy (p ++ slash :: s).

Definition Plain (s : string) : Prop :=
  is_plain (list_ascii_of_string s) = true.
Definition Tidy (p : string) : Prop := tidy (list_ascii_of_string p).

(** The start of [Clean] on a path. *)
Definition rooted_of (p : list ascii) : bool :=
  match p with c :: _ => is_slash c | [] => false end.
Definition rout_of (p : list ascii) : list ascii :=
  if rooted_of p then [slash] else [].
Definition dotdot_of (p : list ascii) : nat :=
  if rooted_of p then 1%nat else 0%nat.

(** The separator [Clean] writes before a real element. *)
Definition sep_of (rooted : bool) (rout : list ascii) : list ascii :=
  if (rooted && negb (length rout =? 1)%nat)
     || (negb rooted && negb (length rout =? 0)%nat)
  then [slash] else [].

End pathSpec.

(** Statements about apps *)
Module AppSpec.

(** What the operating system promises: a temporary directory that was
    created has a name, and no directory with the empty name can be
    made. *)
Definition os_contract (env : Env) : Prop :=
  (forall tr dir prefix,
      (TempDir_ans env tr dir prefix).2 = None ->
      (TempDir_ans env tr dir prefix).1 <> "")
  /\ (forall tr, MkdirAll_ans env tr "" <> None).

(** The command line of the disassembler. *)
Definition apktool (apkPath outDir : string) : list string :=
  ["apktool"; "d"; "-s"; apkPath; "-o"; outDir; "-f"].

End AppSpec.

(** Statements about the HTTP client functions *)
Module HttpSpec.

(** What [net/http] promises of [client.Get]: without an error there is a
    response, and its body is not nil. *)
Definition http_contract (env : Env) : Prop :=
  forall tr url,
    match Get_ans env tr url with
    | (Some r, None) => Body r <> None
    | (None, None) => False
    | (_, Some _) => True
    end.

(** The body with handle [h] has been closed. *)
Definition closed (tr : list Event) (h : nat) : Prop := EvClose h ∈ tr.

(** The messages printed with [fmt.Printf] among some events. *)
Definition prints (tr : list Event) : list string :=
  omap (fun e => match e with EvPrint msg => Some msg | _ => None end) tr.

(** Of the results of the lookups, one per address, the decoded records
    of those without an error. *)
Definition successes (results : list (GeoIPInfo.t * option error))
  : list GeoIPInfo.t :=
  omap (fun r => match r.2 with None => Some r.1 | Some _ => None end) results.

(** The message printed for an address whose lookup failed. *)
Definition failure_message (addr : string) (err : error) : string :=
  "Couldn't lookup geoip info for " +:+ addr +:+ ": " +:+ Error err
  +:+ " " +:+ newline.

(** The messages for the addresses whose lookup failed. *)
Definition failures
    (results : list (string * (GeoIPInfo.t * option error))) : list string :=
  omap (fun r => match r.2.2 with
                 | Some err => Some (failure_message r.1 err)
                 | None => None
                 end) results.

End HttpSpec.

(** Statements about the mapper *)
Module mapperSpec.
Import mapper.

(** The requests sent and the errors logged among some events. *)
Definition requests (tr : list Event) : list Request :=
  omap (fun e => match e with EvDo req => Some req | _ => None end) tr.

Definition errors_logged (tr : list Event) : list string :=
  omap (fun e => match e with EvLogErr msg => Some msg | _ => None end) tr.

(** The answers that the requests among the events [tr] got, [tr]
    following the events [past]. *)
Fixpoint answers (env : Env) (past tr : list Event)
  : list (option Response * option error) :=
  match tr with
  | [] => []
  | e :: tr' =>
      match e with
      | EvDo req => [Do_ans env past req]
      | _ => []
      end ++ answers env (past ++ [e]) tr'
  end.

(** The request that [main] builds for the host names [hs]: all of them
    in one body. *)
Definition request_for (hs : list string) : Request :=
  {| Method := "POST"; URL := hosts_url;
     Header := [("Content-Type", "application/json")];
     ReqBody := {| TrackerMapperRequest.HostNames := hs |} |}.


(** A storage that holds the apps [ids] with the host names [hostnames]
    throughout the run. *)
Definition storage (env : Env) (ids : list Z)
    (hostnames : Z -> list string) : Prop :=
  (forall tr, (GetAppHostIDs_ans env tr).1 = ids)
  /\ (forall tr id,
        AppHostRecord.HostNames (GetAppHostsByID_ans env tr id).1
        = hostnames id).

(** The requests of a full pass over the apps [ids]. *)
Definition full_pass (ids : list Z) (hostnames : Z -> list string)
  : list Request :=
  flat_map (fun id => replicate (length (hostnames id))
                        (request_for (hostnames id))) ids.

End mapperSpec.

(** Names of apps *)
Module AppPathSpec.
Import pathSpec.

(** A name without a slash, as a string. *)
Definition NoSlash (s : string) : Prop :=
  forallb (fun c => negb (path.is_slash c)) (list_ascii_of_string s) = true.

(** An app that is named by its identity: no explicit path, plain
    identity fields, under a tidy base directory [base]. *)
Definition well_named (base : string) (app : App.t) : Prop :=
  App.Path app = "" /\ Tidy base /\ Plain (App.ID app)
  /\ Plain (App.Store app) /\ Plain (App.Region app) /\ Plain (App.Ver app).

End AppPathSpec.

(** Statements about unpacking and cleaning up *)
Module UnpackSpec.
Import util.

(** The directory that [OutDir] makes for an app without an explicit
    path. *)
Definition identity_dir (cfg : Cfg.t) (app : App.t) : string :=
  path.Join [Cfg.UnpackDir cfg; App.ID app; App.Store app; App.Region app;
             App.Ver app].

(** The message of [log.Fatal] in [OutDir]. *)
Definition fatal_message (dir : string) (err : error) : string :=
  "Failed to create temp dir in " +:+ dir +:+ ": " +:+ Error err.

(** The state after the events [evs]. *)
Definition after (st : State) (evs : list Event) : State :=
  {| trace := trace st ++ evs; deferred := deferred st |}.

End UnpackSpec.

(** More concrete worlds *)
Module TestWorldMore.
Import TestWorld.

(** [env] with other answers for making and touching directories. *)
Definition with_dirs (env : Env)
    (mkdir chtimes : list Event -> string -> option error) : Env :=
  {| Stat_ans := Stat_ans env;
     MkdirAll_ans := mkdir;
     Chtimes_ans := chtimes;
     TempDir_ans := TempDir_ans env;
     RemoveAll_ans := RemoveAll_ans env;
     CombinedOutput_ans := CombinedOutput_ans env;
     LookupHost_ans := LookupHost_ans env;
     Get_ans := Get_ans env;
     Do_ans := Do_ans env;
     NewRequest_ans := NewRequest_ans env;
     PathEscape := PathEscape env;
     DecodeGeoIP := DecodeGeoIP env;
     DecodeCompany := DecodeCompany env;
     GetAppHostIDs_ans := GetAppHostIDs_ans env;
     GetAppHostsByID_ans := GetAppHostsByID_ans env |}.

(** A world where the times of a directory cannot be set. *)
Definition env_not_owner : Env :=
  with_dirs (env_ok 200 "" [] [])
    (fun _ _ => None)
    (fun _ name => Some (PathError "chtimes" name EACCES)).

(** A world where [http.NewRequest] rejects the URL. *)
Definition env_bad_url (ids : list Z) (hostnames : list string) : Env :=
  let env := env_ok 200 "" ids hostnames in
  {| Stat_ans := Stat_ans env;
     MkdirAll_ans := MkdirAll_ans env;
     Chtimes_ans := Chtimes_ans env;
     TempDir_ans := TempDir_ans env;
     RemoveAll_ans := RemoveAll_ans env;
     CombinedOutput_ans := CombinedOutput_ans env;
     LookupHost_ans := LookupHost_ans env;
     Get_ans := Get_ans env;
     Do_ans := Do_ans env;
     NewRequest_ans := fun _ _ => Some (ErrorString "parse: invalid URL");
     PathEscape := PathEscape env;
     DecodeGeoIP := DecodeGeoIP env;
     DecodeCompany := DecodeCompany env;
     GetAppHostIDs_ans := GetAppHostIDs_ans env;
     GetAppHostsByID_ans := GetAppHostsByID_ans env |}.

(** A world where no directory can be made. *)
Definition env_read_only : Env :=
  with_dirs (env_ok 200 "" [] [])
    (fun _ name => Some (PathError "mkdir" name EACCES))
    (fun _ _ => None).

End TestWorldMore.

(** More statements about the HTTP client functions *)
Module HttpMoreSpec.
Import util.

(** The URLs of the GET requests among some events. *)
Definition gets (tr : list Event) : list string :=
  omap (fun e => match e with EvGet url => Some url | _ => None end) tr.

(** The bodies closed among some events. *)
Definition closes (tr : list Event) : list nat :=
  omap (fun e => match e with EvClose h => Some h | _ => None end) tr.

(** The URL that [GetHostGeoIP] asks for an address. *)
Definition geo_url (env : Env) (geoipHost addr : string) : string :=
  geoipHost +:+ "/" +:+ PathEscape env addr.

(** An answer of [client.Get] without an error and with status 200. *)
Definition answered_200 (ans : option Response * option error) : bool :=
  match ans with
  | (Some r, None) => bool_decide (StatusCode r = StatusOK)
  | _ => false
  end.

End HttpMoreSpec.

(** More statements about the mapper *)
Module mapperMoreSpec.
Import mapper mapperSpec HttpMoreSpec.

(** An answer of [client.Do] with a response that has a body. *)
Definition has_response (ans : option Response * option error) : Prop :=
  exists resp body, ans.1 = Some resp /\ Body resp = Some body.

(** Of the requests among the events [new] behind the events [past],
    the last one was not answered, and it is the first such. *)
Definition ended_at_unanswered (env : Env) (past new : list Event) : Prop :=
  exists prior ans,
    answers env past new = prior ++ [ans]
    /\ Forall has_response prior /\ ~ has_response ans.

(** How a part of [main] can end: returning after requests that were
    all answered, or in a panic right after a request that was not. *)
Definition answered_or_panic (env : Env) (m : IO unit) : Prop :=
  forall st, exists new dfr,
    let st' := {| trace := trace st ++ new; deferred := dfr |} in
    (m st = (Ret tt, st')
     /\ Forall has_response (answers env (trace st) new))
    \/ (m st = (Panic, st') /\ ended_at_unanswered env (trace st) new).



(** The message of the check behind [http.NewRequest]. *)
Definition forming_message : string :=
  "Error forming TrackerMapper API Request.".

End mapperMoreSpec.

(** Kinds of events *)
Module EventSpec.

(** Whatever state [m] starts in, the events it adds all satisfy [P]. *)
Definition emits_only {A} (P : Event -> Prop) (m : IO A) : Prop :=
  forall st, exists new,
    trace (m st).2 = trace st ++ new /\ Forall P new.

End EventSpec.

(** Two writers *)
Module jsonioSpec.
Import jsonio.

(** A [bytes.Buffer]: it appends, and never fails. *)
Definition buffer : Writer :=
  {| state := string;
     Write := fun buf p => (buf +:+ p, (Z.of_nat (String.length p), None)) |}.

(** A writer that fails every time with [err]; its state is the list of
    the writes that were tried. *)
Definition broken (err : error) : Writer :=
  {| state := list string;
     Write := fun tried p => (tried ++ [p], (0, Some err)) |}.

End jsonioSpec.

(** Statements about the configuration *)
Module configSpec.
Import config.

(** A setting that was given, or else its default. *)
Definition or_default (given default : string) : string :=
  if decide (given = "") then default else given.

(** The lines [Load] prints for a configuration. *)
Definition report (cfg : Config.t) : list string :=
  ["Config:" +:+ newline;
   tab +:+ "App directory: " +:+ Config.AppDir cfg +:+ newline;
   tab +:+ "Unpacked app directory: " +:+ Config.UnpackDir cfg +:+ newline;
   tab +:+ "Message socket path: " +:+ Config.SockPath cfg +:+ newline].

(** A configuration file that is read and decodes to the settings
    [datadir], [unpackdir] and [sockpath]. *)
Definition fs_ok (datadir unpackdir sockpath : string) : Files :=
  {| Open_ans := fun _ => (Some 3%nat, None);
     ReadAll_ans := fun _ => ("{}", None);
     Unmarshal := fun _ cfg =>
       (Config.set_SockPath
          (Config.set_UnpackDir (Config.set_DataDir cfg datadir) unpackdir)
          sockpath, None) |}.

End configSpec.

(** Statements about the transport of [net/http] *)
Module transportSpec.
Import mapper mapperSpec.

(** What [net/http] does with the request of [main]. [http.NewRequest]
    accepts the method [POST] and the URL of [main], which [url.Parse]
    reads as the scheme [localhost] before an opaque rest. The client
    [&http.Client{}] sends through the default transport, which knows
    the schemes [http] and [https] only: a request under another scheme
    gets no response, only the error of an unsupported protocol
    scheme. *)
Definition transport_contract (env : Env) : Prop :=
  NewRequest_ans env "POST" hosts_url = None
  /\ forall tr req,
       url.Scheme (URL req) <> "http" -> url.Scheme (URL req) <> "https" ->
       exists err, Do_ans env tr req = (None, Some err).

(** The message logged for an error of [client.Do]. *)
Definition client_message : string :=
  "Client Error issueing Tracker Mapper API request..".

(** The one character string of a double quote. *)
Definition quote : string := String "034"%char "".

(** The error of [client.Do] for a request under a scheme that the
    transport does not know. *)
Definition unsupported (req : Request) : error :=
  ErrorString ("Post " +:+ quote +:+ URL req +:+ quote
               +:+ ": unsupported protocol scheme "
               +:+ quote +:+ url.Scheme (URL req) +:+ quote).

(** A world with the transport of [net/http]: a request under [http] or
    [https] is answered with status 200 and the body [body], and any
    other request fails. The storage holds the apps [ids], each with
    the host names [hostnames]. *)
Definition env_net_http (body : string) (ids : list Z)
    (hostnames : list string) : Env :=
  TestWorld.with_net (TestWorld.env_ok 200 body ids hostnames)
    (fun _ _ => (["192.0.2.1"], None))
    (fun _ _ => (Some {| StatusCode := 200; Body := Some body |}, None))
    (fun _ req =>
       if decide (url.Scheme (URL req) = "http"
                  \/ url.Scheme (URL req) = "https")
       then (Some {| StatusCode := 200; Body := Some body |}, None)
       else (None, Some (unsupported req))).



End transportSpec.

(** Statements about the geolocation lookups *)
Module GeoSpec.
Import util HttpSpec.

(** The GET requests among the events [new] that follow the events
    [past]: the URL of each and the answer it got. *)
Fixpoint get_answers (env : Env) (past new : list Event)
  : list (string * (option Response * option error)) :=
  match new with
  | [] => []
  | e :: new' =>
      match e with
      | EvGet url => [(url, Get_ans env past url)]
      | _ => []
      end ++ get_answers env (past ++ [e]) new'
  end.

(** What an answer of the geolocation service is worth: the record that
    the body of an answer with status 200 decodes to, and else the
    error of the client, of the status or of the decoder. *)
Definition lookup_result (env : Env)
    (ans : option Response * option error) : GeoIPInfo.t * option error :=
  match ans with
  | (_, Some err) => (GeoIPInfo.zero, Some err)
  | (Some r, None) =>
      if decide (StatusCode r = StatusOK) then
        match Body r with
        | Some body => DecodeGeoIP env body GeoIPInfo.zero
        | None => (GeoIPInfo.zero, Some (ErrorString "no body"))
        end
      else (GeoIPInfo.zero,
            Some (ErrorString ("Got status " +:+ pretty (StatusCode r) +:+
                               " while attempting to get GeoIP data")))
  | (None, None) => (GeoIPInfo.zero, Some (ErrorString "no response"))
  end.

(** The results of the lookups among the events [new] after [past], one
    for each GET request. *)
Definition lookup_results (env : Env) (past new : list Event)
  : list (GeoIPInfo.t * option error) :=
  map (fun a => lookup_result env a.2) (get_answers env past new).

End GeoSpec.

Module pathExamples.

Example Clean_table :
  map path.Clean
    ["a/c"; "a//c"; "a/c/."; "a/c/b/.."; "/../a/c"; "/../a/b/../././/c";
     ""; "abc/def/../../.."; "../../abc"; "abc/def/../../../ghi"; "/";
     "abc/"; "//abc"; "abc/./../def"; "/abc/.."; "..a/.b/...";  "a/../.."]
  = ["a/c"; "a/c"; "a/c"; "a/c"; "/a/c"; "/a/c";
     "."; ".."; "../../abc"; "../ghi"; "/";
     "abc"; "/abc"; "def"; "/"; "..a/.b/..."; ".."].
Proof. vm_compute. reflexivity. Qed.

Example Join_table :
  map path.Join
    [["a"; "b"]; ["a"; ""]; [""; "b"]; ["/"; "a"]; ["a/"; "b"]; [""; ""];
     ["a"; "../b"]; []]
  = ["a/b"; "a"; "b"; "/a"; "a/b"; ""; "b"; ""].
Proof. vm_compute. reflexivity. Qed.

Example Dir_table :
  map path.Dir ["/a/b"; "a/b"; "/a"; "a"; ""; "/a/b/"; "/"]
  = ["/a"; "a"; "/"; "."; "."; "/a/b"; "/"].
Proof. vm_compute. reflexivity. Qed.

Example Base_table :
  map path.Base [""; "/"; "a/b"; "a/b/"; "////"; "abc"; "/x.apk"]
  = ["."; "/"; "b"; "b"; "/"; "abc"; "x.apk"].
Proof. vm_compute. reflexivity. Qed.

End pathExamples.

(* ===================================================================== *)
(** * Properties of SetOps                                                *)
(* ===================================================================== *)

Module SetOpsFacts.
Import SetOps.

Lemma len_app {A} (p s : list A) : len (p ++ s) = len p + len s.
Proof. unfold len. rewrite length_app. lia. Qed.

Lemma len_nonneg {A} (a : list A) : 0 <= len a.
Proof. unfold len. lia. Qed.

Lemma index_prefix {A} (p s : list A) (i : Z) (x : A) :
  0 <= i -> p !! Z.to_nat i = Some x -> index (p ++ s) i = Ret x.
Proof.
  intros Hi Hx. unfold index.
  pose proof (lookup_lt_Some _ _ _ Hx) as Hlt.
  rewrite decide_True by (rewrite len_app; unfold len; lia).
  by rewrite lookup_app_l, Hx.
Qed.

Lemma index_middle {A} (p s : list A) (y : A) :
  index (p ++ y :: s) (len p) = Ret y.
Proof.
  unfold index.
  rewrite decide_True by (rewrite len_app; unfold len; simpl; lia).
  unfold len. rewrite Nat2Z.id. by rewrite list_lookup_middle.
Qed.

Lemma store_middle {A} (p s : list A) (y v : A) :
  store (p ++ y :: s) (len p) v = Ret (p ++ v :: s).
Proof.
  unfold store.
  rewrite decide_True by (rewrite len_app; unfold len; simpl; lia).
  unfold len. rewrite Nat2Z.id.
  by rewrite insert_app_r_alt, Nat.sub_diag by lia.
Qed.

Lemma slice_to_app {A} (p s : list A) (n : nat) :
  (n <= length s)%nat ->
  slice_to (p ++ s) (len p + Z.of_nat n) = Ret (p ++ take n s).
Proof.
  intros Hn. unfold slice_to.
  rewrite decide_True by (rewrite len_app; unfold len; lia).
  unfold len. rewrite <- Nat2Z.inj_add, Nat2Z.id.
  by rewrite take_app_add.
Qed.

(** The last element of a non-empty slice, read through its index. *)
Lemma index_last {A} (p t : list A) (y : A) :
  exists al, index (p ++ y :: t) (len p + len t) = Ret al
    /\ (forall z, z ∈ take (length t) (al :: t) <-> z ∈ t).
Proof.
  destruct t as [|z t' _] using rev_ind.
  - exists y. split.
    + replace (len p + len []) with (len p) by (unfold len; simpl; lia).
      apply index_middle.
    + intros z. simpl. reflexivity.
  - exists z. split.
    + replace (p ++ y :: t' ++ [z]) with ((p ++ y :: t') ++ z :: [])
        by (rewrite <- app_assoc; reflexivity).
      replace (len p + len (t' ++ [z])) with (len (p ++ y :: t'))
        by (rewrite !len_app; unfold len; simpl; lia).
      apply index_middle.
    + intros w. rewrite length_app. simpl.
      replace (length t' + 1)%nat with (S (length t')) by lia.
      rewrite firstn_cons, take_app_length.
      rewrite elem_of_cons, elem_of_app, list_elem_of_singleton. tauto.
Qed.

Lemma Dedup_inner_unfold fuel i a length j :
  Dedup_inner fuel i a length j =
  if decide (j <= length) then
    match fuel with
    | O => OutOfFuel
    | S fuel =>
        ai ← index a i;
        aj ← index a j;
        if decide (ai = aj) then
          al ← index a length;
          a ← store a j al;
          a ← slice_to a length;
          Dedup_inner fuel i a (length - 1) (j - 1 + 1)
        else Dedup_inner fuel i a length (j + 1)
    end
  else Ret (a, length).
Proof. destruct fuel; reflexivity. Qed.

(** One pass of the inner loop over the part [s] of the slice that lies
    after the prefix [p]: the prefix is kept, every copy of [x = a[i]] is
    removed from [s], and nothing else is. *)
Lemma Dedup_inner_spec (n : nat) :
  forall (fuel : nat) (p s : list string) (i : Z) (x : string),
    (length s <= n)%nat -> (n <= fuel)%nat ->
    0 <= i -> p !! Z.to_nat i = Some x ->
    exists s',
      Dedup_inner fuel i (p ++ s) (len (p ++ s) - 1) (len p)
        = Ret (p ++ s', len (p ++ s') - 1)
      /\ (forall y, y ∈ s' <-> y ∈ s /\ y <> x)
      /\ (length s' <= length s)%nat
      /\ (x ∉ s -> s' = s).
Proof.
  induction n as [|n IH]; intros fuel p s i x Hs Hfuel Hi Hx.
  - destruct s; [|simpl in Hs; lia]. exists [].
    rewrite Dedup_inner_unfold.
    rewrite decide_False by (rewrite len_app; unfold len; simpl; lia).
    split; [done|]. split; [|split; [lia|done]].
    intros y. rewrite elem_of_nil. tauto.
  - destruct s as [|y t].
    { exists []. rewrite Dedup_inner_unfold.
      rewrite decide_False by (rewrite len_app; unfold len; simpl; lia).
      split; [done|]. split; [|split; [lia|done]].
      intros y. rewrite elem_of_nil. tauto. }
    simpl in Hs.
    destruct fuel as [|fuel]; [lia|].
    rewrite Dedup_inner_unfold.
    rewrite decide_True by (rewrite len_app; unfold len; simpl; lia).
    rewrite (index_prefix p (y :: t) i x Hi Hx). simpl.
    rewrite index_middle. simpl.
    destruct (decide (x = y)) as [->|Hne].
    + destruct (index_last p t y) as (al & Hal & Hset).
      replace (len (p ++ y :: t) - 1) with (len p + len t)
        by (rewrite len_app; unfold len; simpl; lia).
      rewrite Hal. simpl.
      rewrite store_middle. simpl.
      replace (len p + len t) with (len p + Z.of_nat (length t)) by reflexivity.
      rewrite (slice_to_app p (al :: t) (length t)) by (simpl; lia). simpl.
      set (s2 := take (length t) (al :: t)) in *.
      assert (Hs2 : length s2 = length t).
      { subst s2. rewrite length_take. simpl. lia. }
      destruct (IH fuel p s2 i y) as (s' & Hrun & Hmem & Hlen & _);
        [lia | lia | done | done |].
      exists s'.
      replace (len p + Z.of_nat (length t) - 1) with (len (p ++ s2) - 1)
        by (rewrite len_app; unfold len; lia).
      replace (len p - 1 + 1) with (len p) by lia.
      rewrite Hrun. split; [done|]. split; [|split].
      * intros z. rewrite Hmem, Hset, elem_of_cons. tauto.
      * simpl. lia.
      * intros Hnot. exfalso. apply Hnot. by left.
    + destruct (IH fuel (p ++ [y]) t i x) as (s' & Hrun & Hmem & Hlen & Hid);
        [lia | lia | done | |].
      { rewrite lookup_app_l; [done|]. by eapply lookup_lt_Some. }
      exists (y :: s').
      replace (len p + 1) with (len (p ++ [y]))
        by (rewrite len_app; unfold len; simpl; lia).
      replace (p ++ y :: t) with ((p ++ [y]) ++ t)
        by (rewrite <- app_assoc; reflexivity).
      rewrite Hrun.
      replace ((p ++ [y]) ++ s') with (p ++ y :: s')
        by (rewrite <- app_assoc; reflexivity).
      split; [done|]. split; [|split].
      * intros z. rewrite !elem_of_cons, Hmem. intuition congruence.
      * simpl. lia.
      * intros Hnot. rewrite Hid; [done|].
        intros Hin. apply Hnot. by right.
Qed.

Lemma Dedup_outer_unfold fuel a length i :
  Dedup_outer fuel a length i =
  if decide (i < length) then
    match fuel with
    | O => OutOfFuel
    | S fuel =>
        '(a, length) ← Dedup_inner (List.length a) i a length (i + 1);
        Dedup_outer fuel a length (i + 1)
    end
  else Ret a.
Proof. destruct fuel; reflexivity. Qed.

(** The outer loop, started at [i = len p] on [p ++ s], where the prefix
    [p] is already free of duplicates and shares no element with [s]. *)
Lemma Dedup_outer_spec (n : nat) :
  forall (fuel : nat) (p s : list string),
    (length s <= n)%nat -> (n <= fuel)%nat ->
    NoDup p -> (forall y, y ∈ p -> y ∉ s) ->
    exists r,
      Dedup_outer fuel (p ++ s) (len (p ++ s) - 1) (len p) = Ret r
      /\ NoDup r
      /\ (forall y, y ∈ r <-> y ∈ p ++ s)
      /\ (length r <= length (p ++ s))%nat
      /\ (NoDup s -> r = p ++ s).
Proof.
  induction n as [|n IH]; intros fuel p s Hs Hfuel Hp Hdisj.
  - destruct s; [|simpl in Hs; lia]. exists (p ++ []).
    rewrite Dedup_outer_unfold.
    rewrite decide_False by (rewrite len_app; unfold len; simpl; lia).
    rewrite app_nil_r. repeat split; auto.
  - rewrite Dedup_outer_unfold.
    destruct (decide (len p < len (p ++ s) - 1)) as [Hlt|Hge].
    + destruct s as [|x t];
        [rewrite len_app in Hlt; unfold len in Hlt; simpl in Hlt; lia|].
      simpl in Hs. destruct fuel as [|fuel]; [lia|].
      assert (Hxp : x ∉ p).
      { intros Hin. apply (Hdisj x Hin). by left. }
      destruct (Dedup_inner_spec (length t) (length ((p ++ [x]) ++ t))
                  (p ++ [x]) t (len p) x)
        as (t' & Hrun & Hmem & Hlen & Hid).
      { lia. }
      { rewrite !length_app. simpl. lia. }
      { apply len_nonneg. }
      { unfold len. rewrite Nat2Z.id. by rewrite list_lookup_middle. }
      replace (p ++ x :: t) with ((p ++ [x]) ++ t)
        by (rewrite <- app_assoc; reflexivity).
      replace (len p + 1) with (len (p ++ [x]))
        by (rewrite len_app; unfold len; simpl; lia).
      rewrite Hrun. simpl.
      destruct (IH fuel (p ++ [x]) t') as (r & Hr & Hnd & Hset & Hrlen & Hrid).
      { lia. }
      { lia. }
      { apply NoDup_app. split; [done|]. split; [|apply NoDup_singleton].
        intros y Hy Hyx. apply list_elem_of_singleton in Hyx. by subst. }
      { intros y Hy Hyt. apply Hmem in Hyt as [Hyt Hne].
        apply elem_of_app in Hy as [Hy|Hy].
        - apply (Hdisj y Hy). by right.
        - apply list_elem_of_singleton in Hy. done. }
      exists r. split; [done|]. split; [done|]. split; [|split].
      * intros y. rewrite Hset, !elem_of_app, Hmem, list_elem_of_singleton.
        destruct (decide (y = x)); intuition.
      * rewrite !length_app in *. simpl in *. lia.
      * intros Hnd'. apply NoDup_cons in Hnd' as [Hxt Hndt].
        rewrite (Hid Hxt) in Hrid. by apply Hrid.
    + exists (p ++ s). split; [done|].
      assert (Hs1 : (length s <= 1)%nat).
      { rewrite len_app in Hge. unfold len in Hge. lia. }
      split; [|split; [done|split;[done|done]]].
      apply NoDup_app. split; [done|]. split; [done|].
      destruct s as [|x [|y t]]; [apply NoDup_nil_2|apply NoDup_singleton|].
      simpl in Hs1. lia.
Qed.

(** Without duplicates in the slice, [Dedup_outer] changes nothing; this
    is the last component of [Dedup_outer_spec] at the empty prefix. *)
Lemma Dedup_spec (a : list string) :
  exists r,
    Dedup a = Ret r
    /\ NoDup r
    /\ (forall y, y ∈ r <-> y ∈ a)
    /\ (length r <= length a)%nat
    /\ (NoDup a -> r = a).
Proof.
  destruct (Dedup_outer_spec (length a) (length a) [] a)
    as (r & Hr & Hnd & Hset & Hlen & Hid).
  - lia.
  - lia.
  - apply NoDup_nil_2.
  - intros y Hy. by apply elem_of_nil in Hy.
  - exists r. unfold Dedup. simpl in *.
    replace (len a - 1) with (len ([] ++ a) - 1) by reflexivity.
    change 0 with (len (@nil string)).
    simpl in *. by rewrite Hr.
Qed.

(** C4. For every list of strings [a], [Dedup a] returns (it neither
    panics nor runs out of its loop budget) a list with the same set of
    elements as [a], at most as long as [a], and without duplicates. *)
Theorem Dedup_set_length_nodup (a : list string) :
  exists r,
    Dedup a = Ret r
    /\ (forall x, x ∈ r <-> x ∈ a)
    /\ (length r <= length a)%nat
    /\ NoDup r.
Proof.
  destruct (Dedup_spec a) as (r & Hr & Hnd & Hset & Hlen & _).
  exists r. auto.
Qed.

(** C5. [Dedup] is idempotent: [Dedup a] returns some [r], and [Dedup r]
    returns [r] again, so that [Dedup] applied to the result of [Dedup a]
    equals [Dedup a]. *)
Theorem Dedup_idempotent (a : list string) :
  exists r,
    Dedup a = Ret r
    /\ Dedup r = Ret r
    /\ (Dedup a ≫= Dedup) = Dedup a.
Proof.
  destruct (Dedup_spec a) as (r & Hr & Hnd & _).
  destruct (Dedup_spec r) as (r' & Hr' & _ & _ & _ & Hid).
  rewrite (Hid Hnd) in Hr'.
  exists r. rewrite Hr. simpl. auto.
Qed.

(** ** UniqAppend *)

Lemma fold_left_append {A} (a ret : list A) :
  fold_left (fun ret e => append ret e) a ret = ret ++ a.
Proof.
  revert ret. induction a as [|e a IH]; intros ret; simpl.
  - by rewrite app_nil_r.
  - rewrite IH. unfold append. by rewrite <- app_assoc.
Qed.

Lemma UniqAppend_add_spec (a : list string) (be : string) :
  UniqAppend_add a be = bool_decide (be ∉ a).
Proof.
  induction a as [|ae a IH]; [reflexivity|]. cbn [UniqAppend_add].
  destruct (decide (ae = be)) as [->|Hne].
  - rewrite bool_decide_eq_false_2; [done|]. intros H. apply H. by left.
  - rewrite IH. apply bool_decide_ext. rewrite elem_of_cons.
    intuition congruence.
Qed.

Lemma UniqAppend_loop (a b ret : list string) :
  fold_left
    (fun ret be => if UniqAppend_add a be then append ret be else ret) b ret
  = ret ++ filter (fun be => be ∉ a) b.
Proof.
  revert ret. induction b as [|be b IH]; intros ret; simpl.
  - by rewrite app_nil_r.
  - rewrite UniqAppend_add_spec, filter_cons.
    destruct (decide (be ∉ a)) as [Hn|Hn].
    + rewrite bool_decide_eq_true_2 by done. rewrite IH.
      unfold append. by rewrite <- app_assoc.
    + rewrite bool_decide_eq_false_2 by done. apply IH.
Qed.

(** [UniqAppend a b] is [a], then the elements of [b] that are not in
    [a], in the order of [b]. *)
Lemma UniqAppend_filter (a b : list string) :
  UniqAppend a b = a ++ filter (fun be => be ∉ a) b.
Proof.
  unfold UniqAppend. rewrite fold_left_append. apply UniqAppend_loop.
Qed.

(** The elements of a duplicate-free [b] that are in [a] are at most as
    many as the elements of [a]. *)
Lemma filter_in_length (a b : list string) :
  NoDup b -> (length (filter (fun be => be ∈ a) b) <= length a)%nat.
Proof.
  intros Hb. apply submseteq_length, NoDup_submseteq.
  - by apply NoDup_filter.
  - intros x Hx. by apply list_elem_of_filter in Hx as [Hx _].
Qed.

Lemma filter_split_length (a b : list string) :
  (length (filter (fun be => be ∈ a) b)
   + length (filter (fun be => be ∉ a) b) = length b)%nat.
Proof.
  induction b as [|be b IH]; [reflexivity|].
  rewrite !filter_cons.
  destruct (decide (be ∈ a)); destruct (decide (be ∉ a)); simpl; try lia.
  all: tauto.
Qed.

(** C3, as the code has it. For all lists of strings [a] and [b],
    [UniqAppend a b] is [a] followed by the elements of [b] that are not
    in [a], in the order of [b]; its elements are exactly those of [a]
    and of [b]; its length lies between [|a|] and [|a| + |b|]; and when
    [a] and [b] are each free of duplicates, so is the result, and its
    length is at least [max |a| |b|]. *)
Theorem UniqAppend_union (a b : list string) :
  UniqAppend a b = a ++ filter (fun be => be ∉ a) b
  /\ (forall x, x ∈ UniqAppend a b <-> x ∈ a \/ x ∈ b)
  /\ (length a <= length (UniqAppend a b) <= length a + length b)%nat
  /\ (NoDup a -> NoDup b ->
      NoDup (UniqAppend a b)
      /\ (Nat.max (length a) (length b) <= length (UniqAppend a b))%nat).
Proof.
  rewrite UniqAppend_filter. split; [done|]. split; [|split].
  - intros x. rewrite elem_of_app, list_elem_of_filter.
    destruct (decide (x ∈ a)); tauto.
  - rewrite length_app. pose proof (length_filter (fun be => be ∉ a) b). lia.
  - intros Ha Hb. split.
    + apply NoDup_app. split; [done|]. split; [|by apply NoDup_filter].
      intros x Hx Hx'. by apply list_elem_of_filter in Hx' as [Hx' _].
    + rewrite length_app.
      pose proof (filter_in_length a b Hb).
      pose proof (filter_split_length a b). lia.
Qed.

(** The theorem at two lists without duplicates. *)
Lemma UniqAppend_union_witness :
  NoDup ["a"; "b"] /\ NoDup ["b"; "c"]
  /\ NoDup (UniqAppend ["a"; "b"] ["b"; "c"])
  /\ (Nat.max (length ["a"; "b"]) (length ["b"; "c"])
      <= length (UniqAppend ["a"; "b"] ["b"; "c"]))%nat.
Proof.
  assert (Ha : NoDup ["a"; "b"]) by (apply (bool_decide_unpack _); vm_compute; exact I).
  assert (Hb : NoDup ["b"; "c"]) by (apply (bool_decide_unpack _); vm_compute; exact I).
  split; [exact Ha|]. split; [exact Hb|].
  exact (proj2 (proj2 (proj2 (UniqAppend_union ["a"; "b"] ["b"; "c"]))) Ha Hb).
Defined.

(** C3 as the specification words it fails twice: copies inside [a] or
    inside [b] stay, and a [b] with repeated elements of [a] gives a
    result shorter than [b]. *)
Lemma UniqAppend_not_unique :
  ~ NoDup (UniqAppend ["x"] ["y"; "y"])
  /\ ~ NoDup (UniqAppend ["x"; "x"] [])
  /\ (length (UniqAppend ["x"] ["x"; "x"])
      < Nat.max (length ["x"]) (length ["x"; "x"]))%nat.
Proof.
  split; [|split].
  - change (UniqAppend ["x"] ["y"; "y"]) with ["x"; "y"; "y"].
    intros H. apply NoDup_cons in H as [_ H].
    apply NoDup_cons in H as [H _]. apply H. by left.
  - change (UniqAppend ["x"; "x"] []) with ["x"; "x"].
    intros H. apply NoDup_cons in H as [H _]. apply H. by left.
  - vm_compute. lia.
Qed.

End SetOpsFacts.

(* ===================================================================== *)
(** * Properties of the path functions                                    *)
(* ===================================================================== *)

Module pathFacts.
Import path pathSpec.

Lemma is_plain_no_slash (s : list ascii) :
  is_plain s = true -> forallb (fun c => negb (is_slash c)) s = true.
Proof. unfold is_plain. intros H. by apply andb_prop in H as [H _]. Qed.

Lemma is_plain_cons (s : list ascii) :
  is_plain s = true -> exists c s', s = c :: s' /\ is_slash c = false.
Proof.
  intros H. destruct s as [|c s']; [done|].
  exists c, s'. split; [done|].
  apply is_plain_no_slash in H. simpl in H.
  apply andb_prop in H as [H _]. by destruct (is_slash c).
Qed.

Lemma is_slash_slash : is_slash slash = true.
Proof. reflexivity. Qed.

(** An empty element is skipped. *)
Lemma Clean_loop_skip_slash (rooted : bool) (dd : nat)
    (input rout : list ascii) :
  Clean_loop rooted false (slash :: input) rout dd
  = Clean_loop rooted false input rout dd.
Proof. reflexivity. Qed.

(** Inside an element the loop copies up to the next slash. *)
Lemma Clean_loop_copy (rooted : bool) (dd : nat) (s : list ascii) :
  forallb (fun c => negb (is_slash c)) s = true ->
  forall rest rout,
    Clean_loop rooted true (s ++ rest) rout dd
    = Clean_loop rooted true rest (rev s ++ rout) dd.
Proof.
  induction s as [|c s IH]; intros Hs rest rout; [done|].
  simpl in Hs. apply andb_prop in Hs as [Hc Hs].
  simpl. destruct (is_slash c); [done|].
  rewrite IH by done. by rewrite <- app_assoc.
Qed.

(** At the end of an element, copying or not makes no difference. *)
Lemma Clean_loop_copy_done (rooted : bool) (dd : nat) (rest rout : list ascii) :
  at_end_or_slash rest = true ->
  Clean_loop rooted true rest rout dd = Clean_loop rooted false rest rout dd.
Proof.
  destruct rest as [|c rest]; [done|]. simpl. intros ->. done.
Qed.

Lemma sep_of_cons (rooted : bool) (rout : list ascii) :
  (if (rooted && negb (length rout =? 1)%nat)
      || (negb rooted && negb (length rout =? 0)%nat)
   then slash :: rout else rout) = sep_of rooted rout ++ rout.
Proof.
  unfold sep_of.
  by destruct ((rooted && negb (length rout =? 1)%nat)
               || (negb rooted && negb (length rout =? 0)%nat)).
Qed.

(** The default case of the loop: an element that is neither empty, nor
    [.], nor [..] starts a copy. *)
Lemma Clean_loop_real (rooted : bool) (dd : nat) (c : ascii)
    (input rout : list ascii) :
  is_slash c = false ->
  is_dot c && at_end_or_slash input = false ->
  match input with
  | c' :: rest' => is_dot c && is_dot c' && at_end_or_slash rest' = false
  | [] => True
  end ->
  Clean_loop rooted false (c :: input) rout dd
  = Clean_loop rooted true input (c :: sep_of rooted rout ++ rout) dd.
Proof.
  intros Hc Hdot Hdotdot. cbn [Clean_loop]. rewrite Hc, Hdot.
  destruct input as [|c' rest'].
  - by rewrite sep_of_cons.
  - rewrite Hdotdot. by rewrite sep_of_cons.
Qed.

(** A plain element is copied to the output after its separator. *)
Lemma Clean_loop_plain (rooted : bool) (dd : nat) (s rest rout : list ascii) :
  is_plain s = true ->
  at_end_or_slash rest = true ->
  Clean_loop rooted false (s ++ rest) rout dd
  = Clean_loop rooted false rest (rev s ++ sep_of rooted rout ++ rout) dd.
Proof.
  intros Hs Hrest.
  pose proof (is_plain_no_slash s Hs) as Hns.
  destruct s as [|c s]; [done|].
  cbn [forallb] in Hns. apply andb_prop in Hns as [Hc Hns].
  apply negb_true_iff in Hc.
  assert (Hreal :
    Clean_loop rooted false (c :: s ++ rest) rout dd
    = Clean_loop rooted true (s ++ rest) (c :: sep_of rooted rout ++ rout) dd).
  { apply Clean_loop_real; [done| |].
    - destruct (is_dot c) eqn:Ed; [|done]. cbn [andb].
      destruct s as [|c' s].
      + unfold is_plain in Hs. cbn in Hs. rewrite Ed in Hs.
        by rewrite andb_false_r in Hs.
      + cbn [forallb] in Hns. apply andb_prop in Hns as [Hc' _].
        apply negb_true_iff in Hc'. exact Hc'.
    - destruct s as [|c' s].
      + destruct rest as [|r rest]; [done|]. cbn [app].
        cbn [at_end_or_slash] in Hrest.
        destruct (is_dot c) eqn:Ed; [|done]. cbn [andb].
        destruct (is_dot r) eqn:Edr; [|done].
        unfold is_slash in Hrest. unfold is_dot in Edr.
        apply Ascii.eqb_eq in Hrest, Edr. subst r. discriminate Edr.
      + cbn [app]. destruct (is_dot c) eqn:Ed; [|done].
        destruct (is_dot c') eqn:Ed'; [|done]. cbn [andb].
        cbn [forallb] in Hns. apply andb_prop in Hns as [Hc' Hns].
        destruct s as [|c'' s].
        * unfold is_plain in Hs. cbn in Hs. rewrite Ed, Ed' in Hs.
          by rewrite andb_false_r in Hs.
        * cbn [forallb] in Hns. apply andb_prop in Hns as [Hc'' _].
          apply negb_true_iff in Hc''. exact Hc''. }
  change ((c :: s) ++ rest) with (c :: s ++ rest).
  rewrite Hreal, Clean_loop_copy by done.
  rewrite Clean_loop_copy_done by done.
  simpl. by rewrite <- app_assoc.
Qed.

Lemma tidy_rooted_snoc (p s : list ascii) :
  p <> [] -> rooted_of (p ++ slash :: s) = rooted_of p.
Proof. by destruct p. Qed.

Lemma tidy_length (p : list ascii) :
  tidy p ->
  p <> [] /\ (if rooted_of p then 2 <= length p else 1 <= length p)%nat.
Proof.
  induction 1 as [s Hs|s Hs|p s Hp [Hne IH] Hs].
  - destruct (is_plain_cons s Hs) as (c & s' & -> & _). simpl. split; [done|lia].
  - destruct (is_plain_cons s Hs) as (c & s' & -> & Hc). simpl.
    rewrite Hc. split; [done|lia].
  - split; [by destruct p|]. rewrite tidy_rooted_snoc by done.
    rewrite length_app. simpl. destruct (rooted_of p); lia.
Qed.

(** [Clean]'s loop copies a tidy path as it is. *)
Lemma Clean_loop_tidy (p : list ascii) :
  tidy p ->
  forall rest,
    at_end_or_slash rest = true ->
    Clean_loop (rooted_of p) false (p ++ rest) (rout_of p) (dotdot_of p)
    = Clean_loop (rooted_of p) false rest (rev p) (dotdot_of p).
Proof.
  induction 1 as [s Hs|s Hs|p s Hp IH Hs]; intros rest Hrest.
  - unfold rout_of, dotdot_of. cbn [rooted_of]. rewrite is_slash_slash.
    change ((slash :: s) ++ rest) with (slash :: s ++ rest).
    rewrite Clean_loop_skip_slash, Clean_loop_plain by done. done.
  - destruct (is_plain_cons s Hs) as (c & s' & -> & Hc).
    unfold rout_of, dotdot_of. cbn [rooted_of]. rewrite Hc.
    rewrite Clean_loop_plain by done.
    unfold sep_of. simpl. by rewrite app_nil_r.
  - destruct (tidy_length p Hp) as [Hne Hlen].
    unfold rout_of, dotdot_of. rewrite tidy_rooted_snoc by done.
    rewrite <- app_assoc. simpl.
    fold (rout_of p). fold (dotdot_of p).
    rewrite IH by done.
    rewrite Clean_loop_skip_slash, Clean_loop_plain by done.
    assert (Hsep : sep_of (rooted_of p) (rev p) = [slash]).
    { unfold sep_of. rewrite length_rev.
      destruct (rooted_of p); simpl.
      - destruct (length p) as [|[|n]]; [lia|lia|done].
      - destruct (length p) as [|n]; [lia|done]. }
    rewrite Hsep, rev_app_distr. simpl. by rewrite <- !app_assoc.
Qed.

(** [Clean] leaves a tidy path as it is. *)
Lemma Clean_tidy (p : string) : Tidy p -> Clean p = p.
Proof.
  unfold Tidy. intros Hp.
  destruct (tidy_length _ Hp) as [Hne _].
  pose proof (Clean_loop_tidy _ Hp [] eq_refl) as Hloop.
  rewrite app_nil_r in Hloop. simpl in Hloop.
  unfold Clean.
  destruct (list_ascii_of_string p) as [|c l] eqn:Hl; [done|].
  unfold rooted_of, rout_of, dotdot_of in Hloop. cbn [rooted_of] in Hloop.
  assert (Hrun :
    Clean_loop (is_slash c) false (c :: l)
      (if is_slash c then [slash] else []) (if is_slash c then 1%nat else 0%nat)
    = rev (c :: l)).
  { exact Hloop. }
  rewrite Hrun.
  destruct (rev (c :: l)) as [|x r] eqn:Hr.
  { apply (f_equal (@length ascii)) in Hr. rewrite length_rev in Hr.
    simpl in Hr. lia. }
  rewrite <- Hr, rev_involutive, <- Hl.
  apply string_of_list_ascii_of_string.
Qed.

(** ** Strings and [Join] *)

Lemma append_assoc (a b c : string) : (a +:+ b) +:+ c = a +:+ b +:+ c.
Proof.
  induction a as [|x a IH]; [done|].
  change (String x ((a +:+ b) +:+ c) = String x (a +:+ b +:+ c)).
  by f_equal.
Qed.

Lemma list_ascii_of_string_append (a b : string) :
  list_ascii_of_string (a +:+ b)
  = list_ascii_of_string a ++ list_ascii_of_string b.
Proof.
  induction a as [|x a IH]; [done|].
  change (x :: list_ascii_of_string (a +:+ b)
          = x :: list_ascii_of_string a ++ list_ascii_of_string b).
  by f_equal.
Qed.

Lemma append_nonempty_l (a b : string) : a <> "" -> a +:+ b <> "".
Proof. by destruct a. Qed.

Lemma Plain_nonempty (s : string) : Plain s -> s <> "".
Proof. intros H ->. discriminate H. Qed.

Lemma Tidy_nonempty (p : string) : Tidy p -> p <> "".
Proof.
  intros H ->. apply tidy_length in H as [H _]. by apply H.
Qed.

Lemma Tidy_snoc (p s : string) :
  Tidy p -> Plain s -> Tidy (p +:+ "/" +:+ s).
Proof.
  unfold Tidy, Plain. intros Hp Hs.
  rewrite !list_ascii_of_string_append. by apply tidy_snoc.
Qed.

(** A plain name with a suffix without slashes, such as [.apk], is a
    plain name. *)
Lemma Plain_suffix (s suffix : string) :
  Plain s ->
  forallb (fun c => negb (is_slash c)) (list_ascii_of_string suffix) = true ->
  (2 <= String.length suffix)%nat ->
  Plain (s +:+ suffix).
Proof.
  unfold Plain. intros Hs Hsuf Hlen.
  rewrite list_ascii_of_string_append.
  pose proof (is_plain_no_slash _ Hs) as Hns.
  assert (Hl : (2 <= length (list_ascii_of_string suffix))%nat).
  { clear -Hlen. revert Hlen. generalize 2%nat as n.
    induction suffix as [|c suffix IH]; intros n; simpl; [done|].
    destruct n as [|n]; [lia|]. specialize (IH n). lia. }
  destruct (is_plain_cons _ Hs) as (c & s' & Heq & _).
  rewrite Heq in *. unfold is_plain.
  rewrite forallb_app, Hns, Hsuf.
  destruct (list_ascii_of_string suffix) as [|x [|y l]]; simpl in Hl; try lia.
  by destruct s' as [|? [|? ?]].
Qed.

(** [Join] of a tidy path and a plain name puts a slash between them. *)
Lemma Join_buf_cons (buf e : string) (elem : list string) :
  buf <> "" -> e <> "" ->
  Join_buf (e :: elem) buf = Join_buf elem (buf +:+ "/" +:+ e).
Proof.
  intros Hb He. cbn [Join_buf].
  rewrite decide_True by (by left). rewrite decide_True by done.
  by rewrite append_assoc.
Qed.

Lemma Join_buf_first (e : string) (elem : list string) :
  e <> "" -> Join_buf (e :: elem) "" = Join_buf elem e.
Proof.
  intros He. cbn [Join_buf].
  rewrite decide_True by (by right). by rewrite decide_False by (by intros H).
Qed.

Lemma Join_two (p s : string) :
  Tidy p -> Plain s -> Join [p; s] = p +:+ "/" +:+ s.
Proof.
  intros Hp Hs. unfold Join.
  rewrite Join_buf_first by (by apply Tidy_nonempty).
  rewrite Join_buf_cons;
    [|by apply Tidy_nonempty|by apply Plain_nonempty].
  cbn [Join_buf].
  rewrite decide_False by (by apply append_nonempty_l, Tidy_nonempty).
  by apply Clean_tidy, Tidy_snoc.
Qed.

(** [Join] never returns the empty string, unless all elements are. *)
Lemma Clean_nonempty (p : string) : Clean p <> "".
Proof.
  unfold Clean. destruct (list_ascii_of_string p) as [|c l]; [done|].
  destruct (Clean_loop _ _ _ _ _) as [|x r] eqn:Hr; [done|].
  intros H. apply (f_equal list_ascii_of_string) in H.
  rewrite list_ascii_of_string_of_list_ascii in H. simpl in H.
  by apply app_eq_nil in H as [_ H].
Qed.

End pathFacts.

(* ===================================================================== *)
(** * Running a computation step by step                                  *)
(* ===================================================================== *)

Module WorldFacts.

Lemma run_bind {A B} (m : IO A) (k : A -> IO B) st x st' :
  m st = (Ret x, st') -> (m ≫= k) st = k x st'.
Proof. intros H. unfold mbind, IO_bind. by rewrite H. Qed.

Lemma run_bind_panic {A B} (m : IO A) (k : A -> IO B) st st' :
  m st = (Panic, st') -> (m ≫= k) st = (Panic, st').
Proof. intros H. unfold mbind, IO_bind. by rewrite H. Qed.

Lemma run_call {A B} (ans : list Event -> A) (e : Event) (k : A -> IO B) st :
  (call ans e ≫= k) st
  = k (ans (trace st))
      {| trace := trace st ++ [e]; deferred := deferred st |}.
Proof. reflexivity. Qed.

Lemma run_emit {B} (e : Event) (k : unit -> IO B) st :
  (emit e ≫= k) st
  = k tt {| trace := trace st ++ [e]; deferred := deferred st |}.
Proof. reflexivity. Qed.

Lemma run_ret {A} (x : A) st : (mret x : IO A) st = (Ret x, st).
Proof. reflexivity. Qed.

Lemma run_ret_bind {A B} (x : A) (k : A -> IO B) st :
  ((mret x : IO A) ≫= k) st = k x st.
Proof. reflexivity. Qed.

End WorldFacts.

(* ===================================================================== *)
(** * Properties of the app paths and of unpacking                        *)
(* ===================================================================== *)

Module AppFacts.
Import util pathSpec AppSpec pathFacts WorldFacts.

Lemma Tidy_root (s : string) : Plain s -> Tidy ("/" +:+ s).
Proof. unfold Tidy, Plain. intros Hs. by apply tidy_root. Qed.

(** [Join] of a tidy path and four plain names. *)
Lemma Join_five (base a b c d : string) :
  Tidy base -> Plain a -> Plain b -> Plain c -> Plain d ->
  path.Join [base; a; b; c; d]
  = base +:+ "/" +:+ a +:+ "/" +:+ b +:+ "/" +:+ c +:+ "/" +:+ d
  /\ Tidy (base +:+ "/" +:+ a +:+ "/" +:+ b +:+ "/" +:+ c +:+ "/" +:+ d).
Proof.
  intros Hbase Ha Hb Hc Hd.
  pose proof (Tidy_snoc _ _ Hbase Ha) as H1.
  pose proof (Tidy_snoc _ _ H1 Hb) as H2.
  pose proof (Tidy_snoc _ _ H2 Hc) as H3.
  pose proof (Tidy_snoc _ _ H3 Hd) as H4.
  assert (Heq :
    (((base +:+ "/" +:+ a) +:+ "/" +:+ b) +:+ "/" +:+ c) +:+ "/" +:+ d
    = base +:+ "/" +:+ a +:+ "/" +:+ b +:+ "/" +:+ c +:+ "/" +:+ d).
  { by rewrite !append_assoc. }
  rewrite <- Heq. split; [|done].
  unfold path.Join.
  rewrite Join_buf_first by (by apply Tidy_nonempty).
  rewrite Join_buf_cons; [|by apply Tidy_nonempty|by apply Plain_nonempty].
  rewrite Join_buf_cons; [|by apply Tidy_nonempty|by apply Plain_nonempty].
  rewrite Join_buf_cons; [|by apply Tidy_nonempty|by apply Plain_nonempty].
  rewrite Join_buf_cons; [|by apply Tidy_nonempty|by apply Plain_nonempty].
  cbn [path.Join_buf].
  rewrite decide_False by (by apply Tidy_nonempty).
  by apply Clean_tidy.
Qed.

(** C6. [ApkPath] is a function of the configuration and the app alone
    (it has no effect and no failure). With an explicit, non-empty
    [Path] it returns that path unchanged. Without one it returns
    [Join(Join(base, id, store, region, version), id + ".apk")], which for
    a tidy base directory and plain identity fields is the string
    [base/id/store/region/version/id.apk]. *)
Theorem ApkPath_explicit_or_composed (cfg : Cfg.t) (app : App.t) :
  (App.Path app <> "" -> ApkPath cfg app = App.Path app)
  /\ (App.Path app = "" ->
      ApkPath cfg app
      = path.Join [path.Join [Cfg.AppDir cfg; App.ID app; App.Store app;
                              App.Region app; App.Ver app];
                   App.ID app +:+ ".apk"])
  /\ (App.Path app = "" ->
      Tidy (Cfg.AppDir cfg) -> Plain (App.ID app) -> Plain (App.Store app) ->
      Plain (App.Region app) -> Plain (App.Ver app) ->
      ApkPath cfg app
      = Cfg.AppDir cfg +:+ "/" +:+ App.ID app +:+ "/" +:+ App.Store app
        +:+ "/" +:+ App.Region app +:+ "/" +:+ App.Ver app
        +:+ "/" +:+ App.ID app +:+ ".apk").
Proof.
  unfold ApkPath, AppDir. split; [|split].
  - intros Hp. by rewrite decide_True.
  - intros Hp. by rewrite !decide_False by (by intros H).
  - intros Hp Hbase Hid Hstore Hregion Hver.
    rewrite !decide_False by (by intros H).
    destruct (Join_five _ _ _ _ _ Hbase Hid Hstore Hregion Hver) as [-> Ht].
    rewrite Join_two; [|done|].
    + by rewrite !append_assoc.
    + apply Plain_suffix; [done|reflexivity|simpl; lia].
Qed.

Lemma Tidy_test_AppDir : Tidy (Cfg.AppDir TestWorld.cfg).
Proof.
  change (Cfg.AppDir TestWorld.cfg)
    with ((((("/" +:+ "usr") +:+ "/" +:+ "local") +:+ "/" +:+ "var")
           +:+ "/" +:+ "xray") +:+ "/" +:+ "apps").
  repeat (apply Tidy_snoc; [|reflexivity]). by apply Tidy_root.
Defined.

(** The theorem at an app given by its path and at an app given by its
    identity. *)
Lemma ApkPath_explicit_or_composed_witness :
  ApkPath TestWorld.cfg (AppByPath "/data/in/x.apk") = "/data/in/x.apk"
  /\ ApkPath TestWorld.cfg (NewApp 7 "com.example.app" "play" "uk" "1.2.3")
     = "/usr/local/var/xray/apps/com.example.app/play/uk/1.2.3/com.example.app.apk".
Proof.
  split.
  - apply (proj1 (ApkPath_explicit_or_composed TestWorld.cfg
                    (AppByPath "/data/in/x.apk"))).
    discriminate.
  - apply (proj2 (proj2 (ApkPath_explicit_or_composed TestWorld.cfg
                    (NewApp 7 "com.example.app" "play" "uk" "1.2.3")))).
    + reflexivity.
    + exact Tidy_test_AppDir.
    + reflexivity.
    + reflexivity.
    + reflexivity.
    + reflexivity.
Defined.

(** ** OutDir *)

(** With a recorded directory [OutDir] returns it, without any effect. *)
Lemma OutDir_recorded env cfg app st :
  App.UnpackDir app <> "" ->
  OutDir env cfg app st = (Ret (App.UnpackDir app, app), st).
Proof. intros H. unfold OutDir. by rewrite decide_False. Qed.

(** [OutDir] returns or exits through [log.Fatal]; it does nothing
    else. *)
Lemma OutDir_returns_or_exits env cfg app st :
  (exists d app' st', OutDir env cfg app st = (Ret (d, app'), st'))
  \/ (exists st', OutDir env cfg app st = (Exit 1, st')).
Proof.
  unfold OutDir. destruct (decide (App.UnpackDir app = "")); [|by left; eauto].
  destruct (decide (App.Path app <> "")).
  - unfold mbind, IO_bind, call. cbn.
    destruct (TempDir_ans env (trace st) _ _) as [dir [err|]]; cbn; eauto.
  - unfold mbind, IO_bind, call. cbn.
    destruct (MkdirAll_ans env (trace st) _) as [err|]; cbn; eauto.
Qed.


Lemma os_contract_env_ok status body ids hostnames :
  os_contract (TestWorld.env_ok status body ids hostnames).
Proof.
  split.
  - intros tr dir prefix _. discriminate.
  - intros tr. discriminate.
Defined.


(** ** Unpack *)

(** C8. Let [OutDir] return [outDir] at the start of [Unpack]. If
    [os.Stat] of the package file fails with a not-exist error, [Unpack]
    returns that very error. If it fails with another error, [Unpack]
    returns an error of another kind: it is not a not-exist error, and
    its message is "couldn't open apk <path>: <cause>". If the file is there,
    the parent directory can be made and touched, and the disassembler
    ends with an error (a non-zero exit), [Unpack] returns an error whose
    message ends with the combined output of the disassembler. *)
Theorem Unpack_error_kinds env cfg app st outDir app1 st1 :
  OutDir env cfg app st = (Ret (outDir, app1), st1) ->
  let apkPath := ApkPath cfg app in
  let dir := path.Dir outDir in
  let tr1 := trace st1 in
  let tr2 := tr1 ++ [EvStat apkPath] in
  let tr3 := tr2 ++ [EvMkdirAll dir] in
  let tr4 := tr3 ++ [EvChtimes dir] in
  (forall err,
      Stat_ans env tr1 apkPath = Some err -> IsNotExist err = true ->
      (Unpack env cfg app st).1 = Ret (Some err, app1))
  /\ (forall err,
      Stat_ans env tr1 apkPath = Some err -> IsNotExist err = false ->
      let err' := ErrorString ("couldn't open apk " +:+ apkPath +:+ ": "
                               +:+ Error err) in
      (Unpack env cfg app st).1 = Ret (Some err', app1)
      /\ IsNotExist err' = false)
  /\ (forall out err,
      Stat_ans env tr1 apkPath = None ->
      MkdirAll_ans env tr2 dir = None ->
      Chtimes_ans env tr3 dir = None ->
      CombinedOutput_ans env tr4 (apktool apkPath outDir) = (out, Some err) ->
      (Unpack env cfg app st).1
      = Ret (Some (ErrorString (Error err +:+ " unpacking apk; output below:"
                                +:+ newline +:+ out)), app1)).
Proof.
  intros Hout apkPath dir tr1 tr2 tr3 tr4.
  unfold Unpack. fold apkPath.
  rewrite (run_bind _ _ _ _ _ Hout). rewrite run_call. fold tr1.
  split; [|split].
  - intros err Hstat Hne. by rewrite Hstat, Hne.
  - intros err Hstat Hne. rewrite Hstat, Hne.
    split; done.
  - intros out err Hstat Hmk Hch Hexec. rewrite Hstat.
    rewrite run_call. cbn [trace]. fold dir tr2. rewrite Hmk.
    rewrite run_call. cbn [trace]. fold tr3. rewrite Hch.
    rewrite run_call. cbn [trace]. fold tr4.
    fold (apktool apkPath outDir). by rewrite Hexec.
Qed.

(** The theorem in three worlds: the package file is missing, it cannot
    be examined, and the disassembler fails. *)
Lemma Unpack_error_kinds_witness :
  let app := NewApp 7 "com.example.app" "play" "uk" "1.2.3" in
  let d := "/tmp/unpacked_apks/com.example.app/play/uk/1.2.3" in
  let app' := App.set_UnpackDir app d in
  let apk := ApkPath TestWorld.cfg app in
  (Unpack TestWorld.env_missing TestWorld.cfg app start).1
  = Ret (Some (PathError "stat" apk ENOENT), app')
  /\ (Unpack TestWorld.env_denied TestWorld.cfg app start).1
     = Ret (Some (ErrorString
                    ("couldn't open apk " +:+ apk +:+ ": stat " +:+ apk
                     +:+ ": permission denied")), app')
  /\ (Unpack TestWorld.env_apktool_fails TestWorld.cfg app start).1
     = Ret (Some (ErrorString
                    ("exit status 1 unpacking apk; output below:" +:+ newline
                     +:+ "brut.androlib.AndrolibException")), app').
Proof.
  intros app d app' apk.
  set (st1 := {| trace := [EvMkdirAll d]; deferred := [] |}).
  split; [|split].
  - assert (Hout : OutDir TestWorld.env_missing TestWorld.cfg app start
                   = (Ret (d, app'), st1)) by (vm_compute; reflexivity).
    exact (proj1 (Unpack_error_kinds _ _ _ _ _ _ _ Hout)
             (PathError "stat" apk ENOENT) eq_refl eq_refl).
  - assert (Hout : OutDir TestWorld.env_denied TestWorld.cfg app start
                   = (Ret (d, app'), st1)) by (vm_compute; reflexivity).
    exact (proj1 (proj1 (proj2 (Unpack_error_kinds _ _ _ _ _ _ _ Hout))
                    (PathError "stat" apk EACCES) eq_refl eq_refl)).
  - assert (Hout : OutDir TestWorld.env_apktool_fails TestWorld.cfg app start
                   = (Ret (d, app'), st1)) by (vm_compute; reflexivity).
    exact (proj2 (proj2 (Unpack_error_kinds _ _ _ _ _ _ _ Hout))
             "brut.androlib.AndrolibException" (ExitError 1)
             eq_refl eq_refl eq_refl eq_refl).
Defined.

End AppFacts.

(* ===================================================================== *)
(** * Properties of the HTTP client functions                             *)
(* ===================================================================== *)

Module HttpFacts.
Import util HttpSpec HttpMoreSpec GeoSpec.

(** On status 200 the body is closed before [GetJSON] returns, whether
    the decoder fails or not. *)
Lemma GetJSON_200_closes {T} env (dec : string -> T -> T * option error)
    url target st r body :
  Get_ans env (trace st) url = (Some r, None) ->
  StatusCode r = StatusOK ->
  Body r = Some body ->
  GetJSON env dec url target st =
    (Ret (dec body target),
     {| trace := trace st ++ [EvGet url; EvClose (length (trace st))];
        deferred := deferred st |}).
Proof.
  intros Hget Hst Hbody. unfold GetJSON, func, mbind, IO_bind, call. simpl.
  rewrite Hget. simpl.
  rewrite decide_False by (intros H; by apply H).
  rewrite Hbody. simpl. unfold run_deferred. simpl.
  by rewrite <- app_assoc.
Qed.

(** On any other status [GetJSON] returns before its [defer]: the
    response is left open. *)
Lemma GetJSON_status_returns_early {T} env
    (dec : string -> T -> T * option error) url target st r :
  Get_ans env (trace st) url = (Some r, None) ->
  StatusCode r <> StatusOK ->
  GetJSON env dec url target st =
    (Ret (target,
          Some (ErrorString ("Got status " +:+ pretty (StatusCode r) +:+
                             " while attempting to get GeoIP data"))),
     {| trace := trace st ++ [EvGet url]; deferred := deferred st |}).
Proof.
  intros Hget Hst. unfold GetJSON, func, mbind, IO_bind, call. simpl.
  rewrite Hget. simpl.
  rewrite decide_True by done. simpl. unfold run_deferred. simpl.
  by rewrite app_nil_r.
Qed.

(** A connection error: no response was obtained, nothing is to close. *)
Lemma GetJSON_error {T} env (dec : string -> T -> T * option error)
    url target st r err :
  Get_ans env (trace st) url = (r, Some err) ->
  GetJSON env dec url target st =
    (Ret (target, Some err),
     {| trace := trace st ++ [EvGet url]; deferred := deferred st |}).
Proof.
  intros Hget. unfold GetJSON, func, mbind, IO_bind, call. simpl.
  rewrite Hget. simpl. unfold run_deferred. simpl.
  by rewrite app_nil_r.
Qed.

(** C9, at a failing input. The geolocation service answers status 404
    with a body: [GetJSON] returns the status error, the only event is
    the request, and the body it obtained (handle 0) was not closed. *)
Theorem GetJSON_non200_leaves_body_open :
  let env := TestWorld.env_ok 404 "not found" [] [] in
  let url := "http://geoip/192.0.2.1" in
  exists st',
    GetJSON env (DecodeGeoIP env) url GeoIPInfo.zero start =
      (Ret (GeoIPInfo.zero,
            Some (ErrorString
                    "Got status 404 while attempting to get GeoIP data")),
       st')
    /\ trace st' = [EvGet url]
    /\ ~ closed (trace st') 0.
Proof.
  eexists. split; [vm_compute; reflexivity|]. split; [reflexivity|].
  unfold closed. simpl. intros H.
  apply list_elem_of_singleton in H. discriminate H.
Qed.

(** ** GetHostGeoIP *)

Lemma successes_length (results : list (GeoIPInfo.t * option error)) :
  (length (successes results) <= length results)%nat.
Proof.
  induction results as [|[inf [err|]] results IH]; simpl; lia.
Qed.

Lemma prints_app (tr1 tr2 : list Event) :
  prints (tr1 ++ tr2) = prints tr1 ++ prints tr2.
Proof. unfold prints. apply omap_app. Qed.

(** With a client that keeps its promises [GetJSON] never panics; it
    prints nothing and leaves the caller's deferred calls alone. *)
Lemma GetJSON_returns {T} env (dec : string -> T -> T * option error)
    url target st :
  http_contract env ->
  exists res new,
    GetJSON env dec url target st =
      (Ret res, {| trace := trace st ++ new; deferred := deferred st |})
    /\ prints new = [].
Proof.
  intros Hc. specialize (Hc (trace st) url).
  destruct (Get_ans env (trace st) url) as [r [err|]] eqn:Hget.
  - eexists _, _. split; [by eapply GetJSON_error|done].
  - destruct r as [r|]; [|done].
    destruct (decide (StatusCode r = StatusOK)) as [Hst|Hst].
    + destruct (Body r) as [body|] eqn:Hbody; [|done].
      eexists _, _. split; [by eapply GetJSON_200_closes|done].
    + eexists _, _. split; [by eapply GetJSON_status_returns_early|done].
Qed.

Lemma get_answers_app env past new1 new2 :
  get_answers env past (new1 ++ new2)
  = get_answers env past new1 ++ get_answers env (past ++ new1) new2.
Proof.
  revert past. induction new1 as [|e new1 IH]; intros past; simpl.
  - by rewrite app_nil_r.
  - rewrite IH, <- !app_assoc. reflexivity.
Qed.

Lemma lookup_results_app env past new1 new2 :
  lookup_results env past (new1 ++ new2)
  = lookup_results env past new1 ++ lookup_results env (past ++ new1) new2.
Proof. unfold lookup_results. by rewrite get_answers_app, map_app. Qed.

(** One lookup with a client that keeps its promises: [GetJSON] sends
    one GET, returns what the answer is worth, and prints nothing. *)
Lemma GetJSON_lookup env url st :
  http_contract env ->
  exists new,
    GetJSON env (DecodeGeoIP env) url GeoIPInfo.zero st =
      (Ret (lookup_result env (Get_ans env (trace st) url)),
       {| trace := trace st ++ new; deferred := deferred st |})
    /\ get_answers env (trace st) new = [(url, Get_ans env (trace st) url)]
    /\ prints new = [].
Proof.
  intros Hc. specialize (Hc (trace st) url). unfold lookup_result.
  destruct (Get_ans env (trace st) url) as [r [err|]] eqn:Hget.
  - exists [EvGet url]. split.
    { destruct r; by eapply GetJSON_error. }
    split; [|done]. simpl. by rewrite Hget.
  - destruct r as [r|]; [|done].
    destruct (decide (StatusCode r = StatusOK)) as [Hst|Hst].
    + destruct (Body r) as [body|] eqn:Hbody; [|done].
      exists [EvGet url; EvClose (length (trace st))].
      split; [by eapply GetJSON_200_closes|].
      split; [|done]. simpl. by rewrite Hget.
    + exists [EvGet url].
      split; [by eapply GetJSON_status_returns_early|].
      split; [|done]. simpl. by rewrite Hget.
Qed.

(** The loop over the addresses: one GET for each address, in their
    order; the records of the lookups without an error are appended to
    [ret], and a message is printed for each of the others. *)
Lemma GetHostGeoIP_loop_lookups env geoipHost :
  http_contract env ->
  forall (addrs : list string) (ret : list GeoIPInfo.t) (st : State),
  exists new,
    GetHostGeoIP_loop env geoipHost addrs ret st =
      (Ret (ret ++ successes (lookup_results env (trace st) new)),
       {| trace := trace st ++ new; deferred := deferred st |})
    /\ map fst (get_answers env (trace st) new)
       = map (geo_url env geoipHost) addrs
    /\ prints new = failures (zip addrs (lookup_results env (trace st) new)).
Proof.
  intros Hc addrs. induction addrs as [|addr addrs IH]; intros ret st.
  - exists []. split; [|done].
    simpl. rewrite !app_nil_r. by destruct st.
  - destruct (GetJSON_lookup env (geo_url env geoipHost addr) st Hc)
      as (new1 & Hrun & Hans & Hp1).
    assert (Hres : lookup_results env (trace st) new1
                   = [lookup_result env
                        (Get_ans env (trace st) (geo_url env geoipHost addr))])
      by (unfold lookup_results; by rewrite Hans).
    cbn [GetHostGeoIP_loop]. unfold mbind, IO_bind at 1.
    change (geoipHost +:+ "/" +:+ PathEscape env addr)
      with (geo_url env geoipHost addr).
    rewrite Hrun.
    destruct (lookup_result env
                (Get_ans env (trace st) (geo_url env geoipHost addr)))
      as [inf [err|]] eqn:Hlook.
    + set (msg := EvPrint (failure_message addr err)).
      set (st1 := {| trace := (trace st ++ new1) ++ [msg];
                     deferred := deferred st |}).
      destruct (IH ret st1) as (new & Hloop & Hurls & Hp).
      exists (new1 ++ [msg] ++ new).
      assert (Hall : lookup_results env (trace st) (new1 ++ [msg] ++ new)
                     = (inf, Some err)
                       :: lookup_results env (trace st1) new).
      { rewrite lookup_results_app, Hres.
        rewrite (lookup_results_app env _ [msg]). reflexivity. }
      split; [|split].
      * rewrite Hall. unfold mbind, IO_bind, emit. simpl.
        change ("Couldn't lookup geoip info for " +:+ addr +:+ ": "
                +:+ Error err +:+ " " +:+ newline)
          with (failure_message addr err).
        fold msg. fold st1. rewrite Hloop. subst st1. simpl.
        by rewrite <- !app_assoc.
      * rewrite get_answers_app, Hans, (get_answers_app env _ [msg]).
        simpl. by rewrite <- Hurls.
      * rewrite Hall, !prints_app, Hp1, Hp. reflexivity.
    + set (st1 := {| trace := trace st ++ new1; deferred := deferred st |}).
      destruct (IH (append ret inf) st1) as (new & Hloop & Hurls & Hp).
      exists (new1 ++ new).
      assert (Hall : lookup_results env (trace st) (new1 ++ new)
                     = (inf, None) :: lookup_results env (trace st1) new).
      { by rewrite lookup_results_app, Hres. }
      split; [|split].
      * rewrite Hall. fold st1. rewrite Hloop. subst st1. unfold append.
        simpl. by rewrite <- !app_assoc.
      * rewrite get_answers_app, Hans. simpl. by rewrite <- Hurls.
      * rewrite Hall, prints_app, Hp1, Hp. reflexivity.
Qed.

(** C10. When the DNS resolution of [host] fails, [GetHostGeoIP] returns
    a nil list together with the DNS error, and asks the geolocation
    service nothing. When it succeeds with the addresses [addrs], the
    call sends one GET for each address, in their order, and returns,
    together with a nil error, exactly the records of the lookups
    without an error, in the order of the addresses: a record is the
    one that the body of an answer with status 200 decodes to, and an
    address whose request failed, was answered with another status or
    with a body that does not decode is left out and printed. *)
Theorem GetHostGeoIP_total_and_partial env geoipHost host st :
  http_contract env ->
  match LookupHost_ans env (trace st) host with
  | (_, Some err) =>
      GetHostGeoIP env geoipHost host st =
        (Ret (None, Some err),
         {| trace := trace st ++ [EvLookupHost host];
            deferred := deferred st |})
  | (addrs, None) =>
      exists new,
        let past := trace st ++ [EvLookupHost host] in
        let results := lookup_results env past new in
        GetHostGeoIP env geoipHost host st =
          (Ret (Some (successes results), None),
           {| trace := past ++ new; deferred := deferred st |})
        /\ map fst (get_answers env past new)
           = map (geo_url env geoipHost) addrs
        /\ prints new = failures (zip addrs results)
        /\ (length (successes results) <= length addrs)%nat
  end.
Proof.
  intros Hc. unfold GetHostGeoIP, mbind, IO_bind, call.
  destruct (LookupHost_ans env (trace st) host) as [addrs [err|]]; [done|].
  set (st1 := {| trace := trace st ++ [EvLookupHost host];
                 deferred := deferred st |}).
  destruct (GetHostGeoIP_loop_lookups env geoipHost Hc addrs [] st1)
    as (new & Hloop & Hurls & Hp).
  exists new. cbn zeta. rewrite Hloop. subst st1. cbn [trace deferred] in *.
  split; [done|]. split; [done|]. split; [done|].
  etrans; [apply successes_length|].
  unfold lookup_results. rewrite length_map.
  rewrite <- (length_map fst), Hurls. by rewrite length_map.
Qed.

(** The theorem in a world where [nx.invalid] does not resolve, and
    where [y.com] has two addresses, of which the geolocation service
    answers for the first and refuses the connection for the second:
    the one record of the first address is returned, without an
    error. *)
Lemma GetHostGeoIP_total_and_partial_witness :
  http_contract TestWorld.env_geo
  /\ GetHostGeoIP TestWorld.env_geo "http://geoip" "nx.invalid" start =
       (Ret (None, Some (ErrorString "lookup nx.invalid: no such host")),
        {| trace := [EvLookupHost "nx.invalid"]; deferred := [] |})
  /\ exists new inf,
       GetHostGeoIP TestWorld.env_geo "http://geoip" "y.com" start =
         (Ret (Some [inf], None),
          {| trace := [EvLookupHost "y.com"] ++ new; deferred := [] |})
       /\ GeoIPInfo.IP inf = "192.0.2.1"
       /\ map fst (get_answers TestWorld.env_geo [EvLookupHost "y.com"] new)
          = ["http://geoip/192.0.2.1"; "http://geoip/192.0.2.2"]
       /\ prints new
          = [failure_message "192.0.2.2" (ErrorString "connection refused")].
Proof.
  assert (Hc : http_contract TestWorld.env_geo).
  { intros tr url. simpl. destruct (decide (url = "http://geoip/192.0.2.2"));
      [exact I | discriminate]. }
  split; [exact Hc|]. split.
  - exact (GetHostGeoIP_total_and_partial TestWorld.env_geo "http://geoip"
             "nx.invalid" start Hc).
  - destruct (GetHostGeoIP_total_and_partial TestWorld.env_geo "http://geoip"
                "y.com" start Hc) as (new & Hrun & Hurls & Hp & _).
    assert (Hnew : new = [EvGet "http://geoip/192.0.2.1"; EvClose 1;
                          EvGet "http://geoip/192.0.2.2";
                          EvPrint (failure_message "192.0.2.2"
                                     (ErrorString "connection refused"))]).
    { apply (f_equal (fun r => trace r.2)) in Hrun.
      vm_compute in Hrun. injection Hrun as Hrun. by rewrite <- Hrun. }
    exists new. eexists. subst new.
    split; [exact Hrun|]. split; [reflexivity|]. split; [exact Hurls|exact Hp].
Defined.

(** The scenario of two addresses of which one lookup fails: a list of
    one record and no error. *)
Example GetHostGeoIP_two_addresses_one_failure :
  exists inf st',
    GetHostGeoIP TestWorld.env_geo "http://geoip" "y.com" start =
      (Ret (Some [inf], None), st')
    /\ GeoIPInfo.IP inf = "192.0.2.1"
    /\ prints (trace st') =
         [failure_message "192.0.2.2" (ErrorString "connection refused")].
Proof.
  eexists _, _. split; [vm_compute; reflexivity|]. split; reflexivity.
Qed.

End HttpFacts.

(* ===================================================================== *)
(** * Properties of the mapper's [main]                                   *)
(* ===================================================================== *)

Module mapperFacts.
Import mapper mapperSpec transportSpec WorldFacts.

Lemma requests_app tr1 tr2 : requests (tr1 ++ tr2) = requests tr1 ++ requests tr2.
Proof. apply omap_app. Qed.

Lemma errors_logged_app tr1 tr2 :
  errors_logged (tr1 ++ tr2) = errors_logged tr1 ++ errors_logged tr2.
Proof. apply omap_app. Qed.

Lemma answers_app env past tr1 tr2 :
  answers env past (tr1 ++ tr2)
  = answers env past tr1 ++ answers env (past ++ tr1) tr2.
Proof.
  revert past. induction tr1 as [|e tr1 IH]; intros past; simpl.
  - by rewrite app_nil_r.
  - rewrite IH, <- !app_assoc. reflexivity.
Qed.


Lemma errors_logged_closes (l : list nat) : errors_logged (map EvClose l) = [].
Proof. induction l; [done|]. simpl. done. Qed.

Lemma answers_closes env past (l : list nat) : answers env past (map EvClose l) = [].
Proof. revert past. induction l; intros past; [done|]. simpl. apply IHl. Qed.

(** One request that gets no response, only an error: the error is
    logged, and the read of [resp.Body] that follows panics on the nil
    response. *)
Lemma main_request_without_response_panics env
    (d : TrackerMapperRequest.t) st err :
  NewRequest_ans env "POST" hosts_url = None ->
  Do_ans env (trace st) (request_for (TrackerMapperRequest.HostNames d))
  = (None, Some err) ->
  main_request env d st
  = (Panic,
     {| trace := trace st
                 ++ [EvDo (request_for (TrackerMapperRequest.HostNames d));
                     EvLogErr client_message];
        deferred := deferred st |}).
Proof.
  intros Hnew Hdo. unfold main_request, NewRequest. rewrite Hnew.
  set (req := Header_Set _ _ _).
  assert (Hreq : req = request_for (TrackerMapperRequest.HostNames d))
    by (by destruct d).
  rewrite Hreq.
  unfold mbind, IO_bind, mret, IO_ret, call, emit, panic. cbn.
  rewrite Hdo. cbn. by rewrite <- app_assoc.
Qed.

(** ** The transport of [net/http] and the URL of [main] *)

(** The scheme that [url.Parse] finds, on some URLs. *)
Example Scheme_table :
  map url.Scheme
    ["http://localhost:8080/hosts"; "HTTPS://tracker.example/hosts";
     "localhost:8080/hosts"; "/hosts"; "//localhost:8080/hosts";
     "8080:hosts"; "a+b-c.d:rest"; "tracker.example/a:b"; ""]
  = ["http"; "https"; "localhost"; ""; ""; ""; "a+b-c.d"; ""; ""]
  /\ url.getScheme ":8080"
     = (("", ""), Some (ErrorString "missing protocol scheme"))
  /\ url.getScheme "localhost:8080/hosts" = (("localhost", "8080/hosts"), None).
Proof. repeat split. Qed.

(** [url.Parse] reads the URL of [main] as the scheme [localhost]. *)
Lemma Scheme_hosts_url : url.Scheme hosts_url = "localhost".
Proof. reflexivity. Qed.

(** So the transport refuses every request of [main]. *)
Lemma transport_refuses env tr (hs : list string) :
  transport_contract env ->
  exists err, Do_ans env tr (request_for hs) = (None, Some err).
Proof.
  intros [_ Hdo]. apply Hdo; cbn [URL request_for];
    rewrite Scheme_hosts_url; discriminate.
Qed.

Lemma transport_contract_env_net_http body ids hostnames :
  transport_contract (env_net_http body ids hostnames).
Proof.
  split; [reflexivity|]. intros tr req H1 H2. exists (unsupported req).
  cbn. destruct (decide (url.Scheme (URL req) = "http"
                         \/ url.Scheme (URL req) = "https")) as [[H|H]|H];
    [by destruct (H1 H)|by destruct (H2 H)|reflexivity].
Defined.

Lemma storage_env_net_http body ids hostnames :
  storage (env_net_http body ids hostnames) ids (fun _ => hostnames).
Proof. by split. Defined.

(** With this transport the loop over the host names of an app ends at
    its first request. *)
Lemma main_hosts_aborts env (d : TrackerMapperRequest.t) (todo : nat) st :
  transport_contract env -> (0 < todo)%nat ->
  main_hosts env d todo st
  = (Panic,
     {| trace := trace st
                 ++ [EvDo (request_for (TrackerMapperRequest.HostNames d));
                     EvLogErr client_message];
        deferred := deferred st |}).
Proof.
  intros Hc Htodo. destruct todo as [|todo]; [lia|].
  destruct (transport_refuses env (trace st)
              (TrackerMapperRequest.HostNames d) Hc) as (err & Hdo).
  cbn [main_hosts]. unfold mbind, IO_bind.
  by rewrite (main_request_without_response_panics env d st err (proj1 Hc) Hdo).
Qed.

Lemma main_apps_aborts env (hostnames : Z -> list string) :
  transport_contract env ->
  (forall tr id,
      AppHostRecord.HostNames (GetAppHostsByID_ans env tr id).1
      = hostnames id) ->
  forall (ids : list Z) st,
  full_pass ids hostnames <> [] ->
  exists new,
    main_apps env ids st
    = (Panic, {| trace := trace st ++ new; deferred := deferred st |})
    /\ requests new = take 1 (full_pass ids hostnames)
    /\ errors_logged new = [client_message].
Proof.
  intros Hc Hdb ids. induction ids as [|id ids IH]; intros st Hfull; [done|].
  cbn [main_apps]. rewrite run_call.
  specialize (Hdb (trace st) id).
  destruct (GetAppHostsByID_ans env (trace st) id) as [rec err].
  cbn [fst] in Hdb. rewrite Hdb.
  set (st1 := {| trace := trace st ++ [EvGetAppHostsByID id];
                 deferred := deferred st |}).
  change (full_pass (id :: ids) hostnames)
    with (replicate (length (hostnames id)) (request_for (hostnames id))
          ++ full_pass ids hostnames) in *.
  destruct (hostnames id) as [|h hs] eqn:Hhs.
  - cbn [length replicate app main_hosts] in *.
    destruct (IH st1 Hfull) as (new & Hrun & Hq & Hl).
    exists (EvGetAppHostsByID id :: new).
    unfold mbind, IO_bind, mret, IO_ret. rewrite Hrun. subst st1.
    cbn [trace deferred]. split; [by rewrite <- app_assoc|]. by split.
  - exists [EvGetAppHostsByID id; EvDo (request_for (h :: hs));
            EvLogErr client_message].
    unfold mbind, IO_bind.
    rewrite (main_hosts_aborts env
               {| TrackerMapperRequest.HostNames := h :: hs |}
               (length (h :: hs)) st1 Hc) by (cbn; lia).
    subst st1. cbn [trace deferred TrackerMapperRequest.HostNames].
    split; [by rewrite <- app_assoc|]. by split.
Qed.

(** A whole run of [main] under the transport of [net/http]. *)
Lemma main_aborts env ids hostnames :
  transport_contract env -> storage env ids hostnames ->
  full_pass ids hostnames <> [] ->
  exists st',
    main env start = (Panic, st')
    /\ requests (trace st') = take 1 (full_pass ids hostnames)
    /\ errors_logged (trace st') = [client_message].
Proof.
  intros Hc [Hids Hdb] Hfull. unfold main, func.
  rewrite run_call. cbn [trace deferred start].
  specialize (Hids []). destruct (GetAppHostIDs_ans env []) as [ids' err].
  cbn [fst] in Hids. subst ids'.
  destruct (main_apps_aborts env hostnames Hc Hdb ids
              {| trace := [] ++ [EvGetAppHostIDs]; deferred := [] |} Hfull)
    as (new & Hrun & Hq & Hl).
  rewrite Hrun. eexists. split; [reflexivity|].
  cbn [trace deferred run_deferred map]. rewrite app_nil_r.
  split.
  - by rewrite requests_app, Hq.
  - by rewrite errors_logged_app, Hl.
Qed.

(** C1, where it fails. Under the transport of [net/http], over a
    storage that holds the apps [ids] with host names of which there is
    at least one: [main] sends the first request of the pass, which
    gets no response, logs the client error, and panics on the nil
    response. No second request is sent, and the pass over the apps is
    not completed. *)
Theorem main_aborts_at_first_transport_failure env ids hostnames :
  transport_contract env -> storage env ids hostnames ->
  full_pass ids hostnames <> [] ->
  exists st',
    main env start = (Panic, st')
    /\ requests (trace st') = take 1 (full_pass ids hostnames)
    /\ errors_logged (trace st') = [client_message]
    /\ (forall req1 req2 rest,
          full_pass ids hostnames = req1 :: req2 :: rest ->
          requests (trace st') <> full_pass ids hostnames).
Proof.
  intros Hc Hs Hfull.
  destruct (main_aborts env ids hostnames Hc Hs Hfull) as (st' & Hrun & Hq & Hl).
  exists st'. split; [done|]. split; [done|]. split; [done|].
  intros req1 req2 rest Heq. rewrite Hq, Heq. discriminate.
Qed.

(** The theorem for one app with the host names [x.com] and [y.com]:
    the pass has two requests, of which the first is sent; [y.com] is
    never tried. *)
Lemma main_aborts_at_first_transport_failure_witness :
  let hs := ["x.com"; "y.com"] in
  let env := env_net_http "ACME" [1] hs in
  transport_contract env
  /\ storage env [1] (fun _ => hs)
  /\ full_pass [1] (fun _ => hs) = [request_for hs; request_for hs]
  /\ exists st',
       main env start = (Panic, st')
       /\ requests (trace st') = [request_for hs]
       /\ errors_logged (trace st') = [client_message]
       /\ requests (trace st') <> full_pass [1] (fun _ => hs).
Proof.
  intros hs env.
  split; [apply transport_contract_env_net_http|].
  split; [apply storage_env_net_http|].
  split; [reflexivity|].
  destruct (main_aborts_at_first_transport_failure env [1] (fun _ => hs)
              (transport_contract_env_net_http _ _ _)
              (storage_env_net_http _ _ _)
              ltac:(discriminate)) as (st' & Hrun & Hq & Hl & Hnot).
  exists st'. split; [exact Hrun|]. split; [exact Hq|]. split; [exact Hl|].
  exact (Hnot _ _ _ eq_refl).
Defined.

(** ** What [main] sends, in any network *)












End mapperFacts.

(* ===================================================================== *)
(** * More about SetOps                                                   *)
(* ===================================================================== *)

Module SetOpsMore.
Import SetOps SetOpsFacts.

(** ** Dedup *)

(** [Dedup] returns the distinct elements of its argument, each once, in
    some order. *)
Theorem Dedup_permutation_of_distinct (a : list string) :
  exists r, Dedup a = Ret r /\ r ≡ₚ remove_dups a.
Proof.
  destruct (Dedup_spec a) as (r & Hr & Hnd & Hset & _).
  exists r. split; [done|].
  apply NoDup_Permutation; [done|apply NoDup_remove_dups|].
  intros x. by rewrite Hset, elem_of_remove_dups.
Qed.

(** One step of the inner loop at an element [y] other than [a[i]]: the
    loop goes on behind [y]. *)
Lemma Dedup_inner_skip (fuel : nat) (p t : list string) (i : Z) (x y : string) :
  0 <= i -> p !! Z.to_nat i = Some x -> x <> y ->
  Dedup_inner (S fuel) i (p ++ y :: t) (len (p ++ y :: t) - 1) (len p)
  = Dedup_inner fuel i ((p ++ [y]) ++ t) (len ((p ++ [y]) ++ t) - 1)
      (len (p ++ [y])).
Proof.
  intros Hi Hx Hne. rewrite Dedup_inner_unfold.
  rewrite decide_True by (rewrite len_app; unfold len; simpl; lia).
  rewrite (index_prefix p (y :: t) i x Hi Hx). simpl.
  rewrite index_middle. simpl.
  rewrite decide_False by done.
  replace (len p + 1) with (len (p ++ [y]))
    by (rewrite len_app; unfold len; simpl; lia).
  by rewrite <- app_assoc.
Qed.

(** The inner loop keeps the elements before the first copy of [a[i]]
    where they are. *)
Lemma Dedup_inner_keeps (s1 : list string) :
  forall (fuel : nat) (p s2 : list string) (i : Z) (x : string),
    (length (s1 ++ s2) <= fuel)%nat ->
    0 <= i -> p !! Z.to_nat i = Some x -> x ∉ s1 ->
    exists s2',
      Dedup_inner fuel i (p ++ s1 ++ s2) (len (p ++ s1 ++ s2) - 1) (len p)
      = Ret (p ++ s1 ++ s2', len (p ++ s1 ++ s2') - 1).
Proof.
  induction s1 as [|y s1 IH]; intros fuel p s2 i x Hfuel Hi Hx Hnot.
  - destruct (Dedup_inner_spec (length s2) fuel p s2 i x)
      as (s' & Hrun & _); [lia|done|done|done|].
    by exists s'.
  - apply not_elem_of_cons in Hnot as [Hne Hnot].
    destruct fuel as [|fuel]; [simpl in Hfuel; lia|].
    simpl in Hfuel.
    destruct (IH fuel (p ++ [y]) s2 i x) as (s2' & Hrun);
      [lia|done| |done|].
    { rewrite lookup_app_l; [done|]. by eapply lookup_lt_Some. }
    exists s2'.
    change (p ++ (y :: s1) ++ s2) with (p ++ y :: (s1 ++ s2)).
    rewrite (Dedup_inner_skip fuel p (s1 ++ s2) i x y) by done.
    rewrite Hrun. by rewrite <- !app_assoc.
Qed.

(** The outer loop keeps a duplicate-free front of the slice where it
    is. *)
Lemma Dedup_outer_keeps (n : nat) :
  forall (fuel : nat) (p s1 s2 : list string),
    (length (s1 ++ s2) <= n)%nat -> (n <= fuel)%nat ->
    NoDup (p ++ s1) -> (forall y, y ∈ p -> y ∉ s1 ++ s2) ->
    exists r',
      Dedup_outer fuel (p ++ s1 ++ s2) (len (p ++ s1 ++ s2) - 1) (len p)
      = Ret (p ++ s1 ++ r').
Proof.
  induction n as [|n IH]; intros fuel p s1 s2 Hs Hfuel Hnd Hdisj.
  - destruct s1; [|simpl in Hs; lia]. destruct s2; [|simpl in Hs; lia].
    exists []. rewrite Dedup_outer_unfold.
    by rewrite decide_False by (rewrite len_app; unfold len; simpl; lia).
  - rewrite Dedup_outer_unfold.
    destruct (decide (len p < len (p ++ s1 ++ s2) - 1)) as [Hlt|Hge];
      [|by exists s2].
    destruct (s1 ++ s2) as [|x t] eqn:Hs12;
      [rewrite len_app in Hlt; unfold len in Hlt; simpl in Hlt; lia|].
    simpl in Hs. destruct fuel as [|fuel]; [lia|].
    assert (Hxp : x ∉ p).
    { intros Hin. apply (Hdisj x Hin). by left. }
    assert (Hlook : (p ++ [x]) !! Z.to_nat (len p) = Some x).
    { unfold len. rewrite Nat2Z.id. by rewrite list_lookup_middle. }
    destruct (Dedup_inner_spec (length t) (length ((p ++ [x]) ++ t))
                (p ++ [x]) t (len p) x)
      as (t' & Hrun & Hmem & Hlen & _);
      [lia|rewrite !length_app; simpl; lia|apply len_nonneg|done|].
    replace (p ++ x :: t) with ((p ++ [x]) ++ t)
      by (rewrite <- app_assoc; reflexivity).
    replace (len p + 1) with (len (p ++ [x]))
      by (rewrite len_app; unfold len; simpl; lia).
    rewrite Hrun. simpl.
    assert (Hdisj' : forall y, y ∈ p ++ [x] -> y ∉ t').
    { intros y Hy Hyt. apply Hmem in Hyt as [Hyt Hne].
      apply elem_of_app in Hy as [Hy|Hy].
      - apply (Hdisj y Hy). by right.
      - apply list_elem_of_singleton in Hy. done. }
    destruct s1 as [|x1 s1].
    + simpl in Hs12. subst s2. rewrite app_nil_r in Hnd.
      destruct (IH fuel (p ++ [x]) [] t') as (r' & Hr);
        [simpl; lia|lia| |done|].
      { rewrite app_nil_r. apply NoDup_app. split; [done|].
        split; [|apply NoDup_singleton].
        intros y Hy Hyx. apply list_elem_of_singleton in Hyx. by subst. }
      exists (x :: r'). simpl in Hr. rewrite Hr.
      by rewrite <- app_assoc.
    + simpl in Hs12. injection Hs12 as -> <-.
      assert (Hx1 : x ∉ s1).
      { apply NoDup_app in Hnd as (_ & _ & Hnd).
        by apply NoDup_cons in Hnd as [Hnd _]. }
      destruct (Dedup_inner_keeps s1 (length ((p ++ [x]) ++ s1 ++ s2))
                  (p ++ [x]) s2 (len p) x)
        as (s2' & Hkeep);
        [rewrite !length_app; simpl; lia|apply len_nonneg|done|done|].
      rewrite Hkeep in Hrun. injection Hrun as Heq _.
      apply app_inv_head in Heq. subst t'.
      assert (Hlen' : (length (s1 ++ s2') <= n)%nat).
      { lia. }
      destruct (IH fuel (p ++ [x]) s1 s2') as (r' & Hr);
        [done|lia| |done|].
      { by rewrite <- app_assoc. }
      exists r'. rewrite Hr. by rewrite <- !app_assoc.
Qed.

Lemma Dedup_take (a : list string) (k : nat) :
  NoDup (take k a) ->
  exists r, Dedup a = Ret r /\ take k r = take k a.
Proof.
  intros Hnd.
  destruct (decide (k <= length a)%nat) as [Hk|Hk].
  - destruct (Dedup_outer_keeps (length a) (length a) [] (take k a) (drop k a))
      as (r' & Hr).
    + by rewrite take_drop.
    + lia.
    + done.
    + intros y Hy. by apply elem_of_nil in Hy.
    + simpl in Hr. rewrite take_drop in Hr.
      exists (take k a ++ r'). split; [exact Hr|].
      rewrite take_app_length'; [done|]. rewrite length_take. lia.
  - rewrite take_ge in Hnd by lia.
    destruct (Dedup_spec a) as (r & Hr & _ & _ & _ & Hid).
    exists r. split; [done|]. by rewrite (Hid Hnd).
Qed.

(** A front of the slice that is free of duplicates stays where it is:
    [Dedup] only moves elements into positions behind it. With the
    whole slice free of duplicates, [Dedup] returns it unchanged. *)
Theorem Dedup_keeps_duplicate_free_prefix (a : list string) (k : nat) :
  NoDup (take k a) ->
  (exists r, Dedup a = Ret r /\ take k r = take k a)
  /\ ((length a <= k)%nat -> Dedup a = Ret a).
Proof.
  intros Hnd. split; [by apply Dedup_take|].
  intros Hk. rewrite take_ge in Hnd by done.
  destruct (Dedup_spec a) as (r & Hr & _ & _ & _ & Hid).
  by rewrite Hr, (Hid Hnd).
Qed.

Lemma Dedup_keeps_duplicate_free_prefix_witness :
  NoDup (take 2 ["a"; "b"; "a"; "c"])
  /\ exists r, Dedup ["a"; "b"; "a"; "c"] = Ret r
               /\ take 2 r = take 2 ["a"; "b"; "a"; "c"].
Proof.
  assert (H : NoDup (take 2 ["a"; "b"; "a"; "c"]))
    by (apply (bool_decide_unpack _); vm_compute; exact I).
  split; [exact H|].
  exact (proj1 (Dedup_keeps_duplicate_free_prefix ["a"; "b"; "a"; "c"] 2 H)).
Defined.

(** ** UniqAppend *)

Lemma not_in_UniqAppend (a b : list string) (x : string) :
  x ∉ (a ++ filter (fun be => be ∉ a) b) <-> (x ∉ a) /\ (x ∉ b).
Proof.
  rewrite elem_of_app, list_elem_of_filter. tauto.
Qed.

(** [UniqAppend] is associative: appending [b] and then [c] gives the
    list that appending [b] extended by [c] gives. *)
Theorem UniqAppend_assoc (a b c : list string) :
  UniqAppend (UniqAppend a b) c = UniqAppend a (UniqAppend b c).
Proof.
  rewrite !UniqAppend_filter, filter_app, list_filter_filter.
  rewrite <- app_assoc. do 2 f_equal.
  apply list_filter_iff. intros x. apply not_in_UniqAppend.
Qed.

(** [UniqAppend a b] is [a] itself exactly when [b] has no element
    outside [a]; so appending the same list a second time changes
    nothing. *)
Theorem UniqAppend_nothing_new (a b : list string) :
  (UniqAppend a b = a <-> forall x, x ∈ b -> x ∈ a)
  /\ UniqAppend (UniqAppend a b) b = UniqAppend a b.
Proof.
  assert (Hiff : forall a b : list string,
             UniqAppend a b = a <-> forall x, x ∈ b -> x ∈ a).
  { clear. intros a b. rewrite UniqAppend_filter. split.
    - intros Heq x Hx. destruct (decide (x ∈ a)) as [|Hn]; [done|].
      assert (Hnil : filter (fun be => be ∉ a) b = []).
      { apply (app_inv_head a). by rewrite app_nil_r. }
      by destruct (filter_nil_not_elem_of _ _ x Hnil Hn).
    - intros Hall.
      assert (Hnil : filter (fun be => be ∉ a) b = []).
      { induction b as [|y b IH]; [done|].
        rewrite filter_cons_False.
        - apply IH. intros x Hx. apply Hall. by right.
        - intros Hn. apply Hn. apply Hall. by left. }
      by rewrite Hnil, app_nil_r. }
  split; [apply Hiff|].
  apply Hiff. intros x Hx. rewrite UniqAppend_filter, elem_of_app,
    list_elem_of_filter. destruct (decide (x ∈ a)); tauto.
Qed.

Lemma UniqAppend_nothing_new_witness :
  (forall x : string, x ∈ ["b"; "a"; "b"] -> x ∈ ["a"; "b"])
  /\ UniqAppend ["a"; "b"] ["b"; "a"; "b"] = ["a"; "b"].
Proof.
  assert (H : forall x : string, x ∈ ["b"; "a"; "b"] -> x ∈ ["a"; "b"]).
  { intros x. rewrite !elem_of_cons, !elem_of_nil. tauto. }
  split; [exact H|].
  exact (proj2 (proj1 (UniqAppend_nothing_new ["a"; "b"] ["b"; "a"; "b"])) H).
Defined.

(** [Dedup] after [UniqAppend] is a union: the result has no duplicates,
    its elements are those of [a] and of [b], and a duplicate-free [a]
    stays in front, in its order. *)
Theorem Dedup_UniqAppend_union (a b : list string) :
  exists r,
    Dedup (UniqAppend a b) = Ret r
    /\ NoDup r
    /\ (forall x, x ∈ r <-> x ∈ a \/ x ∈ b)
    /\ (NoDup a -> take (length a) r = a).
Proof.
  destruct (Dedup_spec (UniqAppend a b)) as (r & Hr & Hnd & Hset & _).
  exists r. split; [done|]. split; [done|]. split.
  - intros x. rewrite Hset, UniqAppend_filter, elem_of_app,
      list_elem_of_filter. destruct (decide (x ∈ a)); tauto.
  - intros Ha.
    destruct (Dedup_take (UniqAppend a b) (length a)) as (r' & Hr' & Htake).
    + by rewrite UniqAppend_filter, take_app_length.
    + rewrite Hr in Hr'. injection Hr' as <-.
      by rewrite Htake, UniqAppend_filter, take_app_length.
Qed.

Lemma Dedup_UniqAppend_union_witness :
  NoDup ["a"; "b"]
  /\ exists r, Dedup (UniqAppend ["a"; "b"] ["c"; "a"; "c"]) = Ret r
               /\ NoDup r /\ take 2 r = ["a"; "b"].
Proof.
  assert (H : NoDup ["a"; "b"])
    by (apply (bool_decide_unpack _); vm_compute; exact I).
  split; [exact H|].
  destruct (Dedup_UniqAppend_union ["a"; "b"] ["c"; "a"; "c"])
    as (r & Hr & Hnd & _ & Htake).
  exists r. split; [exact Hr|]. split; [exact Hnd|]. exact (Htake H).
Defined.

End SetOpsMore.

(* ===================================================================== *)
(** * More about app paths                                                *)
(* ===================================================================== *)

Module AppPathMore.
Import util pathSpec AppPathSpec pathFacts AppFacts.

Lemma Plain_NoSlash (s : string) : Plain s -> NoSlash s.
Proof. apply is_plain_no_slash. Qed.

Lemma NoSlash_append (s t : string) : NoSlash s -> NoSlash t -> NoSlash (s +:+ t).
Proof.
  unfold NoSlash. intros Hs Ht.
  by rewrite list_ascii_of_string_append, forallb_app, Hs, Ht.
Qed.

Lemma append_inv_head (p s t : string) : p +:+ s = p +:+ t -> s = t.
Proof.
  induction p as [|c p IH]; [done|].
  intros H. apply IH. by injection H.
Qed.

Lemma append_inv_tail (s t u : string) : s +:+ u = t +:+ u -> s = t.
Proof.
  intros H. apply (f_equal list_ascii_of_string) in H.
  rewrite !list_ascii_of_string_append in H. apply app_inv_tail in H.
  apply (f_equal string_of_list_ascii) in H.
  by rewrite !string_of_list_ascii_of_string in H.
Qed.

(** Two names without slashes that are followed by a slash and agree up
    to the end are the same name, followed by the same rest. *)
Lemma split_at_slash (s1 : string) :
  forall s2 r1 r2 : string,
    NoSlash s1 -> NoSlash s2 ->
    s1 +:+ "/" +:+ r1 = s2 +:+ "/" +:+ r2 ->
    s1 = s2 /\ r1 = r2.
Proof.
  induction s1 as [|c s1 IH]; intros s2 r1 r2 H1 H2 Heq.
  - destruct s2 as [|c2 s2].
    + split; [done|]. by injection Heq.
    + injection Heq as Hc _. subst c2. discriminate H2.
  - destruct s2 as [|c2 s2].
    + injection Heq as Hc _. subst c. discriminate H1.
    + injection Heq as <- Heq.
      unfold NoSlash in H1, H2. cbn [list_ascii_of_string forallb] in H1, H2.
      apply andb_prop in H1 as [_ H1]. apply andb_prop in H2 as [_ H2].
      destruct (IH s2 r1 r2 H1 H2 Heq) as [-> ->]. done.
Qed.

(** The package path of an app without an explicit path, for a tidy base
    directory and plain identity fields. *)
Lemma ApkPath_literal (cfg : Cfg.t) (app : App.t) :
  App.Path app = "" ->
  Tidy (Cfg.AppDir cfg) -> Plain (App.ID app) -> Plain (App.Store app) ->
  Plain (App.Region app) -> Plain (App.Ver app) ->
  AppDir cfg app
  = Cfg.AppDir cfg +:+ "/" +:+ App.ID app +:+ "/" +:+ App.Store app
    +:+ "/" +:+ App.Region app +:+ "/" +:+ App.Ver app
  /\ Tidy (AppDir cfg app)
  /\ ApkPath cfg app = AppDir cfg app +:+ "/" +:+ App.ID app +:+ ".apk".
Proof.
  intros Hp Hbase Hid Hstore Hregion Hver.
  unfold ApkPath, AppDir. rewrite !decide_False by (by intros H).
  destruct (Join_five _ _ _ _ _ Hbase Hid Hstore Hregion Hver) as [-> Ht].
  split; [done|]. split; [done|].
  rewrite Join_two; [done|done|].
  apply Plain_suffix; [done|reflexivity|simpl; lia].
Qed.

(** Apps with plain identity fields have the same package path only if
    they have the same id, store, region and version. *)
Theorem ApkPath_injective (cfg : Cfg.t) (app1 app2 : App.t) :
  App.Path app1 = "" -> App.Path app2 = "" ->
  Tidy (Cfg.AppDir cfg) ->
  Plain (App.ID app1) -> Plain (App.Store app1) ->
  Plain (App.Region app1) -> Plain (App.Ver app1) ->
  Plain (App.ID app2) -> Plain (App.Store app2) ->
  Plain (App.Region app2) -> Plain (App.Ver app2) ->
  ApkPath cfg app1 = ApkPath cfg app2 ->
  App.ID app1 = App.ID app2 /\ App.Store app1 = App.Store app2
  /\ App.Region app1 = App.Region app2 /\ App.Ver app1 = App.Ver app2.
Proof.
  intros Hp1 Hp2 Hbase Hi1 Hs1 Hr1 Hv1 Hi2 Hs2 Hr2 Hv2 Heq.
  destruct (ApkPath_literal cfg app1 Hp1 Hbase Hi1 Hs1 Hr1 Hv1)
    as (Hd1 & _ & Ha1).
  destruct (ApkPath_literal cfg app2 Hp2 Hbase Hi2 Hs2 Hr2 Hv2)
    as (Hd2 & _ & Ha2).
  rewrite Ha1, Ha2, Hd1, Hd2, !append_assoc in Heq.
  apply append_inv_head in Heq. injection Heq as Heq.
  apply split_at_slash in Heq as [Hid Heq]; [|by apply Plain_NoSlash..].
  apply split_at_slash in Heq as [Hstore Heq]; [|by apply Plain_NoSlash..].
  apply split_at_slash in Heq as [Hregion Heq]; [|by apply Plain_NoSlash..].
  apply split_at_slash in Heq as [Hver _]; [|by apply Plain_NoSlash..].
  done.
Qed.

Lemma ApkPath_injective_witness :
  let app := NewApp 7 "com.example.app" "play" "uk" "1.2.3" in
  let app' := NewApp 8 "com.example.app" "play" "uk" "1.2.3" in
  ApkPath TestWorld.cfg app = ApkPath TestWorld.cfg app'
  /\ App.ID app = App.ID app' /\ App.Store app = App.Store app'
  /\ App.Region app = App.Region app' /\ App.Ver app = App.Ver app'.
Proof.
  intros app app'.
  assert (Heq : ApkPath TestWorld.cfg app = ApkPath TestWorld.cfg app')
    by reflexivity.
  split; [exact Heq|].
  exact (ApkPath_injective TestWorld.cfg app app' eq_refl eq_refl
           Tidy_test_AppDir eq_refl eq_refl eq_refl eq_refl
           eq_refl eq_refl eq_refl eq_refl Heq).
Defined.

(** ** The directory and the file name of the package path *)

Lemma LastIndexSlash_none (s : list ascii) :
  forallb (fun c => negb (path.is_slash c)) s = true ->
  path.LastIndexSlash s = -1.
Proof.
  induction s as [|c s IH]; [done|]. cbn [forallb path.LastIndexSlash].
  intros H. apply andb_prop in H as [Hc Hs]. rewrite (IH Hs).
  apply negb_true_iff in Hc. by rewrite Hc.
Qed.

Lemma LastIndexSlash_last (p s : list ascii) :
  forallb (fun c => negb (path.is_slash c)) s = true ->
  path.LastIndexSlash (p ++ path.slash :: s) = Z.of_nat (length p).
Proof.
  intros Hs. induction p as [|c p IH].
  - cbn [app path.LastIndexSlash]. by rewrite (LastIndexSlash_none s Hs).
  - cbn [app path.LastIndexSlash]. rewrite IH.
    destruct (0 <=? Z.of_nat (length p)) eqn:E; [simpl length; lia|].
    apply Z.leb_gt in E. lia.
Qed.

(** [Clean] removes the slash at the end of a tidy path. *)
Lemma Clean_tidy_slash (p : string) :
  Tidy p -> path.Clean (string_of_list_ascii (list_ascii_of_string p ++ [path.slash])) = p.
Proof.
  unfold Tidy. intros Hp.
  destruct (tidy_length _ Hp) as [Hne _].
  pose proof (Clean_loop_tidy _ Hp [path.slash] eq_refl) as Hloop.
  rewrite Clean_loop_skip_slash in Hloop. cbn [path.Clean_loop] in Hloop.
  unfold path.Clean. rewrite list_ascii_of_string_of_list_ascii.
  destruct (list_ascii_of_string p) as [|c l] eqn:Hl; [done|].
  unfold rooted_of, rout_of, dotdot_of in Hloop. cbn [rooted_of] in Hloop.
  cbn [app].
  assert (Hrun :
    path.Clean_loop (path.is_slash c) false (c :: l ++ [path.slash])
      (if path.is_slash c then [path.slash] else [])
      (if path.is_slash c then 1%nat else 0%nat)
    = rev (c :: l)).
  { exact Hloop. }
  rewrite Hrun.
  destruct (rev (c :: l)) as [|x r] eqn:Hr.
  { apply (f_equal (@length ascii)) in Hr. rewrite length_rev in Hr.
    simpl in Hr. lia. }
  rewrite <- Hr, rev_involutive, <- Hl.
  apply string_of_list_ascii_of_string.
Qed.

(** The directory of a file in a tidy directory is that directory, and
    its base name is the name of the file. *)
Lemma Dir_Base_tidy (p s : string) :
  Tidy p -> Plain s ->
  path.Dir (p +:+ "/" +:+ s) = p /\ path.Base (p +:+ "/" +:+ s) = s.
Proof.
  intros Hp Hs. pose proof (is_plain_no_slash _ Hs) as Hns.
  assert (HL : list_ascii_of_string (p +:+ "/" +:+ s)
               = list_ascii_of_string p ++ path.slash :: list_ascii_of_string s).
  { by rewrite !list_ascii_of_string_append. }
  split.
  - unfold path.Dir, path.Split. rewrite HL. cbn [fst].
    rewrite LastIndexSlash_last by done.
    replace (Z.to_nat (Z.of_nat (length (list_ascii_of_string p)) + 1))
      with (length (list_ascii_of_string p) + 1)%nat by lia.
    rewrite take_app_add. cbn [take].
    by apply Clean_tidy_slash.
  - unfold path.Base.
    rewrite decide_False by (by apply append_nonempty_l, Tidy_nonempty).
    rewrite HL.
    assert (Hstrip :
      rev (path.strip_slashes
             (rev (list_ascii_of_string p ++ path.slash :: list_ascii_of_string s)))
      = list_ascii_of_string p ++ path.slash :: list_ascii_of_string s).
    { rewrite rev_app_distr. cbn [rev].
      destruct (is_plain_cons _ Hs) as (c & s' & Hcs & _).
      assert (Hrev : exists x r, rev (list_ascii_of_string s) = x :: r
                                 /\ path.is_slash x = false) .
      { destruct (rev (list_ascii_of_string s)) as [|x r] eqn:Hr.
        - apply (f_equal (@length ascii)) in Hr. rewrite length_rev, Hcs in Hr.
          simpl in Hr. lia.
        - exists x, r. split; [done|].
          assert (Hin : In x (list_ascii_of_string s)).
          { apply in_rev. rewrite Hr. by left. }
          rewrite forallb_forall in Hns. specialize (Hns x Hin).
          by apply negb_true_iff in Hns. }
      destruct Hrev as (x & r & Hr & Hx). rewrite Hr.
      cbn [app path.strip_slashes]. rewrite Hx.
      change ((x :: (r ++ [path.slash]) ++ rev (list_ascii_of_string p)))
        with (((x :: r) ++ [path.slash]) ++ rev (list_ascii_of_string p)).
      rewrite <- Hr, rev_app_distr, rev_involutive.
      rewrite rev_app_distr, rev_involutive. cbn [rev app].
      reflexivity. }
    rewrite Hstrip, LastIndexSlash_last by done.
    destruct (0 <=? Z.of_nat (length (list_ascii_of_string p))) eqn:E;
      [|apply Z.leb_gt in E; lia].
    replace (Z.to_nat (Z.of_nat (length (list_ascii_of_string p)) + 1))
      with (length (list_ascii_of_string p) + 1)%nat by lia.
    rewrite drop_app_add. cbn [drop]. rewrite drop_0.
    unfold Plain in Hs.
    destruct (list_ascii_of_string s) as [|c l] eqn:Hl; [discriminate Hs|].
    rewrite <- Hl. apply string_of_list_ascii_of_string.
Qed.

(** The package file lies in the app directory: [path.Dir] of [ApkPath]
    is [AppDir], for an app with an explicit path and for an app named
    by its identity; for the latter the file is called after its id. *)
Theorem ApkPath_in_AppDir (cfg : Cfg.t) (app : App.t) :
  App.Path app <> "" \/ well_named (Cfg.AppDir cfg) app ->
  path.Dir (ApkPath cfg app) = AppDir cfg app
  /\ (App.Path app = "" ->
      path.Base (ApkPath cfg app) = App.ID app +:+ ".apk").
Proof.
  intros [Hp|(Hp & Hbase & Hid & Hstore & Hregion & Hver)].
  - unfold ApkPath, AppDir. rewrite !decide_True by done. by split.
  - destruct (ApkPath_literal cfg app Hp Hbase Hid Hstore Hregion Hver)
      as (_ & Ht & ->).
    assert (Hapk : Plain (App.ID app +:+ ".apk"))
      by (apply Plain_suffix; [done|reflexivity|simpl; lia]).
    destruct (Dir_Base_tidy _ _ Ht Hapk) as [HD HB].
    by split.
Qed.

Lemma ApkPath_in_AppDir_witness :
  let app := NewApp 7 "com.example.app" "play" "uk" "1.2.3" in
  well_named (Cfg.AppDir TestWorld.cfg) app
  /\ path.Dir (ApkPath TestWorld.cfg app) = AppDir TestWorld.cfg app
  /\ (App.Path app = "" ->
      path.Base (ApkPath TestWorld.cfg app) = "com.example.app.apk").
Proof.
  intros app.
  assert (H : well_named (Cfg.AppDir TestWorld.cfg) app).
  { split; [reflexivity|]. split; [exact Tidy_test_AppDir|].
    repeat split. }
  split; [exact H|].
  exact (ApkPath_in_AppDir TestWorld.cfg app (or_intror H)).
Defined.

End AppPathMore.

(* ===================================================================== *)
(** * More about OutDir, Unpack and Cleanup                               *)
(* ===================================================================== *)

Module UnpackMore.
Import util AppSpec UnpackSpec WorldFacts AppFacts.

Lemma run_bind_inv {A B} (m : IO A) (k : A -> IO B) st y st' :
  (m ≫= k) st = (Ret y, st') ->
  exists x st1, m st = (Ret x, st1) /\ k x st1 = (Ret y, st').
Proof.
  unfold mbind, IO_bind. destruct (m st) as [[x| | |] st1]; try done.
  intros H. by exists x, st1.
Qed.

Lemma after_nil (st : State) : after st [] = st.
Proof. unfold after. rewrite app_nil_r. by destruct st. Qed.

Lemma after_after (st : State) (evs1 evs2 : list Event) :
  after (after st evs1) evs2 = after st (evs1 ++ evs2).
Proof. unfold after. simpl. by rewrite app_assoc. Qed.

(** A directory that [OutDir] returns is recorded and has a name. *)
Lemma OutDir_result env cfg app st d app' st' :
  os_contract env ->
  OutDir env cfg app st = (Ret (d, app'), st') ->
  App.UnpackDir app' = d /\ d <> "".
Proof.
  intros [Htmp Hmk] Hrun. unfold OutDir in Hrun.
  destruct (decide (App.UnpackDir app = "")) as [Hempty|Hrec].
  - destruct (decide (App.Path app <> "")) as [Hpath|Hpath].
    + rewrite run_call in Hrun.
      specialize (Htmp (trace st) (Cfg.UnpackDir cfg)
                    (path.Base (App.Path app))).
      destruct (TempDir_ans env (trace st) _ _) as [dir [err|]];
        [discriminate Hrun|].
      injection Hrun as <- <- <-. split; [done|]. by apply Htmp.
    + rewrite run_call in Hrun.
      destruct (MkdirAll_ans env (trace st) _) as [err|] eqn:Hans;
        [discriminate Hrun|].
      injection Hrun as <- <- <-. split; [done|]. cbn.
      intros Hnil. rewrite Hnil in Hans. by apply (Hmk (trace st)).
  - injection Hrun as <- <- <-. done.
Qed.

(** [OutDir] on a fresh app without an explicit path: one [MkdirAll]. *)
Lemma OutDir_identity env cfg app st :
  App.UnpackDir app = "" -> App.Path app = "" ->
  OutDir env cfg app st
  = match MkdirAll_ans env (trace st) (identity_dir cfg app) with
    | Some err =>
        (Exit 1, after st [EvMkdirAll (identity_dir cfg app);
                           EvLogFatal (fatal_message (identity_dir cfg app) err)])
    | None =>
        (Ret (identity_dir cfg app,
              App.set_UnpackDir app (identity_dir cfg app)),
         after st [EvMkdirAll (identity_dir cfg app)])
    end.
Proof.
  intros Hu Hp. unfold OutDir.
  rewrite decide_True by done. rewrite decide_False by (by intros H).
  rewrite run_call. cbn [App.UnpackDir App.set_UnpackDir].
  fold (identity_dir cfg app).
  destruct (MkdirAll_ans env (trace st) (identity_dir cfg app)) as [err|];
    [|done].
  unfold log_Fatal, fatal_message, after. rewrite run_emit. cbn.
  by rewrite <- app_assoc.
Qed.

(** [OutDir] on a fresh app with an explicit path: one [TempDir]. *)
Lemma OutDir_explicit env cfg app st :
  App.UnpackDir app = "" -> App.Path app <> "" ->
  OutDir env cfg app st
  = let ev := EvTempDir (Cfg.UnpackDir cfg) (path.Base (App.Path app)) in
    match TempDir_ans env (trace st) (Cfg.UnpackDir cfg)
            (path.Base (App.Path app)) with
    | (dir, Some err) =>
        (Exit 1,
         after st [ev; EvLogFatal (fatal_message (Cfg.UnpackDir cfg) err)])
    | (dir, None) => (Ret (dir, App.set_UnpackDir app dir), after st [ev])
    end.
Proof.
  intros Hu Hp. unfold OutDir. rewrite !decide_True by done.
  rewrite run_call.
  destruct (TempDir_ans env (trace st) _ _) as [dir [err|]]; [|done].
  unfold log_Fatal, fatal_message, after. rewrite run_emit. cbn.
  by rewrite <- app_assoc.
Qed.

(** When the unpack directory of a fresh app cannot be made, [OutDir]
    does not return an error: it logs a fatal message and ends the
    process with status 1, and so do [Unpack] and [Cleanup], which call
    it first, before they look at the package or remove anything. *)
Theorem OutDir_failure_exits env cfg app st err :
  App.UnpackDir app = "" -> App.Path app = "" ->
  MkdirAll_ans env (trace st) (identity_dir cfg app) = Some err ->
  let st' := after st [EvMkdirAll (identity_dir cfg app);
                       EvLogFatal (fatal_message (identity_dir cfg app) err)] in
  OutDir env cfg app st = (Exit 1, st')
  /\ Unpack env cfg app st = (Exit 1, st')
  /\ Cleanup env cfg app st = (Exit 1, st').
Proof.
  intros Hu Hp Hmk st'.
  assert (Hout : OutDir env cfg app st = (Exit 1, st')).
  { rewrite OutDir_identity by done. by rewrite Hmk. }
  split; [done|]. unfold Unpack, Cleanup, mbind, IO_bind.
  by rewrite Hout.
Qed.

Lemma OutDir_failure_exits_witness :
  let app := NewApp 7 "" "" "" "" in
  let cfg := {| Cfg.DataDir := ""; Cfg.AppDir := ""; Cfg.UnpackDir := "";
                Cfg.SockPath := "" |} in
  let env := TestWorld.env_ok 200 "" [] [] in
  Unpack env cfg app start
  = (Exit 1,
     {| trace := [EvMkdirAll "";
                  EvLogFatal "Failed to create temp dir in : mkdir : no such file or directory"];
        deferred := [] |}).
Proof.
  intros app cfg env.
  exact (proj1 (proj2 (OutDir_failure_exits env cfg app start
                         (PathError "mkdir" "" ENOENT)
                         eq_refl eq_refl eq_refl))).
Defined.

(** ** Unpack *)

(** When everything succeeds, [Unpack] returns no error after exactly
    four steps behind [OutDir], in this order: [os.Stat] of the package,
    [os.MkdirAll] and [os.Chtimes] of the parent of the unpack directory,
    and [apktool d -s <package> -o <unpack directory> -f]. *)
Theorem Unpack_success env cfg app st outDir app1 st1 :
  OutDir env cfg app st = (Ret (outDir, app1), st1) ->
  let apkPath := ApkPath cfg app in
  let dir := path.Dir outDir in
  forall out,
    Stat_ans env (trace st1) apkPath = None ->
    MkdirAll_ans env (trace st1 ++ [EvStat apkPath]) dir = None ->
    Chtimes_ans env (trace st1 ++ [EvStat apkPath; EvMkdirAll dir]) dir = None ->
    CombinedOutput_ans env
      (trace st1 ++ [EvStat apkPath; EvMkdirAll dir; EvChtimes dir])
      (apktool apkPath outDir) = (out, None) ->
    Unpack env cfg app st
    = (Ret (None, app1),
       after st1 [EvStat apkPath; EvMkdirAll dir; EvChtimes dir;
                  EvExec (apktool apkPath outDir)]).
Proof.
  intros Hout apkPath dir out Hstat Hmk Hch Hexec.
  unfold Unpack. fold apkPath.
  rewrite (run_bind _ _ _ _ _ Hout). rewrite run_call, Hstat.
  rewrite run_call. cbn [trace]. fold dir. rewrite Hmk.
  rewrite run_call. cbn [trace]. rewrite <- app_assoc. cbn [Datatypes.app]. rewrite Hch.
  rewrite run_call. cbn [trace]. rewrite <- app_assoc. cbn [Datatypes.app].
  fold (apktool apkPath outDir). rewrite Hexec.
  unfold after. cbn. by rewrite <- app_assoc.
Qed.

Lemma Unpack_success_witness :
  let app := NewApp 7 "com.example.app" "play" "uk" "1.2.3" in
  let d := "/tmp/unpacked_apks/com.example.app/play/uk/1.2.3" in
  let apk := ApkPath TestWorld.cfg app in
  let env := TestWorld.env_ok 200 "" [] [] in
  Unpack env TestWorld.cfg app start
  = (Ret (None, App.set_UnpackDir app d),
     {| trace := [EvMkdirAll d; EvStat apk;
                  EvMkdirAll "/tmp/unpacked_apks/com.example.app/play/uk";
                  EvChtimes "/tmp/unpacked_apks/com.example.app/play/uk";
                  EvExec ["apktool"; "d"; "-s"; apk; "-o"; d; "-f"]];
        deferred := [] |}).
Proof.
  intros app d apk env.
  assert (Hout : OutDir env TestWorld.cfg app start
                 = (Ret (d, App.set_UnpackDir app d),
                    {| trace := [EvMkdirAll d]; deferred := [] |}))
    by (vm_compute; reflexivity).
  exact (Unpack_success env TestWorld.cfg app start _ _ _ Hout ""
           eq_refl eq_refl eq_refl eq_refl).
Defined.

(** [Unpack] stops at its first failing step. After a failed [os.Stat]
    nothing else is done. A failure to make the parent directory, or to
    set its times, is returned as [os.ErrPermission] whatever its cause
    was, and [apktool] is not run. *)
Theorem Unpack_stops_at_first_failure env cfg app st outDir app1 st1 :
  OutDir env cfg app st = (Ret (outDir, app1), st1) ->
  let apkPath := ApkPath cfg app in
  let dir := path.Dir outDir in
  (forall err,
      Stat_ans env (trace st1) apkPath = Some err ->
      (Unpack env cfg app st).2 = after st1 [EvStat apkPath])
  /\ (forall err,
      Stat_ans env (trace st1) apkPath = None ->
      MkdirAll_ans env (trace st1 ++ [EvStat apkPath]) dir = Some err ->
      Unpack env cfg app st
      = (Ret (Some ErrPermission, app1),
         after st1 [EvStat apkPath; EvMkdirAll dir]))
  /\ (forall err,
      Stat_ans env (trace st1) apkPath = None ->
      MkdirAll_ans env (trace st1 ++ [EvStat apkPath]) dir = None ->
      Chtimes_ans env (trace st1 ++ [EvStat apkPath; EvMkdirAll dir]) dir
      = Some err ->
      Unpack env cfg app st
      = (Ret (Some ErrPermission, app1),
         after st1 [EvStat apkPath; EvMkdirAll dir; EvChtimes dir])).
Proof.
  intros Hout apkPath dir.
  unfold Unpack. fold apkPath.
  rewrite (run_bind _ _ _ _ _ Hout). rewrite run_call.
  split; [|split].
  - intros err Hstat. rewrite Hstat. by destruct (IsNotExist err).
  - intros err Hstat Hmk. rewrite Hstat.
    rewrite run_call. cbn [trace]. fold dir. rewrite Hmk.
    unfold after. cbn. by rewrite <- app_assoc.
  - intros err Hstat Hmk Hch. rewrite Hstat.
    rewrite run_call. cbn [trace]. fold dir. rewrite Hmk.
    rewrite run_call. cbn [trace]. rewrite <- app_assoc. cbn [Datatypes.app].
    rewrite Hch. unfold after. cbn. by rewrite <- app_assoc.
Qed.

Lemma Unpack_stops_at_first_failure_witness :
  let app := NewApp 7 "com.example.app" "play" "uk" "1.2.3" in
  let d := "/tmp/unpacked_apks/com.example.app/play/uk/1.2.3" in
  let parent := "/tmp/unpacked_apks/com.example.app/play/uk" in
  let apk := ApkPath TestWorld.cfg app in
  let app' := App.set_UnpackDir app d in
  (Unpack TestWorld.env_missing TestWorld.cfg app start).2
  = {| trace := [EvMkdirAll d; EvStat apk]; deferred := [] |}
  /\ Unpack TestWorldMore.env_not_owner TestWorld.cfg app start
     = (Ret (Some ErrPermission, app'),
        {| trace := [EvMkdirAll d; EvStat apk; EvMkdirAll parent;
                     EvChtimes parent];
           deferred := [] |}).
Proof.
  intros app d parent apk app'.
  set (st1 := {| trace := [EvMkdirAll d]; deferred := [] |}).
  split.
  - assert (Hout : OutDir TestWorld.env_missing TestWorld.cfg app start
                   = (Ret (d, app'), st1)) by (vm_compute; reflexivity).
    exact (proj1 (Unpack_stops_at_first_failure _ _ _ _ _ _ _ Hout)
             (PathError "stat" apk ENOENT) eq_refl).
  - assert (Hout : OutDir TestWorldMore.env_not_owner TestWorld.cfg app start
                   = (Ret (d, app'), st1)) by (vm_compute; reflexivity).
    exact (proj2 (proj2 (Unpack_stops_at_first_failure _ _ _ _ _ _ _ Hout))
             (PathError "chtimes" parent EACCES) eq_refl eq_refl eq_refl).
Defined.

(** [Unpack] makes the unpack directory before it looks at the package:
    for a fresh app whose package file cannot be examined, the
    directory has been made, and is recorded on the app that comes back
    with the error. *)
Theorem Unpack_makes_directory_before_validation env cfg app st err :
  App.UnpackDir app = "" -> App.Path app = "" ->
  let d := identity_dir cfg app in
  let apkPath := ApkPath cfg app in
  MkdirAll_ans env (trace st) d = None ->
  Stat_ans env (trace st ++ [EvMkdirAll d]) apkPath = Some err ->
  exists err',
    Unpack env cfg app st
    = (Ret (Some err', App.set_UnpackDir app d),
       after st [EvMkdirAll d; EvStat apkPath]).
Proof.
  intros Hu Hp d apkPath Hmk Hstat. unfold Unpack. fold apkPath.
  assert (Hout : OutDir env cfg app st
                 = (Ret (d, App.set_UnpackDir app d), after st [EvMkdirAll d])).
  { rewrite OutDir_identity by done. fold d. by rewrite Hmk. }
  rewrite (run_bind _ _ _ _ _ Hout). rewrite run_call.
  cbn [trace after]. rewrite Hstat.
  destruct (IsNotExist err); eexists;
    (unfold after; cbn; by rewrite <- app_assoc).
Qed.

Lemma Unpack_makes_directory_before_validation_witness :
  let app := NewApp 7 "com.example.app" "play" "uk" "1.2.3" in
  let d := "/tmp/unpacked_apks/com.example.app/play/uk/1.2.3" in
  exists err',
    Unpack TestWorld.env_missing TestWorld.cfg app start
    = (Ret (Some err', App.set_UnpackDir app d),
       {| trace := [EvMkdirAll d; EvStat (ApkPath TestWorld.cfg app)];
          deferred := [] |}).
Proof.
  intros app d.
  exact (Unpack_makes_directory_before_validation TestWorld.env_missing
           TestWorld.cfg app start
           (PathError "stat" (ApkPath TestWorld.cfg app) ENOENT)
           eq_refl eq_refl eq_refl eq_refl).
Defined.

(** ** Cleanup *)

(** [Cleanup] asks [OutDir] for the directory first. On an app that was
    never unpacked it therefore makes the directory and then removes
    it; it returns what [os.RemoveAll] returns. *)
Theorem Cleanup_fresh_app_makes_then_removes env cfg app st :
  App.UnpackDir app = "" -> App.Path app = "" ->
  MkdirAll_ans env (trace st) (identity_dir cfg app) = None ->
  let d := identity_dir cfg app in
  Cleanup env cfg app st
  = (Ret (RemoveAll_ans env (trace st ++ [EvMkdirAll d]) d,
          App.set_UnpackDir app d),
     after st [EvMkdirAll d; EvRemoveAll d]).
Proof.
  intros Hu Hp Hmk d. unfold Cleanup.
  assert (Hout : OutDir env cfg app st
                 = (Ret (d, App.set_UnpackDir app d), after st [EvMkdirAll d])).
  { rewrite OutDir_identity by done. by rewrite Hmk. }
  rewrite (run_bind _ _ _ _ _ Hout). rewrite run_call.
  unfold after. cbn. by rewrite <- app_assoc.
Qed.

Lemma Cleanup_fresh_app_makes_then_removes_witness :
  let app := NewApp 7 "com.example.app" "play" "uk" "1.2.3" in
  let d := "/tmp/unpacked_apks/com.example.app/play/uk/1.2.3" in
  Cleanup (TestWorld.env_ok 200 "" [] []) TestWorld.cfg app start
  = (Ret (None, App.set_UnpackDir app d),
     {| trace := [EvMkdirAll d; EvRemoveAll d]; deferred := [] |}).
Proof.
  intros app d.
  exact (Cleanup_fresh_app_makes_then_removes
           (TestWorld.env_ok 200 "" [] []) TestWorld.cfg app start
           eq_refl eq_refl eq_refl).
Defined.

(** [Cleanup] removes the directory but not its record on the app. A
    later [OutDir] returns the removed directory without making it
    again, and a later [Cleanup] is a single [os.RemoveAll] of it. *)
Theorem Cleanup_keeps_the_record env cfg app st err app' st' :
  os_contract env ->
  Cleanup env cfg app st = (Ret (err, app'), st') ->
  let d := App.UnpackDir app' in
  d <> ""
  /\ (exists tr, trace st' = tr ++ [EvRemoveAll d]
                 /\ err = RemoveAll_ans env tr d)
  /\ (forall env2 st2, OutDir env2 cfg app' st2 = (Ret (d, app'), st2))
  /\ (forall env2 st2,
        Cleanup env2 cfg app' st2
        = (Ret (RemoveAll_ans env2 (trace st2) d, app'),
           after st2 [EvRemoveAll d])).
Proof.
  intros Hc Hrun d. unfold Cleanup in Hrun.
  apply run_bind_inv in Hrun as ([d1 app1] & st1 & Hout & Hrun).
  destruct (OutDir_result _ _ _ _ _ _ _ Hc Hout) as [Hrec Hne].
  rewrite run_call in Hrun. injection Hrun as <- <- <-.
  subst d. rewrite Hrec.
  assert (Hlater : forall env2 st2,
             OutDir env2 cfg app1 st2 = (Ret (d1, app1), st2)).
  { intros env2 st2. rewrite <- Hrec. apply OutDir_recorded.
    by rewrite Hrec. }
  split; [done|]. split; [by exists (trace st1)|]. split; [done|].
  intros env2 st2. unfold Cleanup.
  rewrite (run_bind _ _ _ _ _ (Hlater env2 st2)). by rewrite run_call.
Qed.

Lemma Cleanup_keeps_the_record_witness :
  let env := TestWorld.env_ok 200 "" [] [] in
  let app := NewApp 7 "com.example.app" "play" "uk" "1.2.3" in
  let d := "/tmp/unpacked_apks/com.example.app/play/uk/1.2.3" in
  let app' := App.set_UnpackDir app d in
  os_contract env
  /\ Cleanup env TestWorld.cfg app start
     = (Ret (None, app'),
        {| trace := [EvMkdirAll d; EvRemoveAll d]; deferred := [] |})
  /\ forall env2 st2, OutDir env2 TestWorld.cfg app' st2 = (Ret (d, app'), st2).
Proof.
  intros env app d app'.
  assert (Hc : os_contract env) by apply os_contract_env_ok.
  assert (Hrun : Cleanup env TestWorld.cfg app start
                 = (Ret (None, app'),
                    {| trace := [EvMkdirAll d; EvRemoveAll d];
                       deferred := [] |})) by (vm_compute; reflexivity).
  split; [exact Hc|]. split; [exact Hrun|].
  exact (proj1 (proj2 (proj2
           (Cleanup_keeps_the_record env TestWorld.cfg app start None app' _
              Hc Hrun)))).
Defined.

End UnpackMore.

(* ===================================================================== *)
(** * More about GetJSON and GetHostGeoIP                                 *)
(* ===================================================================== *)

Module HttpMore.
Import util HttpSpec HttpMoreSpec UnpackSpec WorldFacts HttpFacts.

Lemma GetJSON_cases {T} env (dec : string -> T -> T * option error)
    url target st :
  http_contract env ->
  exists res,
    GetJSON env dec url target st
    = (Ret res,
       after st (EvGet url ::
                 if answered_200 (Get_ans env (trace st) url)
                 then [EvClose (length (trace st))] else []))
    /\ (answered_200 (Get_ans env (trace st) url) = false ->
        res.1 = target /\ res.2 <> None).
Proof.
  intros Hc. specialize (Hc (trace st) url). unfold after.
  destruct (Get_ans env (trace st) url) as [r [err|]] eqn:Hget.
  - assert (Hno : answered_200 (r, Some err) = false) by (by destruct r).
    rewrite Hno. eexists. split; [by eapply GetJSON_error|]. done.
  - destruct r as [r|]; [|done]. cbn [answered_200].
    destruct (decide (StatusCode r = StatusOK)) as [Hst|Hst].
    + destruct (Body r) as [body|] eqn:Hbody; [|done].
      rewrite bool_decide_eq_true_2 by done.
      eexists. split; [by eapply GetJSON_200_closes|]. done.
    + rewrite bool_decide_eq_false_2 by done.
      eexists. split; [by eapply GetJSON_status_returns_early|]. done.
Qed.

(** [GetJSON] sends one GET and returns. It closes the body exactly
    when the answer came without an error and with status 200; in every
    other case it returns an error and leaves the target as it was. *)
Theorem GetJSON_closes_iff_200 {T} env (dec : string -> T -> T * option error)
    url target st :
  http_contract env ->
  exists res st',
    GetJSON env dec url target st = (Ret res, st')
    /\ deferred st' = deferred st
    /\ gets (drop (length (trace st)) (trace st')) = [url]
    /\ closes (drop (length (trace st)) (trace st'))
       = (if answered_200 (Get_ans env (trace st) url)
          then [length (trace st)] else [])
    /\ (answered_200 (Get_ans env (trace st) url) = false ->
        res.1 = target /\ res.2 <> None).
Proof.
  intros Hc. destruct (GetJSON_cases env dec url target st Hc) as (res & Hrun & Herr).
  eexists res, _. split; [exact Hrun|]. split; [done|].
  cbn [after trace]. rewrite drop_app_length.
  by destruct (answered_200 _).
Qed.

Lemma GetJSON_closes_iff_200_witness :
  let env := TestWorld.env_ok 503 "busy" [] [] in
  http_contract env
  /\ exists res st',
       GetJSON env (DecodeGeoIP env) "http://geoip/192.0.2.1"
         GeoIPInfo.zero start = (Ret res, st')
       /\ closes (drop 0 (trace st')) = []
       /\ res.1 = GeoIPInfo.zero /\ res.2 <> None.
Proof.
  intros env.
  assert (Hc : http_contract env) by (intros tr url; discriminate).
  split; [exact Hc|].
  destruct (GetJSON_closes_iff_200 env (DecodeGeoIP env)
              "http://geoip/192.0.2.1" GeoIPInfo.zero start Hc)
    as (res & st' & Hrun & _ & _ & Hcl & Herr).
  exists res, st'. split; [exact Hrun|]. split; [exact Hcl|].
  exact (Herr eq_refl).
Defined.

Lemma gets_app tr1 tr2 : gets (tr1 ++ tr2) = gets tr1 ++ gets tr2.
Proof. apply omap_app. Qed.

Lemma GetHostGeoIP_loop_gets env geoipHost :
  http_contract env ->
  forall (addrs : list string) (ret : list GeoIPInfo.t) (st : State),
  exists l new,
    GetHostGeoIP_loop env geoipHost addrs ret st = (Ret l, after st new)
    /\ gets new = map (geo_url env geoipHost) addrs
    /\ (addrs = [] -> l = ret /\ new = []).
Proof.
  intros Hc addrs. induction addrs as [|addr addrs IH]; intros ret st.
  - exists ret, []. unfold after. rewrite app_nil_r. by destruct st.
  - destruct (GetJSON_cases env (DecodeGeoIP env)
                (geo_url env geoipHost addr) GeoIPInfo.zero st Hc)
      as ([inf err] & Hrun & _).
    set (new1 := EvGet (geo_url env geoipHost addr) :: _) in Hrun.
    assert (Hg1 : gets new1 = [geo_url env geoipHost addr]).
    { subst new1. by destruct (answered_200 _). }
    cbn [GetHostGeoIP_loop]. fold (geo_url env geoipHost addr).
    rewrite (run_bind _ _ _ _ _ Hrun).
    destruct err as [err|].
    + rewrite run_emit.
      set (ev := EvPrint _).
      destruct (IH ret (after (after st new1) [ev])) as (l & new & Hloop & Hg & _).
      exists l, (new1 ++ [ev] ++ new). split; [|split; [|done]].
      * unfold after in *. cbn [trace deferred] in *. rewrite Hloop.
        by rewrite <- !app_assoc.
      * rewrite !gets_app, Hg1, Hg. reflexivity.
    + destruct (IH (append ret inf) (after st new1)) as (l & new & Hloop & Hg & _).
      exists l, (new1 ++ new). split; [|split; [|done]].
      * unfold after in *. cbn [trace deferred] in *. rewrite Hloop.
        by rewrite <- !app_assoc.
      * rewrite !gets_app, Hg1, Hg. reflexivity.
Qed.

(** After a successful DNS resolution [GetHostGeoIP] asks the
    geolocation service once for every address, in the order of the
    addresses and at [geoipHost/<escaped address>], whether earlier
    lookups failed or not. Without any address it asks nothing and
    returns an empty list, which is not nil, and no error. *)
Theorem GetHostGeoIP_one_request_per_address env geoipHost host st addrs :
  http_contract env ->
  LookupHost_ans env (trace st) host = (addrs, None) ->
  exists l new,
    GetHostGeoIP env geoipHost host st
    = (Ret (Some l, None), after st (EvLookupHost host :: new))
    /\ gets new = map (geo_url env geoipHost) addrs
    /\ (addrs = [] -> l = [] /\ new = []).
Proof.
  intros Hc Hdns. unfold GetHostGeoIP. rewrite run_call, Hdns.
  destruct (GetHostGeoIP_loop_gets env geoipHost Hc addrs []
              (after st [EvLookupHost host]))
    as (l & new & Hloop & Hg & Hnil).
  exists l, new. rewrite (run_bind _ _ _ _ _ Hloop).
  split; [|done]. unfold after. cbn. by rewrite <- app_assoc.
Qed.

Lemma GetHostGeoIP_one_request_per_address_witness :
  HttpSpec.http_contract TestWorld.env_geo
  /\ exists l new,
       GetHostGeoIP TestWorld.env_geo "http://geoip" "y.com" start
       = (Ret (Some l, None), after start (EvLookupHost "y.com" :: new))
       /\ gets new = ["http://geoip/192.0.2.1"; "http://geoip/192.0.2.2"].
Proof.
  assert (Hc : http_contract TestWorld.env_geo).
  { intros tr url. simpl. destruct (decide (url = "http://geoip/192.0.2.2"));
      [exact I | discriminate]. }
  split; [exact Hc|].
  destruct (GetHostGeoIP_one_request_per_address TestWorld.env_geo
              "http://geoip" "y.com" start
              ["192.0.2.1"; "192.0.2.2"] Hc eq_refl)
    as (l & new & Hrun & Hg & _).
  exists l, new. split; [exact Hrun|exact Hg].
Defined.

End HttpMore.

(* ===================================================================== *)
(** * The events a computation can add                                    *)
(* ===================================================================== *)

Module EventFacts.
Import EventSpec WorldFacts.

Section Rules.
Context {A B : Type} (P : Event -> Prop).

Lemma emits_only_ret (x : A) : emits_only P (mret x : IO A).
Proof. intros st. exists []. by rewrite app_nil_r. Qed.

Lemma emits_only_panic : emits_only P (panic : IO A).
Proof. intros st. exists []. by rewrite app_nil_r. Qed.

Lemma emits_only_read (f : State -> A) :
  emits_only P (fun st => (Ret (f st), st)).
Proof. intros st. exists []. by rewrite app_nil_r. Qed.

Lemma emits_only_defer (h : nat) : emits_only P (defer_Close h).
Proof. intros st. exists []. by rewrite app_nil_r. Qed.

Lemma emits_only_emit (e : Event) : P e -> emits_only P (emit e).
Proof. intros He st. exists [e]. split; [done|]. by constructor. Qed.

Lemma emits_only_call (ans : list Event -> A) (e : Event) :
  P e -> emits_only P (call ans e).
Proof. intros He st. exists [e]. split; [done|]. by constructor. Qed.

Lemma emits_only_bind (m : IO A) (k : A -> IO B) :
  emits_only P m -> (forall x, emits_only P (k x)) ->
  emits_only P (m ≫= k).
Proof.
  intros Hm Hk st. destruct (Hm st) as (new1 & Ht1 & Hp1).
  unfold mbind, IO_bind. destruct (m st) as [[x| | |] st1];
    cbn [snd] in Ht1; try (by exists new1).
  destruct (Hk x st1) as (new2 & Ht2 & Hp2).
  exists (new1 ++ new2). split; [|by apply Forall_app].
  by rewrite Ht2, Ht1, app_assoc.
Qed.

Lemma emits_only_func (body : IO A) :
  (forall h, P (EvClose h)) -> emits_only P body -> emits_only P (func body).
Proof.
  intros Hc Hb st.
  destruct (Hb {| trace := trace st; deferred := [] |}) as (new & Ht & Hp).
  unfold func. destruct (body _) as [r st1]. cbn [snd trace] in *.
  destruct r; cbn [trace run_deferred].
  - exists (new ++ map EvClose (deferred st1)).
    split; [by rewrite Ht, app_assoc|].
    apply Forall_app. split; [done|]. apply Forall_map.
    by apply Forall_true.
  - exists (new ++ map EvClose (deferred st1)).
    split; [by rewrite Ht, app_assoc|].
    apply Forall_app. split; [done|]. apply Forall_map.
    by apply Forall_true.
  - by exists new.
  - by exists new.
Qed.

End Rules.

End EventFacts.

(* ===================================================================== *)
(** * More about the mapper's [main]                                      *)
(* ===================================================================== *)

Module mapperMore.
Import mapper mapperSpec mapperMoreSpec HttpMoreSpec EventSpec.
Import WorldFacts mapperFacts EventFacts.

Lemma main_request_answered_or_panic env (d : TrackerMapperRequest.t) :
  NewRequest_ans env "POST" hosts_url = None ->
  answered_or_panic env (main_request env d).
Proof.
  intros Hnew st. unfold main_request, NewRequest. rewrite Hnew.
  set (req := Header_Set _ _ _).
  unfold ended_at_unanswered, has_response.
  unfold mbind, IO_bind, mret, IO_ret, call, emit, panic, defer_Close. cbn.
  destruct (Do_ans env (trace st) req) as [resp err] eqn:Hans.
  destruct resp as [resp|]; [destruct (Body resp) as [body|] eqn:Hbody|].
  - destruct (DecodeCompany env body TrackerMapperCompany.zero)
      as [company derr] eqn:Hdec.
    destruct err as [err|]; destruct derr as [derr|]; cbn;
      eexists _, _; left; (split; [by rewrite <- ?app_assoc|]);
      cbn; rewrite Hans; repeat constructor; by exists resp, body.
  - destruct err as [err|]; cbn;
      eexists _, _; right; (split; [by rewrite <- ?app_assoc|]);
      cbn; rewrite Hans; exists []; eexists; (split; [reflexivity|]);
      (split; [constructor|]);
      intros (r & b & Hr & Hb); cbn in Hr; injection Hr as <-; congruence.
  - destruct err as [err|]; cbn;
      eexists _, _; right; (split; [by rewrite <- ?app_assoc|]);
      cbn; rewrite Hans; exists []; eexists; (split; [reflexivity|]);
      (split; [constructor|]);
      intros (r & b & Hr & Hb); discriminate Hr.
Qed.

Lemma ended_at_unanswered_app env past new1 new2 :
  Forall has_response (answers env past new1) ->
  ended_at_unanswered env (past ++ new1) new2 ->
  ended_at_unanswered env past (new1 ++ new2).
Proof.
  intros Ha (prior & ans & Heq & Hprior & Hno).
  exists (answers env past new1 ++ prior), ans.
  split; [by rewrite answers_app, Heq, app_assoc|].
  split; [by apply Forall_app|done].
Qed.

Lemma answered_or_panic_seq env (m1 m2 : IO unit) :
  answered_or_panic env m1 -> answered_or_panic env m2 ->
  answered_or_panic env (m1 ;; m2).
Proof.
  intros H1 H2 st.
  destruct (H1 st) as (new1 & dfr1 & [[Hr1 Ha1]|[Hp1 He1]]).
  - destruct (H2 {| trace := trace st ++ new1; deferred := dfr1 |})
      as (new2 & dfr2 & [[Hr2 Ha2]|[Hp2 He2]]); cbn [trace] in *;
      exists (new1 ++ new2), dfr2; rewrite (run_bind _ _ _ _ _ Hr1).
    + left. split; [by rewrite app_assoc|].
      rewrite answers_app. by apply Forall_app.
    + right. split; [by rewrite app_assoc|].
      by apply ended_at_unanswered_app.
  - exists new1, dfr1. right. split; [|done].
    by apply run_bind_panic.
Qed.

Lemma main_hosts_answered_or_panic env (d : TrackerMapperRequest.t) (todo : nat) :
  NewRequest_ans env "POST" hosts_url = None ->
  answered_or_panic env (main_hosts env d todo).
Proof.
  intros Hnew. induction todo as [|todo IH].
  - intros st. exists [], (deferred st). left. cbn.
    rewrite app_nil_r. split; [by destruct st|constructor].
  - cbn [main_hosts]. apply answered_or_panic_seq; [|done].
    by apply main_request_answered_or_panic.
Qed.

Lemma main_apps_answered_or_panic env (ids : list Z) :
  NewRequest_ans env "POST" hosts_url = None ->
  answered_or_panic env (main_apps env ids).
Proof.
  intros Hnew. induction ids as [|id ids IH].
  - intros st. exists [], (deferred st). left. cbn.
    rewrite app_nil_r. split; [by destruct st|constructor].
  - intros st. cbn [main_apps]. rewrite run_call.
    destruct (GetAppHostsByID_ans env (trace st) id) as [rec err].
    set (st1 := {| trace := trace st ++ [EvGetAppHostsByID id];
                   deferred := deferred st |}).
    destruct (answered_or_panic_seq env _ _
                (main_hosts_answered_or_panic env
                   {| TrackerMapperRequest.HostNames :=
                        AppHostRecord.HostNames rec |}
                   (length (AppHostRecord.HostNames rec)) Hnew)
                IH st1)
      as (new & dfr & [[Hr Ha]|[Hp He]]); cbn [trace st1] in *;
      exists ([EvGetAppHostsByID id] ++ new), dfr.
    + left. split; [by rewrite Hr, <- app_assoc|]. done.
    + right. split; [by rewrite Hp, <- app_assoc|].
      apply ended_at_unanswered_app; [constructor|done].
Qed.

(** [main] returns only when every request was answered with a
    response that has a body. Otherwise it panics, and it does so right
    after the first request that was not answered so: no later request
    is sent. *)
Theorem main_panics_at_first_unanswered_request env :
  NewRequest_ans env "POST" hosts_url = None ->
  exists st',
    (main env start = (Ret tt, st')
     /\ Forall has_response (answers env [] (trace st')))
    \/ (main env start = (Panic, st')
        /\ ended_at_unanswered env [] (trace st')).
Proof.
  intros Hnew. unfold main, func. rewrite run_call. cbn [trace deferred start].
  destruct (GetAppHostIDs_ans env []) as [ids err].
  destruct (main_apps_answered_or_panic env ids Hnew
              {| trace := [] ++ [EvGetAppHostIDs]; deferred := [] |})
    as (new & dfr & [[Hr Ha]|[Hp He]]); cbn [trace] in *.
  - rewrite Hr. eexists. left. split; [reflexivity|].
    cbn [trace deferred run_deferred]. rewrite <- app_assoc.
    rewrite (answers_app env [] ([] ++ [EvGetAppHostIDs])).
    rewrite (answers_app env _ new), answers_closes, app_nil_r. exact Ha.
  - rewrite Hp. eexists. right. split; [reflexivity|].
    cbn [trace deferred run_deferred]. rewrite <- app_assoc.
    apply (ended_at_unanswered_app env [] ([] ++ [EvGetAppHostIDs]));
      [constructor|].
    destruct He as (prior & ans & Heq & Hprior & Hno).
    exists prior, ans. split; [|done].
    by rewrite (answers_app env _ new), answers_closes, app_nil_r.
Qed.

Lemma main_panics_at_first_unanswered_request_witness :
  let env := TestWorld.env_refused [1] ["x.com"; "y.com"] in
  exists st',
    (main env start = (Ret tt, st')
     /\ Forall has_response (answers env [] (trace st')))
    \/ (main env start = (Panic, st')
        /\ ended_at_unanswered env [] (trace st')).
Proof.
  intros env.
  exact (main_panics_at_first_unanswered_request env eq_refl).
Defined.

(** ** The events of [main] *)

Lemma emits_only_panic_bind {A B} (P : Event -> Prop) (k : A -> IO B) :
  emits_only P (panic ≫= k).
Proof. intros st. exists []. by rewrite app_nil_r. Qed.

(** When the request cannot be formed, the loop body panics at once. *)
Lemma main_request_unformed env (d : TrackerMapperRequest.t) (P : Event -> Prop) :
  NewRequest_ans env "POST" hosts_url <> None ->
  emits_only P (main_request env d).
Proof.
  intros Hnew. unfold main_request, NewRequest.
  destruct (NewRequest_ans env "POST" hosts_url) as [e|]; [|done].
  apply emits_only_panic_bind.
Qed.

(** The events of the loop body when the request can be formed. *)
Lemma main_request_formed env (d : TrackerMapperRequest.t) (P : Event -> Prop) :
  NewRequest_ans env "POST" hosts_url = None ->
  (forall req, P (EvDo req)) ->
  (forall msg, msg <> forming_message -> P (EvLogErr msg)) ->
  (forall msg, P (EvLogDebug msg)) ->
  emits_only P (main_request env d).
Proof.
  intros Hnew Hdo Hlog Hdebug. unfold main_request, NewRequest. rewrite Hnew.
  apply emits_only_bind; [apply emits_only_ret|intros req].
  apply emits_only_bind; [apply emits_only_ret|intros _].
  apply emits_only_bind; [apply emits_only_read|intros h].
  apply emits_only_bind; [by apply emits_only_call|intros [resp err]].
  apply emits_only_bind.
  { destruct err; [|apply emits_only_ret].
    apply emits_only_emit. by apply Hlog. }
  intros _. apply emits_only_bind.
  { destruct resp; [apply emits_only_ret|apply emits_only_panic]. }
  intros r. apply emits_only_bind.
  { destruct (Body r); [apply emits_only_defer|apply emits_only_ret]. }
  intros _. apply emits_only_bind.
  { destruct (Body r); [apply emits_only_ret|apply emits_only_panic]. }
  intros body. destruct (DecodeCompany env body _) as [company derr].
  apply emits_only_bind.
  { destruct derr; [|apply emits_only_ret].
    apply emits_only_emit. by apply Hlog. }
  intros _. by apply emits_only_emit.
Qed.

Lemma main_emits env (P : Event -> Prop) :
  (forall d, emits_only P (main_request env d)) ->
  P EvGetAppHostIDs -> (forall id, P (EvGetAppHostsByID id)) ->
  (forall h, P (EvClose h)) ->
  emits_only P (main env).
Proof.
  intros Hreq Hids Hrec Hclose.
  assert (Hhosts : forall d todo, emits_only P (main_hosts env d todo)).
  { intros d todo. induction todo as [|todo IH]; [apply emits_only_ret|].
    cbn [main_hosts]. by apply emits_only_bind. }
  assert (Happs : forall ids, emits_only P (main_apps env ids)).
  { intros ids. induction ids as [|id ids IH]; [apply emits_only_ret|].
    cbn [main_apps].
    apply emits_only_bind; [by apply emits_only_call|intros [rec err]].
    by apply emits_only_bind. }
  unfold main. apply emits_only_func; [done|].
  apply emits_only_bind; [by apply emits_only_call|intros [ids err]].
  apply Happs.
Qed.

Lemma errors_logged_none (msg : string) (new : list Event) :
  Forall (fun e => e <> EvLogErr msg) new -> msg ∉ errors_logged new.
Proof.
  intros Hall Hin. apply list_elem_of_omap in Hin as (e & He & Hmsg).
  rewrite Forall_forall in Hall. specialize (Hall e He).
  destruct e; try discriminate Hmsg. injection Hmsg as ->. by apply Hall.
Qed.

Lemma requests_none (new : list Event) :
  Forall (fun e => forall req, e <> EvDo req) new -> requests new = [].
Proof.
  induction 1 as [|e new He _ IH]; [done|].
  cbn. destruct e; try exact IH. by destruct (He req).
Qed.

(** The check behind [http.NewRequest] in [main] is dead. Its message
    is never logged, in any world: when the request cannot be formed,
    [req] is nil and [req.Header.Set], which comes before the check,
    panics; so in that case no request is ever sent either. *)
Theorem main_forming_check_is_dead env :
  (forming_message ∉ errors_logged (trace (main env start).2))
  /\ (NewRequest_ans env "POST" hosts_url <> None ->
      requests (trace (main env start).2) = []).
Proof.
  split.
  - destruct (decide (NewRequest_ans env "POST" hosts_url = None)) as [Hnew|Hnew].
    + destruct (main_emits env (fun e => e <> EvLogErr forming_message))
        with (st := start) as (new & -> & Hall); try done.
      * intros d. apply main_request_formed; try done.
        intros msg Hne Heq. by injection Heq.
      * by apply errors_logged_none.
    + destruct (main_emits env (fun e => e <> EvLogErr forming_message))
        with (st := start) as (new & -> & Hall); try done.
      * intros d. by apply main_request_unformed.
      * by apply errors_logged_none.
  - intros Hnew.
    destruct (main_emits env (fun e => forall req, e <> EvDo req))
      with (st := start) as (new & -> & Hall); try done.
    + intros d. by apply main_request_unformed.
    + by apply requests_none.
Qed.

Lemma main_forming_check_is_dead_witness :
  let env := TestWorldMore.env_bad_url [1] ["x.com"] in
  NewRequest_ans env "POST" hosts_url <> None
  /\ requests (trace (main env start).2) = []
  /\ (main env start).1 = Panic.
Proof.
  intros env.
  assert (H : NewRequest_ans env "POST" hosts_url <> None) by discriminate.
  split; [exact H|]. split; [|reflexivity].
  exact (proj2 (main_forming_check_is_dead env) H).
Defined.

(** ** When the bodies are closed *)










End mapperMore.

(* ===================================================================== *)
(** * Properties of the maps of strings                                   *)
(* ===================================================================== *)

Module mapsFacts.
Import maps.

(** The table that the assignments of [keys] make of [t]. *)
Lemma assign_all_table (order : list string) :
  forall (h : heap) (l : nat) (t : table),
    h !! l = Some t ->
    exists t',
      assign_all h (Some l) order = Ret (<[l := t']> h)
      /\ forall k, t' !! k = if decide (k ∈ order) then Some unit else t !! k.
Proof.
  induction order as [|e order IH]; intros h l t Hl.
  - exists t. split; [by rewrite insert_id|].
    intros k. rewrite decide_False; [done|apply not_elem_of_nil].
  - cbn [assign_all assign]. rewrite Hl. cbn.
    destruct (IH (<[l := <[e := unit]> t]> h) l (<[e := unit]> t))
      as (t' & Hrun & Hlook); [by rewrite lookup_insert_eq|].
    exists t'. rewrite Hrun, insert_insert_eq. split; [done|].
    intros k. rewrite Hlook.
    destruct (decide (k ∈ order)) as [Hin|Hnin].
    + rewrite decide_True; [done|by right].
    + destruct (decide (k = e)) as [->|Hne].
      * rewrite decide_True by (by left). by rewrite lookup_insert_eq.
      * rewrite decide_False.
        -- by rewrite lookup_insert_ne.
        -- intros Hin. apply elem_of_cons in Hin as [?|?]; done.
Qed.

Lemma Combine_union_aux
    (order : list string) (h : heap) (la lb : nat) (ta tb : table) :
  h !! la = Some ta -> h !! lb = Some tb ->
  order ≡ₚ elements (keys h (Some lb)) ->
  Combine order h (Some la) (Some lb) = Ret (Some la, <[la := ta ∪ tb]> h).
Proof.
  intros Ha Hb Hperm. unfold Combine. cbn [keys] in Hperm. rewrite Hb in Hperm.
  destruct (assign_all_table order h la ta Ha) as (t' & Hrun & Hlook).
  rewrite Hrun. cbn. do 3 f_equal.
  apply map_eq. intros k. rewrite Hlook, lookup_union.
  destruct (decide (k ∈ order)) as [Hin|Hnin].
  - rewrite Hperm, elem_of_elements, elem_of_dom in Hin.
    destruct Hin as [u Hu]. rewrite Hu.
    destruct (ta !! k) as [[]|]; by destruct u.
  - rewrite Hperm, elem_of_elements, not_elem_of_dom in Hnin.
    rewrite Hnin. by destruct (ta !! k).
Qed.

(** [Combine(a, b)] returns [a] itself: the table that [a] refers to
    receives the keys of [b], in whatever order [range] visits them, and
    every holder of [a] sees them. No other table changes; in
    particular [b] keeps its keys. *)
Theorem Combine_returns_its_first_argument
    (order : list string) (h : heap) (la lb : nat) (ta tb : table) :
  h !! la = Some ta -> h !! lb = Some tb ->
  order ≡ₚ elements (keys h (Some lb)) ->
  Combine order h (Some la) (Some lb) = Ret (Some la, <[la := ta ∪ tb]> h)
  /\ dom (ta ∪ tb) = dom ta ∪ dom tb
  /\ (la <> lb -> <[la := ta ∪ tb]> h !! lb = Some tb).
Proof.
  intros Ha Hb Hperm. split; [by apply Combine_union_aux|].
  split; [apply dom_union_L|].
  intros Hne. by rewrite lookup_insert_ne.
Qed.

Lemma Combine_returns_its_first_argument_witness :
  let h : heap := <[0%nat := {["a" := unit]}]> (<[1%nat := {["b" := unit]}]> ∅) in
  h !! 0%nat = Some {["a" := unit]} /\ h !! 1%nat = Some {["b" := unit]}
  /\ Combine ["b"] h (Some 0%nat) (Some 1%nat)
     = Ret (Some 0%nat, <[0%nat := {["a" := unit]} ∪ {["b" := unit]}]> h).
Proof.
  intros h.
  assert (Ha : h !! 0%nat = Some ({["a" := unit]} : table)) by reflexivity.
  assert (Hb : h !! 1%nat = Some ({["b" := unit]} : table)) by reflexivity.
  assert (Hp : ["b"] ≡ₚ elements (keys h (Some 1%nat)))
    by (vm_compute; reflexivity).
  split; [exact Ha|]. split; [exact Hb|].
  exact (proj1 (Combine_returns_its_first_argument ["b"] h 0 1 _ _ Ha Hb Hp)).
Defined.

(** [Combine] into the nil map panics as soon as [b] has a key, at the
    first assignment; when [b] has no key, or is nil itself, [Combine]
    returns nil and leaves the heap as it is. *)
Theorem Combine_into_nil_map (order : list string) (h : heap) (b : mapref) :
  order ≡ₚ elements (keys h b) ->
  (keys h b <> ∅ -> Combine order h None b = Panic)
  /\ (keys h b = ∅ -> Combine order h None b = Ret (None, h)).
Proof.
  intros Hperm. split.
  - intros Hne. destruct order as [|e order]; [|done].
    apply Permutation_nil_l in Hperm. symmetry in Hperm.
    apply elements_empty_inv in Hperm. apply leibniz_equiv in Hperm. done.
  - intros Hempty. rewrite Hempty, elements_empty in Hperm.
    apply Permutation_nil_r in Hperm. by subst order.
Qed.

Lemma Combine_into_nil_map_witness :
  let h : heap := <[1%nat := {["b" := unit]}]> ∅ in
  ["b"] ≡ₚ elements (keys h (Some 1%nat))
  /\ Combine ["b"] h None (Some 1%nat) = Panic.
Proof.
  intros h.
  assert (Hp : ["b"] ≡ₚ elements (keys h (Some 1%nat)))
    by (vm_compute; reflexivity).
  split; [exact Hp|].
  apply (proj1 (Combine_into_nil_map ["b"] h (Some 1%nat) Hp)).
  intros Hempty. apply (f_equal elements) in Hempty.
  vm_compute in Hempty. discriminate Hempty.
Defined.

Lemma StrMap_is_a_fresh_set_aux (h : heap) (args : list string) :
  exists (l : nat) (t : table),
    StrMap h args = Ret (Some l, <[l := t]> h)
    /\ h !! l = None
    /\ dom t = list_to_set args.
Proof.
  unfold StrMap, make. set (l := fresh (dom h)).
  assert (Hfresh : h !! l = None).
  { apply not_elem_of_dom. apply is_fresh. }
  destruct (assign_all_table args (<[l := ∅]> h) l ∅) as (t & Hrun & Hlook);
    [by rewrite lookup_insert_eq|].
  exists l, t. rewrite Hrun, insert_insert_eq. cbn.
  split; [done|]. split; [done|].
  apply set_eq. intros k. rewrite elem_of_dom, Hlook, elem_of_list_to_set.
  destruct (decide (k ∈ args)) as [Hin|Hnin].
  - split; [done|]. intros _. by exists unit.
  - rewrite lookup_empty. split; [by intros [? ?]|done].
Qed.

(** [StrMap(args...)] never panics. It returns a new map, at an address
    that no map had before, whose keys are exactly the arguments; the
    maps that existed stay as they were. *)
Theorem StrMap_is_a_fresh_set (h : heap) (args : list string) :
  exists (l : nat) (t : table),
    StrMap h args = Ret (Some l, <[l := t]> h)
    /\ h !! l = None
    /\ dom t = list_to_set args
    /\ forall l', l' <> l -> <[l := t]> h !! l' = h !! l'.
Proof.
  destruct (StrMap_is_a_fresh_set_aux h args) as (l & t & Hrun & Hl & Ht).
  exists l, t. split; [done|]. split; [done|]. split; [done|].
  intros l' Hne. by rewrite lookup_insert_ne.
Qed.

Lemma StrMap_is_a_fresh_set_witness :
  exists (l : nat) (t : table),
    StrMap ∅ ["a"; "b"; "a"] = Ret (Some l, <[l := t]> ∅)
    /\ dom t = list_to_set ["a"; "b"; "a"]
    /\ (<[l := t]> ∅ : heap) !! S l = (∅ : heap) !! S l.
Proof.
  destruct (StrMap_is_a_fresh_set ∅ ["a"; "b"; "a"])
    as (l & t & Hrun & _ & Hdom & Hother).
  exists l, t. split; [exact Hrun|]. split; [exact Hdom|].
  apply Hother. apply Nat.neq_succ_diag_l.
Defined.

(** [Combine(StrMap(xs...), StrMap(ys...))] is the first of the two maps,
    now with exactly the strings of [xs] and [ys] as keys; the second
    map keeps its own keys. *)
Theorem Combine_of_StrMaps (h : heap) (xs ys : list string) :
  exists (la lb : nat) (h1 h2 : heap),
    StrMap h xs = Ret (Some la, h1)
    /\ StrMap h1 ys = Ret (Some lb, h2)
    /\ la <> lb
    /\ forall order,
         order ≡ₚ elements (keys h2 (Some lb)) ->
         exists t : table,
           Combine order h2 (Some la) (Some lb) = Ret (Some la, <[la := t]> h2)
           /\ dom t = list_to_set (xs ++ ys)
           /\ keys (<[la := t]> h2) (Some lb) = list_to_set ys.
Proof.
  destruct (StrMap_is_a_fresh_set_aux h xs) as (la & ta & Hxs & Hla & Hta).
  destruct (StrMap_is_a_fresh_set_aux (<[la := ta]> h) ys)
    as (lb & tb & Hys & Hlb & Htb).
  assert (Hne : la <> lb).
  { intros <-. by rewrite lookup_insert_eq in Hlb. }
  exists la, lb, (<[la := ta]> h), (<[lb := tb]> (<[la := ta]> h)).
  split; [done|]. split; [done|]. split; [done|].
  intros order Hperm.
  assert (Ha : <[lb := tb]> (<[la := ta]> h) !! la = Some ta).
  { rewrite lookup_insert_ne by done. by rewrite lookup_insert_eq. }
  assert (Hb : <[lb := tb]> (<[la := ta]> h) !! lb = Some tb)
    by (by rewrite lookup_insert_eq).
  exists (ta ∪ tb).
  split; [by apply Combine_union_aux|]. split.
  - rewrite dom_union_L, Hta, Htb. apply set_eq. intros k.
    rewrite elem_of_union, !elem_of_list_to_set, elem_of_app. done.
  - cbn [keys]. rewrite lookup_insert_ne by done. by rewrite Hb.
Qed.

Lemma Combine_of_StrMaps_witness :
  exists (la lb : nat) (h1 h2 : heap) (t : table),
    StrMap ∅ ["a"; "b"] = Ret (Some la, h1)
    /\ StrMap h1 ["b"; "c"] = Ret (Some lb, h2)
    /\ Combine (elements (keys h2 (Some lb))) h2 (Some la) (Some lb)
       = Ret (Some la, <[la := t]> h2)
    /\ dom t = list_to_set (["a"; "b"] ++ ["b"; "c"]).
Proof.
  destruct (Combine_of_StrMaps ∅ ["a"; "b"] ["b"; "c"])
    as (la & lb & h1 & h2 & Hxs & Hys & _ & Hall).
  destruct (Hall (elements (keys h2 (Some lb)))) as (t & Hrun & Hdom & _);
    [reflexivity|].
  exists la, lb, h1, h2, t. repeat split; assumption.
Defined.

End mapsFacts.

(* ===================================================================== *)
(** * Properties of WriteJSON and WriteDEAN                               *)
(* ===================================================================== *)

Module jsonioFacts.
Import jsonio jsonioSpec.

(** [WriteJSON] into a buffer appends the encoding and a newline and
    returns no error; when the data cannot be encoded it returns the
    error of the encoder and the buffer stays as it was. Into a writer
    that fails it returns the error of the writer, after one attempt. *)
Theorem WriteJSON_writes_one_line {T} (marshal : T -> string * option error)
    (data : T) :
  (forall buf b,
      marshal data = (b, None) ->
      WriteJSON buffer marshal buf data = (buf +:+ b +:+ newline, None))
  /\ (forall buf b err,
      marshal data = (b, Some err) ->
      WriteJSON buffer marshal buf data = (buf, Some err))
  /\ (forall werr tried b,
      marshal data = (b, None) ->
      WriteJSON (broken werr) marshal tried data
      = (tried ++ [b +:+ newline], Some werr)).
Proof.
  unfold WriteJSON. split; [|split].
  - intros buf b Hm. by rewrite Hm.
  - intros buf b err Hm. by rewrite Hm.
  - intros werr tried b Hm. by rewrite Hm.
Qed.

Lemma WriteJSON_writes_one_line_witness :
  let marshal := fun n : nat =>
    if decide (n = 0%nat) then ("", Some (ErrorString "unsupported value"))
    else ("{}", None) in
  WriteJSON buffer marshal "log:" 1%nat = ("log:{}" +:+ newline, None)
  /\ WriteJSON buffer marshal "log:" 0%nat
     = ("log:", Some (ErrorString "unsupported value")).
Proof.
  intros marshal. split.
  - exact (proj1 (WriteJSON_writes_one_line marshal 1%nat) "log:" "{}" eq_refl).
  - exact (proj1 (proj2 (WriteJSON_writes_one_line marshal 0%nat))
             "log:" "" (ErrorString "unsupported value") eq_refl).
Defined.

(** [WriteDEAN] into a buffer appends [Nah], the encoding and [mate.],
    the first two with a newline each. When the data cannot be encoded
    it appends [Nah] and [mate.] alone, and this too without an
    error. *)
Theorem WriteDEAN_output {T} (marshal : T -> string * option error)
    (data : T) (buf : string) :
  (forall b,
      marshal data = (b, None) ->
      WriteDEAN buffer marshal buf data
      = (buf +:+ "Nah" +:+ newline +:+ b +:+ newline +:+ "mate.", None))
  /\ (forall b err,
      marshal data = (b, Some err) ->
      WriteDEAN buffer marshal buf data
      = (buf +:+ "Nah" +:+ newline +:+ "mate.", None)).
Proof.
  unfold WriteDEAN, WriteJSON. cbn [Write buffer]. split.
  - intros b Hm. rewrite Hm. cbn [Write buffer].
    by rewrite !pathFacts.append_assoc.
  - intros b err Hm. rewrite Hm.
    by rewrite !pathFacts.append_assoc.
Qed.

Lemma WriteDEAN_output_witness :
  let marshal := fun n : nat =>
    if decide (n = 0%nat) then ("", Some (ErrorString "unsupported value"))
    else ("{}", None) in
  WriteDEAN buffer marshal "" 1%nat
  = ("Nah" +:+ newline +:+ "{}" +:+ newline +:+ "mate.", None)
  /\ WriteDEAN buffer marshal "" 0%nat
     = ("Nah" +:+ newline +:+ "mate.", None).
Proof.
  intros marshal. split.
  - exact (proj1 (WriteDEAN_output marshal 1%nat "") "{}" eq_refl).
  - exact (proj2 (WriteDEAN_output marshal 0%nat "")
             "" (ErrorString "unsupported value") eq_refl).
Defined.

(** [WriteDEAN] never returns an error, whatever the writer and the
    encoder do. Into a writer that fails every time it still tries all
    three writes, one after the other. *)
Theorem WriteDEAN_swallows_errors {T} (marshal : T -> string * option error)
    (data : T) :
  (forall (wr : Writer) (w : state wr), (WriteDEAN wr marshal w data).2 = None)
  /\ (forall werr tried b,
      marshal data = (b, None) ->
      WriteDEAN (broken werr) marshal tried data
      = (tried ++ ["Nah" +:+ newline; b +:+ newline; "mate."], None)).
Proof.
  split.
  - intros wr w. unfold WriteDEAN.
    destruct (Write wr w _) as [w1 r1].
    destruct (WriteJSON wr marshal w1 data) as [w2 r2].
    by destruct (Write wr w2 _) as [w3 r3].
  - intros werr tried b Hm. unfold WriteDEAN, WriteJSON.
    cbn [Write broken]. rewrite Hm. cbn [Write broken].
    by rewrite <- !app_assoc.
Qed.

Lemma WriteDEAN_swallows_errors_witness :
  let marshal := fun n : nat => ("{}", @None error) in
  WriteDEAN (broken ErrPermission) marshal [] 1%nat
  = (["Nah" +:+ newline; "{}" +:+ newline; "mate."], None).
Proof.
  intros marshal.
  exact (proj2 (WriteDEAN_swallows_errors marshal 1%nat)
           ErrPermission [] "{}" eq_refl).
Defined.

End jsonioFacts.

(* ===================================================================== *)
(** * Properties of CheckDir and of config.Load                           *)
(* ===================================================================== *)

Module checkdirFacts.
Import checkdir UnpackSpec WorldFacts.

(** [CheckDir] returns in two cases only: the path is there and is a
    directory, and then nothing is made; or the path is not there and
    the directory could be made. In every other case (a path that is
    not a directory, a path that cannot be examined, a directory that
    cannot be made) it panics; it never ends the process itself. *)
Theorem CheckDir_returns_or_panics env IsDir_ans dir name st :
  let r := CheckDir env IsDir_ans dir name st in
  (r.1 = Ret tt \/ r.1 = Panic)
  /\ (r.1 = Ret tt <->
      (Stat_ans env (trace st) dir = None /\ IsDir_ans (trace st) dir = true
       /\ r.2 = after st [EvStat dir])
      \/ (exists err,
            Stat_ans env (trace st) dir = Some err /\ IsNotExist err = true
            /\ MkdirAll_ans env (trace st ++ [EvStat dir]) dir = None
            /\ r.2 = after st [EvStat dir; EvMkdirAll dir])).
Proof.
  unfold CheckDir. rewrite run_call. cbn zeta.
  destruct (Stat_ans env (trace st) dir) as [err|] eqn:Hstat.
  - destruct (IsNotExist err) eqn:Hne.
    + rewrite run_call. cbn [trace].
      destruct (MkdirAll_ans env (trace st ++ [EvStat dir]) dir) as [e|] eqn:Hmk.
      * split; [by right|]. split; [done|].
        intros [(H & _)|(err' & H1 & H2 & H3 & _)]; [done|done].
      * split; [by left|]. split; [|done]. intros _. right.
        exists err. repeat split; try done.
        unfold after. cbn. by rewrite <- app_assoc.
    + split; [by right|]. split; [done|].
      intros [(H & _)|(err' & H1 & H2 & _)]; [done|].
      injection H1 as <-. congruence.
  - destruct (IsDir_ans (trace st) dir) eqn:Hdir; cbn.
    + split; [by left|]. split; [|done]. intros _. by left.
    + split; [by right|]. split; [done|].
      intros [(_ & H & _)|(err' & H & _)]; done.
Qed.

End checkdirFacts.

Module configFacts.
Import config configSpec pathSpec pathFacts.

(** What [Load] makes of the configuration [c] that was decoded. *)
Lemma Load_decoded fs cfgFile bytes c :
  ReadAll_ans fs (Open_ans fs cfgFile).1 = (bytes, None) ->
  Unmarshal fs bytes Config.zero = (c, None) ->
  exists cfg out,
    Load fs cfgFile = Ret (cfg, out)
    /\ out = report cfg
    /\ Config.DataDir cfg = or_default (Config.DataDir c) "/usr/local/var/xray"
    /\ Config.AppDir cfg
       = path.Clean (path.Join [Config.DataDir cfg; "apps"])
    /\ Config.UnpackDir cfg
       = path.Clean (or_default (Config.UnpackDir c) "/tmp/unpacked_apks")
    /\ Config.SockPath cfg
       = path.Clean (or_default (Config.SockPath c) "/var/run/apkScraper")
    /\ Config.Analyzer cfg = Config.Analyzer c
    /\ Config.Db cfg = Config.Db c.
Proof.
  intros Hread Hdec. cbv beta delta [Load].
  destruct (Open_ans fs cfgFile) as [file oerr]. cbn [fst] in Hread.
  destruct (ReadAll_ans fs file) as [b rerr]. injection Hread as -> ->.
  destruct (Unmarshal fs bytes Config.zero) as [c' derr].
  injection Hdec as -> ->.
  destruct c as [dd ad ud sp an db].
  destruct dd as [|d1 dd], ud as [|u1 ud], sp as [|s1 sp];
    lazy -[path.Clean path.Join String.append tab newline];
    (eexists _, _; repeat split).
Qed.

(** [Load] returns only what it read and decoded. *)
Lemma Load_returns_inv fs cfgFile cfg out :
  Load fs cfgFile = Ret (cfg, out) ->
  exists bytes c,
    ReadAll_ans fs (Open_ans fs cfgFile).1 = (bytes, None)
    /\ Unmarshal fs bytes Config.zero = (c, None).
Proof.
  cbv beta delta [Load].
  destruct (Open_ans fs cfgFile) as [file oerr]. cbn [fst].
  destruct (ReadAll_ans fs file) as [bytes [rerr|]]; [done|].
  destruct (Unmarshal fs bytes Config.zero) as [c [derr|]] eqn:Hdec; [done|].
  intros _. by exists bytes, c.
Qed.

(** [Load] gives no error back: it returns a configuration or it
    panics. It returns exactly when the file could be read and decoded,
    and panics when the reading fails, as it does for a file that could
    not be opened, or when the decoding fails. *)
Theorem Load_returns_or_panics fs cfgFile :
  (Load fs cfgFile = Panic \/ exists cfg out, Load fs cfgFile = Ret (cfg, out))
  /\ ((exists cfg out, Load fs cfgFile = Ret (cfg, out)) <->
      exists bytes c,
        ReadAll_ans fs (Open_ans fs cfgFile).1 = (bytes, None)
        /\ Unmarshal fs bytes Config.zero = (c, None)).
Proof.
  assert (Hback : (exists bytes c,
            ReadAll_ans fs (Open_ans fs cfgFile).1 = (bytes, None)
            /\ Unmarshal fs bytes Config.zero = (c, None)) ->
          exists cfg out, Load fs cfgFile = Ret (cfg, out)).
  { intros (bytes & c & Hread & Hdec).
    destruct (Load_decoded fs cfgFile bytes c Hread Hdec)
      as (cfg & out & Hrun & _). by exists cfg, out. }
  split.
  - destruct (ReadAll_ans fs (Open_ans fs cfgFile).1) as [bytes [rerr|]] eqn:Hread.
    { left. cbv beta delta [Load].
      destruct (Open_ans fs cfgFile) as [file oerr]. cbn [fst] in Hread.
      by rewrite Hread. }
    destruct (Unmarshal fs bytes Config.zero) as [c [derr|]] eqn:Hdec.
    { left. cbv beta delta [Load].
      destruct (Open_ans fs cfgFile) as [file oerr]. cbn [fst] in Hread.
      by rewrite Hread, Hdec. }
    right. apply Hback. by exists bytes, c.
  - split; [|done].
    intros (cfg & out & Hrun). by apply Load_returns_inv in Hrun.
Qed.

(** A configuration that [Load] returns has no empty path: the data
    directory, the app directory, the unpack directory and the socket
    path all have a name. The app directory is always the directory
    [apps] of the data directory, whatever the file said about it. *)
Theorem Load_paths_are_never_empty fs cfgFile cfg out :
  Load fs cfgFile = Ret (cfg, out) ->
  Config.DataDir cfg <> ""
  /\ Config.AppDir cfg = path.Clean (path.Join [Config.DataDir cfg; "apps"])
  /\ Config.AppDir cfg <> ""
  /\ Config.UnpackDir cfg <> ""
  /\ Config.SockPath cfg <> "".
Proof.
  intros Hrun.
  destruct (Load_returns_inv fs cfgFile cfg out Hrun)
    as (bytes & c & Hread & Hdec).
  destruct (Load_decoded fs cfgFile bytes c Hread Hdec)
    as (cfg' & out' & Hrun' & _ & Hdata & Happ & Hunpack & Hsock & _).
  rewrite Hrun in Hrun'. injection Hrun' as <- <-.
  split.
  { rewrite Hdata. unfold or_default.
    by destruct (decide (Config.DataDir c = "")). }
  split; [done|].
  rewrite Happ, Hunpack, Hsock. repeat split; apply Clean_nonempty.
Qed.

Lemma Load_paths_are_never_empty_witness :
  exists cfg out,
    Load (fs_ok "" "//tmp/./x/" "") "/etc/xray/config.json" = Ret (cfg, out)
    /\ Config.AppDir cfg = "/usr/local/var/xray/apps"
    /\ Config.UnpackDir cfg = "/tmp/x"
    /\ Config.SockPath cfg <> "".
Proof.
  eexists _, _. split; [vm_compute; reflexivity|].
  split; [reflexivity|]. split; [reflexivity|].
  refine (proj2 (proj2 (proj2 (proj2
    (Load_paths_are_never_empty (fs_ok "" "//tmp/./x/" "")
       "/etc/xray/config.json" _ _ _))))).
  vm_compute. reflexivity.
Defined.

End configFacts.


Module configMore.
Import config configSpec pathSpec pathFacts.

Lemma Tidy_slash (s : string) : Plain s -> Tidy ("/" +:+ s).
Proof. unfold Tidy, Plain. intros Hs. by apply tidy_root. Qed.

Lemma Tidy_default_DataDir : Tidy "/usr/local/var/xray".
Proof.
  change "/usr/local/var/xray"
    with (((("/" +:+ "usr") +:+ "/" +:+ "local") +:+ "/" +:+ "var")
          +:+ "/" +:+ "xray").
  repeat (apply Tidy_snoc; [|reflexivity]). by apply Tidy_slash.
Qed.

Lemma Tidy_default_UnpackDir : Tidy "/tmp/unpacked_apks".
Proof.
  change "/tmp/unpacked_apks" with (("/" +:+ "tmp") +:+ "/" +:+ "unpacked_apks").
  apply Tidy_snoc; [|reflexivity]. by apply Tidy_slash.
Qed.

Lemma Tidy_default_SockPath : Tidy "/var/run/apkScraper".
Proof.
  change "/var/run/apkScraper"
    with ((("/" +:+ "var") +:+ "/" +:+ "run") +:+ "/" +:+ "apkScraper").
  repeat (apply Tidy_snoc; [|reflexivity]). by apply Tidy_slash.
Qed.

Lemma or_default_Tidy (given default : string) :
  given = "" \/ Tidy given -> Tidy default -> Tidy (or_default given default).
Proof.
  intros [->|Hg] Hd; unfold or_default; [done|].
  rewrite decide_False; [done|]. by apply Tidy_nonempty.
Qed.

(** When every path the file gives is tidy, [Load] keeps each one as
    it was given, puts the default in the place of each one that was
    left out, makes the directory [apps] of the data directory the app
    directory, which is tidy again, and prints these paths. *)
Theorem Load_keeps_tidy_paths fs cfgFile bytes c :
  ReadAll_ans fs (Open_ans fs cfgFile).1 = (bytes, None) ->
  Unmarshal fs bytes Config.zero = (c, None) ->
  (Config.DataDir c = "" \/ Tidy (Config.DataDir c)) ->
  (Config.UnpackDir c = "" \/ Tidy (Config.UnpackDir c)) ->
  (Config.SockPath c = "" \/ Tidy (Config.SockPath c)) ->
  exists cfg,
    Load fs cfgFile = Ret (cfg, report cfg)
    /\ Config.DataDir cfg = or_default (Config.DataDir c) "/usr/local/var/xray"
    /\ Config.AppDir cfg = Config.DataDir cfg +:+ "/" +:+ "apps"
    /\ Tidy (Config.AppDir cfg)
    /\ Config.UnpackDir cfg
       = or_default (Config.UnpackDir c) "/tmp/unpacked_apks"
    /\ Config.SockPath cfg
       = or_default (Config.SockPath c) "/var/run/apkScraper".
Proof.
  intros Hread Hdec Hdata Hunpack Hsock.
  destruct (configFacts.Load_decoded fs cfgFile bytes c Hread Hdec)
    as (cfg & out & Hrun & -> & Hd & Ha & Hu & Hs & _).
  exists cfg. split; [done|]. split; [done|].
  assert (HT : Tidy (Config.DataDir cfg)).
  { rewrite Hd. apply or_default_Tidy; [done|apply Tidy_default_DataDir]. }
  assert (HA : Tidy (Config.DataDir cfg +:+ "/" +:+ "apps")).
  { by apply Tidy_snoc. }
  rewrite Ha, Hu, Hs. rewrite Join_two by done.
  rewrite !Clean_tidy; [done|..]; try done.
  - apply or_default_Tidy; [done|apply Tidy_default_SockPath].
  - apply or_default_Tidy; [done|apply Tidy_default_UnpackDir].
Qed.

Lemma Load_keeps_tidy_paths_witness :
  exists cfg,
    Load (fs_ok "/srv/xray" "" "") "/etc/xray/config.json"
    = Ret (cfg, report cfg)
    /\ Config.DataDir cfg = "/srv/xray"
    /\ Config.AppDir cfg = "/srv/xray/apps"
    /\ Config.UnpackDir cfg = "/tmp/unpacked_apks"
    /\ Config.SockPath cfg = "/var/run/apkScraper".
Proof.
  assert (HT : Tidy "/srv/xray").
  { change "/srv/xray" with (("/" +:+ "srv") +:+ "/" +:+ "xray").
    apply Tidy_snoc; [|reflexivity]. by apply Tidy_slash. }
  destruct (Load_keeps_tidy_paths (fs_ok "/srv/xray" "" "")
              "/etc/xray/config.json" "{}" _ eq_refl eq_refl)
    as (cfg & Hrun & Hd & Ha & _ & Hu & Hs);
    [by right|by left|by left|].
  exists cfg. split; [done|]. cbn in Hd, Hu, Hs. rewrite Ha, Hd.
  by repeat split.
Defined.

End configMore.
